(** * onchain-codework: the resumable enrichment pipeline

    A shallow embedding of the two batch drivers of the repository,

    - [tools/get_code.js]  (the fetch stage: address -> verified source), and
    - the classification script (the classify stage: source -> artistic
      score), whose file name is not recorded,

    together with the properties of their resumption, skipping, retry and
    rate-limiting logic.

    Conventions of the embedding.
    - A JavaScript string is a [string]: its sequence of code units, one
      [ascii] each.  [length] is the number of code units.
    - Wall-clock time is a [Z] of milliseconds, as [Date.now()] returns it.
      Only timers and external calls let time pass: a timer resumes the
      driver when its delay has passed, an external call after the latency
      the environment gives it.  The delays of the fetch script are whole
      numbers between 1 and 10000 (as long as the clock does not run
      backwards), those of the classify script come from a quotient and go
      through [Js.timer].
    - The rate of each script, a constant of the source, is a parameter of
      its loop: [REQUESTS_PER_SECOND] is the value the source gives it.
    - The external services are the environment: the block explorer is a
      script of replies consumed one per request, the language model a
      function from the number of the call of the adapter and its snippet
      to what the call meets. *)

From Stdlib Require Import ZArith String Ascii List Lia Bool.
From stdpp Require Import base option list gmap sets strings pretty.

Local Open Scope Z_scope.

(** ** JavaScript primitives used by the scripts *)

Module Js.

Definition LF : ascii := ascii_of_nat 10.
Definition CR : ascii := ascii_of_nat 13.
Definition DQUOTE : ascii := ascii_of_nat 34.
Definition BACKSLASH : ascii := ascii_of_nat 92.

(** White space as [String.prototype.trim] and [parseInt] see it, among the
    code units below 256: TAB, LF, VT, FF, CR, SP and NBSP. *)
Definition is_ws (c : ascii) : bool :=
  let n := nat_of_ascii c in
  ((9 <=? n)%nat && (n <=? 13)%nat) || (n =? 32)%nat || (n =? 160)%nat.

Fixpoint trimStart (s : string) : string :=
  match s with
  | String c s' => if is_ws c then trimStart s' else s
  | EmptyString => EmptyString
  end.

Fixpoint trimEnd (s : string) : string :=
  match s with
  | String c s' =>
      match trimEnd s' with
      | EmptyString => if is_ws c then EmptyString else String c EmptyString
      | t => String c t
      end
  | EmptyString => EmptyString
  end.

(** [s.trim()] *)
Definition trim (s : string) : string := trimEnd (trimStart s).

(** [s.split(sep)] for a one-character separator: never empty, one more
    field than there are separators. *)
Fixpoint split (sep : ascii) (s : string) : list string :=
  match s with
  | EmptyString => [EmptyString]
  | String c s' =>
      if Ascii.eqb c sep then EmptyString :: split sep s'
      else match split sep s' with
           | w :: ws => String c w :: ws
           | [] => [String c EmptyString]
           end
  end.

(** [s.replace(/\r?\n/g, "\\n")]: every LF, with the CR before it if there
    is one, becomes the two characters backslash, n. *)
Fixpoint escapeNewlines (s : string) : string :=
  match s with
  | EmptyString => EmptyString
  | String c s' =>
      if Ascii.eqb c LF then String BACKSLASH (String "n" (escapeNewlines s'))
      else if Ascii.eqb c CR then
        match s' with
        | String c' s'' =>
            if Ascii.eqb c' LF
            then String BACKSLASH (String "n" (escapeNewlines s''))
            else String c (escapeNewlines s')
        | EmptyString => String c EmptyString
        end
      else String c (escapeNewlines s')
  end.

Definition digit (c : ascii) : option Z :=
  let n := nat_of_ascii c in
  if ((48 <=? n)%nat && (n <=? 57)%nat)%bool
  then Some (Z.of_nat n - 48) else None.

(** The longest prefix of decimal digits, read as a number; [None] when
    the string does not start with a digit. *)
Fixpoint digits (acc : option Z) (s : string) : option Z :=
  match s with
  | String c s' =>
      match digit c with
      | Some d => digits (Some (10 * default 0 acc + d)) s'
      | None => acc
      end
  | EmptyString => acc
  end.

(** [parseInt(s, 10)]: leading white space is skipped, one sign is
    accepted, then the longest run of digits is read and the rest is
    ignored; [None] is NaN.  The value is an exact integer (a double holds
    it exactly up to 2^53, far beyond the range the caller tests). *)
Definition parseInt (s : string) : option Z :=
  match trimStart s with
  | String "-" s' => Z.opp <$> digits None s'
  | String "+" s' => digits None s'
  | s' => digits None s'
  end.

(** Truthiness of a string: every string but the empty one. *)
Definition truthy (s : string) : bool :=
  match s with EmptyString => false | _ => true end.

(** The numbers of the rate limiter of the classify script: the quotient
    of two integers, kept exact as [Ratio num den] with [den] not zero, or
    +Infinity, the quotient of a positive number by zero.  (A double rounds
    such a quotient, by too little to change its comparison with a whole
    number of milliseconds or the whole part of a delay, at any rate below
    10^12.) *)
Inductive number :=
| Ratio (num den : Z)
| Infinity.

(** [a / b], for a positive [a]. *)
Definition quotient (a b : Z) : number :=
  if b =? 0 then Infinity else Ratio a b.

(** [e < x], for an integer [e]. *)
Definition int_lt (e : Z) (x : number) : bool :=
  match x with
  | Ratio num den => if 0 <? den then e * den <? num else num <? e * den
  | Infinity => true
  end.

(** [x - e], for an integer [e]. *)
Definition minus_int (x : number) (e : Z) : number :=
  match x with
  | Ratio num den => Ratio (num - e * den) den
  | Infinity => Infinity
  end.

Definition TIMEOUT_MAX : Z := 2147483647.

(** The time after which [setTimeout(resolve, delay)] resumes the caller.
    A delay below 1 or above 2^31 - 1 is set to 1, and a delay that is not
    a whole number is truncated. *)
Definition timer (delay : number) : Z :=
  match delay with
  | Ratio num den =>
      let at_least_1 := if 0 <? den then den <=? num else num <=? den in
      let at_most_max :=
        if 0 <? den then num <=? TIMEOUT_MAX * den
        else TIMEOUT_MAX * den <=? num in
      if at_least_1 && at_most_max then num / den else 1
  | Infinity => 1
  end.

(** [s.toLowerCase()] on the code units below 256: the letters A to Z and
    the capital letters of Latin-1 (U+00C0 to U+00DE, but for the sign
    U+00D7) move up by 32, every other code unit stays. *)
Definition lower (c : ascii) : ascii :=
  let n := nat_of_ascii c in
  if ((65 <=? n)%nat && (n <=? 90)%nat)
     || ((192 <=? n)%nat && (n <=? 222)%nat && negb (n =? 215)%nat)
  then ascii_of_nat (n + 32) else c.

Fixpoint toLowerCase (s : string) : string :=
  match s with
  | String c s' => String (lower c) (toLowerCase s')
  | EmptyString => EmptyString
  end.

End Js.

(** ** The CSV writer

    Both scripts write their rows through the [csv-writer] package with its
    default settings: a field that holds the delimiter, a double quote or a
    line feed is wrapped in double quotes with its quotes doubled (a
    carriage return alone does not make it quoted), the fields of a record
    are joined by commas, and every record ends with one line feed. *)

Module Csv.

Definition special (c : ascii) : bool :=
  Ascii.eqb c "," || Ascii.eqb c Js.DQUOTE || Ascii.eqb c Js.LF.

Fixpoint needsQuote (s : string) : bool :=
  match s with
  | String c s' => special c || needsQuote s'
  | EmptyString => false
  end.

Fixpoint doubleQuotes (s : string) : string :=
  match s with
  | String c s' =>
      if Ascii.eqb c Js.DQUOTE then String c (String c (doubleQuotes s'))
      else String c (doubleQuotes s')
  | EmptyString => EmptyString
  end.

Definition field (s : string) : string :=
  if needsQuote s
  then String Js.DQUOTE (doubleQuotes s +:+ String Js.DQUOTE EmptyString)
  else s.

Definition record (fields : list string) : string :=
  String.concat "," (map field fields) +:+ String Js.LF EmptyString.

(** The header line: the column titles, joined by commas. *)
Definition header (titles : list string) : string :=
  String.concat "," titles +:+ String Js.LF EmptyString.

End Csv.

(** ** The fetch stage: [tools/get_code.js] *)

Module GetCode.

Definition REQUESTS_PER_SECOND : Z := 3.
Definition SKIP_PROCESSED : bool := true.

(** A row of the input CSV, as [csv-parser] hands it over. *)
Record InRow := {
  block_number : string;
  address : string;
  is_erc20 : string;
  is_erc721 : string
}.

(** A row of the output CSV. *)
Record OutRow := {
  out_block_number : string;
  out_address : string;
  out_is_erc20 : string;
  out_is_erc721 : string;
  out_code : string
}.

(** The output file of this stage is written by [csv-writer] and read back
    by [csv-parser].  A file that exists holds its header and rows under
    it, or rows alone: the script writes the header only when it creates
    the file, so a file it finds empty stays without one.  [None] is a file
    that does not exist, [Some (Bare [])] the empty file. *)
Inductive Stored :=
| Headed (rows : list OutRow)
| Bare (rows : list OutRow).

Definition File := option Stored.

Definition titles : list string :=
  ["block_number"; "address"; "is_erc20"; "is_erc721"; "code"]%string.

(** The cells of a row, in the order of the columns. *)
Definition cells (row : OutRow) : list string :=
  [out_block_number row; out_address row; out_is_erc20 row;
   out_is_erc721 row; out_code row].

(** [row[name]] for a row that [csv-parser] built from [cells] under the
    header [names]: the cell of the last column of that name, [None]
    ([undefined]) when no column has it. *)
Fixpoint column (name : string) (names cells : list string)
  : option string :=
  match names, cells with
  | n :: names', c :: cells' =>
      match column name names' cells' with
      | Some v => Some v
      | None => if String.eqb n name then Some c else None
      end
  | _, _ => None
  end.

(** What [csv-parser] reads: the first line gives the names of the columns,
    whether it is the header or, in a file without one, the first row. *)
Definition parsed (s : Stored) : list string * list OutRow :=
  match s with
  | Headed rows => (titles, rows)
  | Bare (first :: rows) => (cells first, rows)
  | Bare [] => ([], [])
  end.

(** [getProcessedAddresses]: the [address] of every row read.  (A row
    without such a column adds [undefined], which is the address of no
    record.) *)
Definition getProcessedAddresses (f : File) : gset string :=
  match f with
  | None => ∅
  | Some s =>
      list_to_set
        (omap (λ row, column "address" (parsed s).1 (cells row)) (parsed s).2)
  end.

(** [createCsvWriter]: a missing file is created with the header alone, a
    file that exists is left as it is; the result is the rows the file
    holds when the writer starts to append. *)
Definition createCsvWriter (f : File) : list OutRow :=
  match f with
  | Some (Headed rows) | Some (Bare rows) => rows
  | None => []
  end.

(** The file once the writer has appended to it, holding [rows]: it has a
    header unless it existed without one. *)
Definition appended (f : File) (rows : list OutRow) : Stored :=
  match f with
  | Some (Bare _) => Bare rows
  | _ => Headed rows
  end.

(** One reply of the block explorer to one request.
    - [Throws]: [fetch] rejects, or the body is not JSON, or reading the
      reply raises (a null first element, a source that is no string):
      everything the [catch] clause receives;
    - [NotOk status]: a reply whose [ok] is false;
    - [Json message result]: a parsed body; [result] is [None] when it is
      not an array, else the array, each element given by its [SourceCode]
      field ([None] when the field is missing). *)
Inductive Body :=
| Throws
| NotOk (status : Z)
| Json (message : string) (result : option (list (option string))).

Record Reply := { latency : Z; body : Body }.

Inductive Event :=
| LogSkip (addr : string)              (* [SKIP] Already processed *)
| Sleep (at_ms : Z) (duration : Z)     (* a timer *)
| LogFetch (at_ms : Z) (addr : string) (* [FETCH] Fetching contract *)
| Request (at_ms : Z) (addr : string)  (* one HTTP request *)
| Write (row : OutRow)                 (* csvWriter.writeRecords *)
| LogOk (addr : string)                (* [OK] Saved *)
| LogNoContract (addr : string).       (* [NG] No contract *)

(** What one call of the adapter returns: the source or [null], the
    replies it left unread, the time at its return and what it did. *)
Record Fetched := {
  sourceCode : option string;
  rest : list Reply;
  returned_at : Z;
  did : list Event
}.

(** [fetchContractSource]: the [while (true)] loop reads the script reply
    by reply.  [None] is a loop that is still retrying when the script
    ends. *)
Fixpoint fetchContractSource (addr : string) (script : list Reply) (now : Z)
  : option Fetched :=
  match script with
  | [] => None
  | r :: script' =>
      let t := now + latency r in
      let again (backoff : Z) :=
        f ← fetchContractSource addr script' (t + backoff);
        Some {| sourceCode := sourceCode f; rest := rest f;
                returned_at := returned_at f;
                did := Request now addr :: Sleep t backoff :: did f |} in
      let done (src : option string) :=
        Some {| sourceCode := src; rest := script'; returned_at := t;
                did := [Request now addr] |} in
      match body r with
      | Throws => again 10000
      | NotOk _ => again 3000
      | Json message result =>
          if String.eqb message "NOTOK" then again 3000
          else match result with
               | None | Some [] => done None
               | Some (contractInfo :: _) =>
                   match Js.trim <$> contractInfo with
                   | Some src =>
                       if Js.truthy src && negb (String.eqb src "0x")
                       then done (Some src) else done None
                   | None => done None
                   end
               end
      end
  end.

(** The variables of [main]'s loop. *)
Record State := {
  now : Z;
  file : list OutRow;
  processedAddresses : gset string;
  callCount : Z;
  startTime : Z;
  script : list Reply
}.

(** One iteration of [for (const row of records)], for a rate [rate]
    ([REQUESTS_PER_SECOND] in the source). *)
Definition step (rate : Z) (st : State) (row : InRow)
  : option (State * list Event) :=
  if SKIP_PROCESSED && bool_decide (address row ∈ processedAddresses st)
  then Some (st, [LogSkip (address row)])
  else
    let callCount1 := callCount st + 1 in
    let '(now1, startTime1, callCount2, waited) :=
      if rate <? callCount1 then
        let elapsed := now st - startTime st in
        if elapsed <? 1000
        then (now st + (1000 - elapsed), now st + (1000 - elapsed), 1,
              [Sleep (now st) (1000 - elapsed)])
        else (now st, now st, 1, [])
      else (now st, startTime st, callCount1, []) in
    f ← fetchContractSource (address row) (script st) now1;
    match sourceCode f with
    | Some src =>
        let out := {| out_block_number := block_number row;
                      out_address := address row;
                      out_is_erc20 := is_erc20 row;
                      out_is_erc721 := is_erc721 row;
                      out_code := Js.escapeNewlines src |} in
        Some ({| now := returned_at f;
                 file := file st ++ [out];
                 processedAddresses := {[address row]} ∪ processedAddresses st;
                 callCount := callCount2;
                 startTime := startTime1;
                 script := rest f |},
              waited ++ LogFetch now1 (address row) :: did f
                ++ [Write out; LogOk (address row)])
    | None =>
        Some ({| now := returned_at f;
                 file := file st;
                 processedAddresses := processedAddresses st;
                 callCount := callCount2;
                 startTime := startTime1;
                 script := rest f |},
              waited ++ LogFetch now1 (address row) :: did f
                ++ [LogNoContract (address row)])
    end.

(** The loop over the records. *)
Fixpoint loop (rate : Z) (st : State) (records : list InRow)
  : option (State * list Event) :=
  match records with
  | [] => Some (st, [])
  | row :: records' =>
      '(st1, evs1) ← step rate st row;
      '(st2, evs2) ← loop rate st1 records';
      Some (st2, evs1 ++ evs2)
  end.

(** [main], started at time [t0] on the output file [f]. *)
Definition main (rate : Z) (f : File) (records : list InRow) (t0 : Z)
  (replies : list Reply) : option (State * list Event) :=
  let processed := if SKIP_PROCESSED then getProcessedAddresses f else ∅ in
  loop rate
    {| now := t0; file := createCsvWriter f; processedAddresses := processed;
       callCount := 0; startTime := t0; script := replies |}
    records.

(** The rows a trace writes, and the times of its adapter calls. *)
Definition written (evs : list Event) : list OutRow :=
  omap (λ e, match e with Write row => Some row | _ => None end) evs.

Definition fetch_times (evs : list Event) : list Z :=
  omap (λ e, match e with LogFetch t _ => Some t | _ => None end) evs.

Definition request_times (evs : list Event) : list Z :=
  omap (λ e, match e with Request t _ => Some t | _ => None end) evs.

End GetCode.

(** ** The classify stage: the classification script *)

Module Classify.

Definition REQUESTS_PER_SECOND : Z := 1.
Definition SKIP_PROCESSED : bool := true.
Definition MIN_CODE_LENGTH : nat := 20.

(** A row of the input CSV, as [csv-parser] hands it over. *)
Record InRow := {
  block_number : string;
  address : string;
  is_erc20 : string;
  is_erc721 : string;
  code : string
}.

(** A row of the output CSV.  [artistic_score] is a number or the empty
    string: [None] is the empty string. *)
Record OutRow := {
  out_block_number : string;
  out_address : string;
  out_is_erc20 : string;
  out_is_erc721 : string;
  out_code : string;
  artistic_score : option Z;
  artistic_reason : string;
  duplicate_of_address : string
}.

Definition titles : list string :=
  ["block_number"; "address"; "is_erc20"; "is_erc721"; "code";
   "artistic_score"; "artistic_reason"; "duplicate_of_address"]%string.

(** The line [csv-writer] writes for a row. *)
Definition line (row : OutRow) : string :=
  Csv.record
    [out_block_number row; out_address row; out_is_erc20 row;
     out_is_erc721 row; out_code row;
     from_option pretty ""%string (artistic_score row);
     artistic_reason row; duplicate_of_address row].

(** The output file is its text; [None] is a file that does not exist. *)
Definition File := option string.

(** The start of [main]: the addresses of the rows already written, read
    off the text of the output file.  The first line is passed over, a
    line that is blank after trimming too, and of every other line the
    second comma-separated column is taken when it is not empty. *)
Definition scanLine (processed : gset string) (raw : string) : gset string :=
  let line := Js.trim raw in
  if negb (Js.truthy line) then processed
  else match Js.split "," line !! 1%nat with
       | Some address =>
           if Js.truthy address then {[address]} ∪ processed else processed
       | None => processed
       end.

Definition loadProcessed (f : File) : gset string :=
  match f with
  | Some text =>
      if SKIP_PROCESSED
      then foldl scanLine ∅ (tail (Js.split Js.LF text))
      else ∅
  | None => ∅
  end.

(** What a call of the client gives the adapter: an exception (a network
    fault, a time-out, an error status, a reply without a message) or the
    text of the first choice. *)
Inductive Body :=
| ApiError
| Content (text : string).

(** A request that failed and that the client sent again on its own: the
    time the request took, and the wait the client set before the next
    request (its backoff, or the wait the reply asked for). *)
Record Resend := { took : Z; backoff : Z }.

(** What one call of the client, [openai.chat.completions.create], meets.
    The client is built with its defaults ([new OpenAI({ apiKey })]): a
    request that fails on the connection, on a time-out or with one of the
    statuses 408, 409, 429, 500 and above is sent again by the client
    itself, [maxRetries] times at most, before the call raises.  [resent]
    are the requests of the call that failed and were sent again,
    [latency] is the time its last request took, and [body] what the call
    gives the adapter. *)
Record Reply := { resent : list Resend; latency : Z; body : Body }.

(** The number of times the client sends a request again, by default. *)
Definition maxRetries : nat := 2.

Record Annotation := { score : option Z; reason : string }.

Definition null_annotation : Annotation := {| score := None; reason := "" |}.

(** [getArtisticScoreAndReason], from what its call of the client gives:
    one call, no loop. *)
Definition getArtisticScoreAndReason (r : Reply) : Annotation :=
  match body r with
  | ApiError => null_annotation
  | Content text =>
      let content := Js.trim text in
      let parts := map Js.trim (Js.split "|" content) in
      match parts with
      | [part0; part1] =>
          match Js.parseInt part0 with
          | Some score =>
              if (score <? 1) || (3 <? score) then null_annotation
              else {| score := Some score; reason := part1 |}
          | None => null_annotation
          end
      | _ => null_annotation
      end
  end.

(** [const intervalMs = 1000 / REQUESTS_PER_SECOND], for a rate [rate]. *)
Definition intervalMs (rate : Z) : Js.number := Js.quotient 1000 rate.

Inductive Event :=
| LogSkipAddr (addr : string)                 (* [SKIP-ADDR] *)
| LogSkipShort (addr : string) (len : nat)    (* [SKIP-SHORT] *)
| LogSkipCode (addr original : string)        (* [SKIP-CODE] *)
| Sleep (at_ms : Z) (duration : Z)            (* a timer *)
| LogProcessing (addr : string)               (* [processing] *)
| Request (at_ms : Z) (codeSnippet : string)  (* a call of the adapter:
                                                 its first request *)
| Resent (at_ms : Z)                          (* a request the client
                                                 sends again *)
| Write (row : OutRow).                       (* csvWriter.writeRecords *)

(** The variables of [main]'s loop.  [append] is the flag of the CSV
    writer: until it is set the next write starts the file with the
    header; [calls] numbers the calls of the adapter.
    [processedCodes] is a plain object used as a map from content to
    address.  The properties it inherits have names of at most 20
    characters ([propertyIsEnumerable] is the longest), and the loop looks
    up only contents of more than [MIN_CODE_LENGTH] = 20 characters, so
    the object is the finite map of what the loop stored in it. *)
Record State := {
  now : Z;
  file : File;
  append : bool;
  processedAddresses : gset string;
  processedCodes : gmap string string;
  lastRequestTime : Z;
  calls : nat;
  count : nat
}.

(** [csvWriter.writeRecords([row])] *)
Definition writeRecords (f : File) (append : bool) (row : OutRow) : File :=
  if append then Some (default ""%string f +:+ line row)
  else Some (Csv.header titles +:+ line row).

Definition placeholder (row : InRow) (tag : string) : OutRow :=
  {| out_block_number := block_number row;
     out_address := address row;
     out_is_erc20 := is_erc20 row;
     out_is_erc721 := is_erc721 row;
     out_code := "";
     artistic_score := None;
     artistic_reason := "";
     duplicate_of_address := tag |}.

Definition enriched (row : InRow) (a : Annotation) : OutRow :=
  {| out_block_number := block_number row;
     out_address := address row;
     out_is_erc20 := is_erc20 row;
     out_is_erc721 := is_erc721 row;
     out_code := Js.escapeNewlines (code row);
     artistic_score := score a;
     artistic_reason := reason a;
     duplicate_of_address := "" |}.

Definition wrote (st : State) (out : OutRow) : State :=
  {| now := now st;
     file := writeRecords (file st) (append st) out;
     append := true;
     processedAddresses := processedAddresses st;
     processedCodes := processedCodes st;
     lastRequestTime := lastRequestTime st;
     calls := calls st;
     count := count st |}.

(** The requests the client sends again during a call whose first request
    left at [t]: one event for each, and the time the last request of the
    call leaves. *)
Fixpoint resend (t : Z) (failed : list Resend) : list Event * Z :=
  match failed with
  | [] => ([], t)
  | f :: failed' =>
      let t' := t + took f + backoff f in
      (Resent t' :: (resend t' failed').1, (resend t' failed').2)
  end.

(** [processedCodes[code]], when it is truthy. *)
Definition originalOf (codes : gmap string string) (code : string)
  : option string :=
  match codes !! code with
  | Some addr => if Js.truthy addr then Some addr else None
  | None => None
  end.

(** One iteration of [for (const row of records)], for a rate [rate]
    ([REQUESTS_PER_SECOND] in the source); [llm n snippet] is what the
    [n]-th call of the adapter, made for [snippet], meets. *)
Definition step (rate : Z) (llm : nat → string → Reply) (st : State)
  (row : InRow) : State * list Event :=
  if SKIP_PROCESSED && bool_decide (address row ∈ processedAddresses st)
  then (st, [LogSkipAddr (address row)])
  else if (String.length (code row) <=? MIN_CODE_LENGTH)%nat then
    let out := placeholder row "TOO_SHORT" in
    (wrote st out,
     [LogSkipShort (address row) (String.length (code row)); Write out])
  else match originalOf (processedCodes st) (code row) with
  | Some originalAddr =>
      let out := placeholder row originalAddr in
      (wrote st out, [LogSkipCode (address row) originalAddr; Write out])
  | None =>
      let elapsed := now st - lastRequestTime st in
      let '(now1, waited) :=
        if Js.int_lt elapsed (intervalMs rate)
        then
          let delay := Js.timer (Js.minus_int (intervalMs rate) elapsed) in
          (now st + delay, [Sleep (now st) delay])
        else (now st, []) in
      let r := llm (calls st) (code row) in
      let a := getArtisticScoreAndReason r in
      let now2 := (resend now1 (resent r)).2 + latency r in
      let out := enriched row a in
      ({| now := now2;
          file := writeRecords (file st) (append st) out;
          append := true;
          processedAddresses := {[address row]} ∪ processedAddresses st;
          processedCodes := <[code row := address row]> (processedCodes st);
          lastRequestTime := now2;
          calls := S (calls st);
          count := S (count st) |},
       waited ++ LogProcessing (address row) :: Request now1 (code row)
         :: (resend now1 (resent r)).1 ++ [Write out])
  end.

(** The loop over the records. *)
Fixpoint loop (rate : Z) (llm : nat → string → Reply) (st : State)
  (records : list InRow) : State * list Event :=
  match records with
  | [] => (st, [])
  | row :: records' =>
      let '(st1, evs1) := step rate llm st row in
      let '(st2, evs2) := loop rate llm st1 records' in
      (st2, evs1 ++ evs2)
  end.

(** [main], started at time [t0] on the output file [f]. *)
Definition main (rate : Z) (f : File) (records : list InRow) (t0 : Z)
  (llm : nat → string → Reply) : State * list Event :=
  loop rate llm
    {| now := t0; file := f; append := bool_decide (is_Some f);
       processedAddresses := loadProcessed f; processedCodes := ∅;
       lastRequestTime := 0; calls := 0; count := 0 |}
    records.

Definition written (evs : list Event) : list OutRow :=
  omap (λ e, match e with Write row => Some row | _ => None end) evs.

(** The times of the calls of the adapter, and the times of all the
    requests sent: the first request of every call and the requests the
    client sent again. *)
Definition request_times (evs : list Event) : list Z :=
  omap (λ e, match e with Request t _ => Some t | _ => None end) evs.

Definition sent_times (evs : list Event) : list Z :=
  omap (λ e, match e with
             | Request t _ | Resent t => Some t
             | _ => None
             end) evs.

Definition is_effect (e : Event) : bool :=
  match e with Sleep _ _ | Request _ _ | Resent _ => true | _ => false end.

End Classify.

(** ** The counting script: [countNonErc20] *)

Module CountNonErc20.

(** A row as [csv-parser] hands it over: of its columns the script reads
    [is_erc20], which is [None] ([undefined]) in a row that has no such
    column. *)
Record Row := { is_erc20 : option string }.

(** [String(x)], for a string or [undefined]. *)
Definition toString (x : option string) : string :=
  default "undefined"%string x.

(** The test of the ['data'] handler. *)
Definition non_erc20 (row : Row) : bool :=
  negb (String.eqb (Js.toLowerCase (toString (is_erc20 row))) "true").

(** What the parser emits, the stream the handlers are set on.  (A
    failure to read the file is an error of the file stream, which has no
    handler: it is no event of the parser, and ends the process.) *)
Inductive Event :=
| Data (row : Row)
| End
| Error.

Inductive Outcome :=
| Resolved (count : nat)
| Rejected.

(** The handlers of the stream, run over the events it emits with the
    counter [count]: the promise is settled by the first ['end'] or
    ['error']; [None] is a promise that is still pending when the events
    end. *)
Fixpoint handle (count : nat) (events : list Event) : option Outcome :=
  match events with
  | Data row :: events' =>
      handle (if non_erc20 row then S count else count) events'
  | End :: _ => Some (Resolved count)
  | Error :: _ => Some Rejected
  | [] => None
  end.

(** [countNonErc20(csvFilePath)], given the events of the stream of the
    file. *)
Definition countNonErc20 (events : list Event) : option Outcome :=
  handle 0 events.

(** The script: without a path on the command line it prints its usage
    and exits with the code 1, else it counts. *)
Inductive Exit :=
| Usage
| Counted (outcome : option Outcome).

Definition script (csvFilePath : option string)
  (stream : string → list Event) : Exit :=
  match csvFilePath with
  | Some path =>
      if Js.truthy path then Counted (countNonErc20 (stream path)) else Usage
  | None => Usage
  end.

End CountNonErc20.
(** ** Derived notions used in the statements *)

(** Counting the calls of a window of time. *)
Fixpoint count_times (p : Z → bool) (times : list Z) : nat :=
  match times with
  | t :: times' => (if p t then 1 else 0) + count_times p times'
  | [] => 0
  end.

(** The calls at a time [t] with [lo <= t < hi]. *)
Definition count_between (lo hi : Z) (times : list Z) : nat :=
  count_times (λ t, (lo <=? t) && (t <? hi)) times.

(** The calls dispatched in the second that starts at [a]: those at a time
    [t] with [a <= t < a + 1000]. *)
Definition dispatched_in (a : Z) (times : list Z) : nat :=
  count_between a (a + 1000) times.

(** The calls after the moment [x], and those less than a second before
    [T]. *)
Definition after (x : Z) (times : list Z) : nat :=
  count_times (λ t, x <? t) times.

Definition recent (T : Z) (times : list Z) : nat := after (T - 1000) times.

Section FetchNotions.
Import GetCode.

(** The three replies the adapter answers by waiting and asking again. *)
Definition fetch_transient (r : Reply) : bool :=
  match body r with
  | Throws | NotOk _ => true
  | Json message _ => String.eqb message "NOTOK"
  end.

(** The wait that follows a transient reply. *)
Definition fetch_backoff (r : Reply) : Z :=
  match body r with Throws => 10000 | _ => 3000 end.

(** What the adapter returns on a reply that is not transient. *)
Definition fetch_verdict (r : Reply) : option string :=
  match body r with
  | Json _ (Some (Some src :: _)) =>
      if Js.truthy (Js.trim src) && negb (String.eqb (Js.trim src) "0x")
      then Some (Js.trim src) else None
  | _ => None
  end.

(** The rate limiter of one iteration: the time of the call, the start of
    the window and the counter after it, and the wait.  *)
Definition throttle (rate : Z) (st : State) : Z * Z * Z * list Event :=
  let callCount1 := callCount st + 1 in
  if rate <? callCount1 then
    let elapsed := now st - startTime st in
    if elapsed <? 1000
    then (now st + (1000 - elapsed), now st + (1000 - elapsed), 1,
          [Sleep (now st) (1000 - elapsed)])
    else (now st, now st, 1, [])
  else (now st, startTime st, callCount1, []).

(** The time a run of transient replies costs: each its latency and the
    wait after it. *)
Definition retry_time (replies : list Reply) : Z :=
  foldr (λ r acc, latency r + fetch_backoff r + acc) 0 replies.

(** The row the fetch stage writes for a record and a source. *)
Definition fetched_row (row : InRow) (src : string) : OutRow :=
  {| out_block_number := block_number row;
     out_address := address row;
     out_is_erc20 := is_erc20 row;
     out_is_erc721 := is_erc721 row;
     out_code := Js.escapeNewlines src |}.

(** The invariant of the fetch loop behind its rate bound, for the times
    [ts] of the requests made so far: the counter stays within the rate, no
    request lies in the future, at most [callCount + rate] requests are
    recent, at most [callCount] once the window of the counter is over, and
    no second holds more than twice the rate. *)
Definition rate_inv (rate : Z) (st : State) (ts : list Z) : Prop :=
  0 ≤ callCount st ≤ rate
  ∧ Forall (λ r, 0 ≤ latency r) (script st)
  ∧ Forall (λ t, t ≤ now st) ts
  ∧ (∀ T, now st ≤ T → Z.of_nat (recent T ts) ≤ callCount st + rate)
  ∧ (∀ T, now st ≤ T → startTime st + 1000 ≤ T →
          Z.of_nat (recent T ts) ≤ callCount st)
  ∧ (∀ a, Z.of_nat (dispatched_in a ts) ≤ 2 * rate).

(** An output file that does not exist yet, or that holds its header. *)
Definition with_header (f : File) : Prop :=
  match f with
  | Some (Bare _) => False
  | _ => True
  end.

(** A run of the fetch stage: its input, the time it starts and the replies
    of the explorer during it. *)
Record FetchRun := {
  fetch_input : list InRow;
  fetch_started : Z;
  fetch_replies : list Reply
}.

(** The life of an output file: runs at the rate [rate], one after the
    other, each on the file the one before left.  The result is the rows of
    the file at the end; [None] when a run does not end. *)
Fixpoint fetch_lifetime (rate : Z) (f : File) (runs : list FetchRun)
  : option (list OutRow) :=
  match runs with
  | [] => Some (createCsvWriter f)
  | r :: runs' =>
      '(st, _) ←
        main rate f (fetch_input r) (fetch_started r) (fetch_replies r);
      fetch_lifetime rate (Some (appended f (file st))) runs'
  end.

End FetchNotions.

Section ClassifyNotions.
Import Classify.

(** The rate limiter of one enrichment: the time of the request and the
    wait before it. *)
Definition limiter (rate : Z) (st : State) : Z * list Event :=
  let elapsed := now st - lastRequestTime st in
  if Js.int_lt elapsed (intervalMs rate)
  then
    let delay := Js.timer (Js.minus_int (intervalMs rate) elapsed) in
    (now st + delay, [Sleep (now st) delay])
  else (now st, []).

(** The state after the enrichment of [row] with the reply [r]. *)
Definition enrich (rate : Z) (st : State) (row : InRow) (r : Reply)
  : State :=
  {| now := (resend (limiter rate st).1 (resent r)).2 + latency r;
     file := writeRecords (file st) (append st)
               (enriched row (getArtisticScoreAndReason r));
     append := true;
     processedAddresses := {[address row]} ∪ processedAddresses st;
     processedCodes := <[code row := address row]> (processedCodes st);
     lastRequestTime := (resend (limiter rate st).1 (resent r)).2 + latency r;
     calls := S (calls st);
     count := S (count st) |}.

(** A call in which no request takes a negative time and the client never
    waits a negative time. *)
Definition timely (r : Reply) : Prop :=
  0 ≤ latency r
  ∧ Forall (λ f, 0 ≤ took f ∧ 0 ≤ backoff f) (resent r).

(** The fields of a reply of the model, as the adapter splits it. *)
Definition reply_fields (text : string) : list string :=
  map Js.trim (Js.split "|" (Js.trim text)).

(** The three ways the parse of a reply fails, as the adapter tests them:
    not two fields, no number that [parseInt] reads at the start of the
    first field, a number read that is outside 1..3. *)
Inductive parse_fails (text : string) : Prop :=
| wrong_field_count :
    length (reply_fields text) ≠ 2%nat → parse_fails text
| no_integer part0 part1 :
    reply_fields text = [part0; part1] →
    Js.parseInt part0 = None → parse_fails text
| out_of_range part0 part1 score :
    reply_fields text = [part0; part1] →
    Js.parseInt part0 = Some score →
    score < 1 ∨ 3 < score → parse_fails text.

(** A string without the character [c]. *)
Fixpoint lacks (c : ascii) (s : string) : bool :=
  match s with
  | String c' s' => negb (Ascii.eqb c' c) && lacks c s'
  | EmptyString => true
  end.

(** The branch a record takes. *)
Inductive Branch :=
| Skipped
| TooShort
| Duplicate (original : string)
| Enriched.

Definition branch (st : State) (row : InRow) : Branch :=
  if bool_decide (address row ∈ processedAddresses st) then Skipped
  else if (String.length (code row) <=? MIN_CODE_LENGTH)%nat then TooShort
  else match originalOf (processedCodes st) (code row) with
       | Some original => Duplicate original
       | None => Enriched
       end.

(** A row that stands for an enrichment: no tag, and a content. *)
Definition real_enrichment (out : OutRow) : Prop :=
  duplicate_of_address out = ""%string ∧ out_code out ≠ ""%string.

(** The text of the rows of an output file, and of the file with its
    header. *)
Definition text_of (rows : list OutRow) : string :=
  foldr (λ row text, line row +:+ text) "" rows.

Definition file_of (rows : list OutRow) : string :=
  Csv.header titles +:+ text_of rows.

(** The output file [f] is as the writer leaves it after the rows [rows]:
    the header and their lines, or no file when nothing was written. *)
Definition holds (f : File) (rows : list OutRow) : Prop :=
  f = Some (file_of rows) ∨ (f = None ∧ rows = []).

(** A row whose address the scan of the file reads back: its block number
    and its address hold no comma, double quote or line feed, and the
    address is not empty. *)
Definition scannable (row : OutRow) : Prop :=
  Csv.needsQuote (out_block_number row) = false
  ∧ Csv.needsQuote (out_address row) = false
  ∧ out_address row ≠ "".

(** A record of the input whose row will be scannable. *)
Definition well_formed_key (row : InRow) : Prop :=
  Csv.needsQuote (block_number row) = false
  ∧ Csv.needsQuote (address row) = false
  ∧ address row ≠ "".

(** A run of the classify stage: its input, the time it starts and the
    model during it. *)
Record ClassifyRun := {
  classify_input : list InRow;
  classify_started : Z;
  classify_model : nat → string → Reply
}.

(** The life of an output file: runs one after the other, each on the file
    the one before left.  The result is the file at the end and the rows
    written, in order. *)
Fixpoint classify_lifetime (f : File) (runs : list ClassifyRun)
  : File * list OutRow :=
  match runs with
  | [] => (f, [])
  | r :: runs' =>
      let '(st, evs) :=
        main REQUESTS_PER_SECOND f (classify_input r) (classify_started r)
          (classify_model r) in
      let '(f', rows) := classify_lifetime (file st) runs' in
      (f', written evs ++ rows)
  end.

End ClassifyNotions.


(** ** Derived notions of the further properties *)

(** The number of occurrences of the character [c] in a string. *)
Fixpoint occurrences (c : ascii) (s : string) : nat :=
  match s with
  | String c' s' => (if Ascii.eqb c' c then 1 else 0) + occurrences c s'
  | EmptyString => 0
  end.

(** Times that follow one another at a distance of [d] or more. *)
Fixpoint spaced (d : Z) (ts : list Z) : Prop :=
  match ts with
  | t1 :: ts' =>
      match ts' with
      | t2 :: _ => t1 + d ≤ t2
      | [] => True
      end ∧ spaced d ts'
  | [] => True
  end.

(** The addresses a trace of the fetch stage makes a request for. *)
Definition requested (evs : list GetCode.Event) : list string :=
  omap (λ e, match e with GetCode.Request _ a => Some a | _ => None end) evs.

(** A source as the fetch adapter returns it: not empty, not the bare
    prefix 0x, and without white space at its ends. *)
Definition clean_source (src : string) : Prop :=
  src ≠ ""%string ∧ src ≠ "0x"%string ∧ Js.trim src = src.

(** The rows of a trace of the classify stage that stand for an
    enrichment, and its placeholders. *)
Definition enrichments (rows : list Classify.OutRow) : list Classify.OutRow :=
  filter (λ out, Classify.duplicate_of_address out = ""%string) rows.

(** A letter of the word true, in either case. *)
Definition either_case (lower upper c : ascii) : Prop :=
  c = lower ∨ c = upper.

(** A string that reads true in some mix of cases. *)
Definition reads_true (s : string) : Prop :=
  ∃ c1 c2 c3 c4,
    s = String c1 (String c2 (String c3 (String c4 EmptyString)))
    ∧ either_case "t" "T" c1 ∧ either_case "r" "R" c2
    ∧ either_case "u" "U" c3 ∧ either_case "e" "E" c4.

(** The invariant of the fetch loop behind its pacing, after [n] calls of
    the adapter in a run started at [t0]: [w] windows of the counter are
    over, each a second or more, and the counter holds the calls of the
    current one. *)
Definition paced (rate t0 : Z) (st : GetCode.State) (n : nat) : Prop :=
  ∃ w, 0 ≤ w
       ∧ Z.of_nat n = w * rate + GetCode.callCount st
       ∧ 0 ≤ GetCode.callCount st ≤ rate
       ∧ t0 + 1000 * w ≤ GetCode.startTime st
       ∧ GetCode.startTime st ≤ GetCode.now st
       ∧ Forall (λ r, 0 ≤ GetCode.latency r) (GetCode.script st).

(** A row whose line in the output file is one line of text: it holds one
    line feed, the one at its end. *)
Definition one_line (row : Classify.OutRow) : Prop :=
  occurrences Js.LF (Classify.line row) = 1%nat.

(** A row of the output of the fetch stage, read back as a record of the
    input of the classify stage: the input of the one has the five columns
    of the output of the other. *)
Definition as_input (out : GetCode.OutRow) : Classify.InRow :=
  {| Classify.block_number := GetCode.out_block_number out;
     Classify.address := GetCode.out_address out;
     Classify.is_erc20 := GetCode.out_is_erc20 out;
     Classify.is_erc721 := GetCode.out_is_erc721 out;
     Classify.code := GetCode.out_code out |}.

(** ** Concrete inputs used in the examples *)

Module Ex.

(** Fetch stage: six addresses, and replies of the explorer. *)
Definition addr_row (a : string) : GetCode.InRow :=
  {| GetCode.block_number := "100"; GetCode.address := a;
     GetCode.is_erc20 := "false"; GetCode.is_erc721 := "false" |}.

Definition six : list GetCode.InRow :=
  map addr_row ["0xA1"; "0xA2"; "0xA3"; "0xA4"; "0xA5"; "0xA6"]%string.

(** A verified contract, answered after [ms] milliseconds. *)
Definition verified (ms : Z) : GetCode.Reply :=
  {| GetCode.latency := ms;
     GetCode.body :=
       GetCode.Json "OK" (Some [Some "contract C { uint x; }"%string]) |}.

(** An address without verified source: the explorer answers with an empty
    [SourceCode]. *)
Definition unverified (ms : Z) : GetCode.Reply :=
  {| GetCode.latency := ms;
     GetCode.body := GetCode.Json "OK" (Some [Some ""%string]) |}.

Definition throttled (ms : Z) : GetCode.Reply :=
  {| GetCode.latency := ms;
     GetCode.body := GetCode.Json "NOTOK" None |}.

Definition bad_gateway (ms : Z) : GetCode.Reply :=
  {| GetCode.latency := ms; GetCode.body := GetCode.NotOk 502 |}.

Definition unreachable (ms : Z) : GetCode.Reply :=
  {| GetCode.latency := ms; GetCode.body := GetCode.Throws |}.

(** Classify stage: records and models. *)
Definition code_row (a c : string) : Classify.InRow :=
  {| Classify.block_number := "100"; Classify.address := a;
     Classify.is_erc20 := "true"; Classify.is_erc721 := "false";
     Classify.code := c |}.

Definition poem : string := "contract Poem { string verse; }".
Definition token : string := "contract Token { uint supply; }".

(** A model that answers every request after 700 ms with the same text. *)
Definition says (text : string) (n : nat) (snippet : string) : Classify.Reply :=
  {| Classify.resent := []; Classify.latency := 700;
     Classify.body := Classify.Content text |}.

(** A model that finds a poem in everything, and one that answers beyond
    the scale. *)
Definition critic : nat → string → Classify.Reply := says "3 | a poem".
Definition harsh : nat → string → Classify.Reply :=
  says "4 | beyond the scale".

(** A model whose every call fails at once, on a failure the client does
    not send again (a key that is refused). *)
Definition down (n : nat) (snippet : string) : Classify.Reply :=
  {| Classify.resent := []; Classify.latency := 700;
     Classify.body := Classify.ApiError |}.

(** A model that is overloaded: the first request of a call fails, the
    client sends it again after 450 ms and once more after 900 ms, and the
    call raises when the third request fails too. *)
Definition overloaded (n : nat) (snippet : string) : Classify.Reply :=
  {| Classify.resent :=
       [{| Classify.took := 100; Classify.backoff := 450 |};
        {| Classify.took := 100; Classify.backoff := 900 |}];
     Classify.latency := 100;
     Classify.body := Classify.ApiError |}.

(** A model that is busy twice and asks each time to be called again
    after 100 ms, then answers. *)
Definition hurried (n : nat) (snippet : string) : Classify.Reply :=
  {| Classify.resent :=
       [{| Classify.took := 10; Classify.backoff := 100 |};
        {| Classify.took := 10; Classify.backoff := 100 |}];
     Classify.latency := 700;
     Classify.body := Classify.Content "1 | plain" |}.

(** A state of the classify loop in mid-run, with nothing processed. *)
Definition fresh (t : Z) : Classify.State :=
  {| Classify.now := t; Classify.file := None; Classify.append := false;
     Classify.processedAddresses := ∅; Classify.processedCodes := ∅;
     Classify.lastRequestTime := 0; Classify.calls := 0;
     Classify.count := 0 |}.

(** One run of the classify stage over three records, the last with the
    content of the first. *)
Definition a_run : ClassifyRun :=
  {| classify_input :=
       [code_row "0xA" poem; code_row "0xB" "short"; code_row "0xC" poem];
     classify_started := 5000;
     classify_model := critic |}.

(** A run of the classify stage over one record whose address holds a
    comma. *)
Definition comma_run : ClassifyRun :=
  {| classify_input := [code_row "a,b" poem];
     classify_started := 5000;
     classify_model := critic |}.

(** A run of the fetch stage over one address with a verified source. *)
Definition one_fetch : FetchRun :=
  {| fetch_input := [addr_row "0xA1"];
     fetch_started := 0;
     fetch_replies := [verified 70] |}.

End Ex.

(** * Properties *)

(** ** The string primitives on small inputs *)

Section JsExamples.

Example split_pipe : Js.split "|" "2 | playful" = ["2 "; " playful"].
Proof. reflexivity. Qed.

Example split_trailing : Js.split "," "a,,b," = ["a"; ""; "b"; ""].
Proof. reflexivity. Qed.

Example trim_both_ends : Js.trim "  a b  " = "a b".
Proof. reflexivity. Qed.

Example parseInt_reads_the_leading_integer :
  Js.parseInt "2.5" = Some 2 ∧ Js.parseInt "-07x" = Some (-7)
  ∧ Js.parseInt "three" = None ∧ Js.parseInt "" = None.
Proof. by split_and!. Qed.

Example escapeNewlines_crlf :
  Js.escapeNewlines
    (String "a" (String Js.CR (String Js.LF (String "b" (String Js.LF "")))))
  = String "a" (String Js.BACKSLASH (String "n"
      (String "b" (String Js.BACKSLASH (String "n" ""))))).
Proof. reflexivity. Qed.

Example field_with_comma :
  Csv.field "a,b" = String Js.DQUOTE ("a,b" +:+ String Js.DQUOTE "").
Proof. reflexivity. Qed.

(** A reply whose first field starts with an integer is read as that
    integer. *)
Example reply_with_fraction :
  Classify.getArtisticScoreAndReason
    {| Classify.resent := []; Classify.latency := 0;
       Classify.body := Classify.Content "2.5 | x" |}
  = {| Classify.score := Some 2; Classify.reason := "x" |}.
Proof. reflexivity. Qed.

End JsExamples.

(** ** Counting calls in windows of time *)

Section Counting.

Lemma count_times_app p ts1 ts2 :
  count_times p (ts1 ++ ts2) = (count_times p ts1 + count_times p ts2)%nat.
Proof. induction ts1 as [|t ts1 IH]; simpl; [done|]. rewrite IH. lia. Qed.

Lemma count_times_le p q ts :
  Forall (λ t, p t = true → q t = true) ts →
  (count_times p ts ≤ count_times q ts)%nat.
Proof.
  induction 1 as [|t ts Ht _ IH]; simpl; [done|].
  destruct (p t); [|lia]. rewrite Ht by done. lia.
Qed.

Lemma count_times_none p ts :
  Forall (λ t, p t = false) ts → count_times p ts = 0%nat.
Proof. induction 1 as [|t ts Ht _ IH]; simpl; [done|]. by rewrite Ht, IH. Qed.

Lemma after_app x ts1 ts2 :
  after x (ts1 ++ ts2) = (after x ts1 + after x ts2)%nat.
Proof. apply count_times_app. Qed.

Lemma count_between_app lo hi ts1 ts2 :
  count_between lo hi (ts1 ++ ts2)
  = (count_between lo hi ts1 + count_between lo hi ts2)%nat.
Proof. apply count_times_app. Qed.

(** The later the moment, the fewer calls come after it. *)
Lemma after_mono x x' ts : x ≤ x' → (after x' ts ≤ after x ts)%nat.
Proof.
  intros Hx. apply count_times_le, Forall_forall. intros t _ Ht.
  apply Z.ltb_lt in Ht. apply Z.ltb_lt. lia.
Qed.

Lemma after_none x ts : Forall (λ t, t ≤ x) ts → after x ts = 0%nat.
Proof.
  intros Hts. apply count_times_none. eapply Forall_impl; [done|].
  intros t Ht. simpl in Ht. apply Z.ltb_ge. lia.
Qed.

Lemma after_one x t : (after x [t] ≤ 1)%nat.
Proof. unfold after. simpl. destruct (_ <? _); lia. Qed.

Lemma count_between_none lo hi ts :
  Forall (λ t, t < lo ∨ hi ≤ t) ts → count_between lo hi ts = 0%nat.
Proof.
  intros Hts. apply count_times_none. eapply Forall_impl; [done|].
  intros t Ht. simpl in Ht. apply andb_false_iff.
  destruct Ht; [left; apply Z.leb_gt|right; apply Z.ltb_ge]; lia.
Qed.

Lemma count_between_one lo hi t : (count_between lo hi [t] ≤ 1)%nat.
Proof. unfold count_between. simpl. destruct (_ && _); lia. Qed.

(** A window holds only calls that come after the moment before it. *)
Lemma count_between_after lo hi x ts :
  x < lo → (count_between lo hi ts ≤ after x ts)%nat.
Proof.
  intros Hx. apply count_times_le, Forall_forall. intros t _ Ht.
  apply andb_true_iff in Ht as [Ha _]. apply Z.leb_le in Ha.
  apply Z.ltb_lt. lia.
Qed.

Lemma recent_app T ts1 ts2 :
  recent T (ts1 ++ ts2) = (recent T ts1 + recent T ts2)%nat.
Proof. apply after_app. Qed.

Lemma dispatched_in_app a ts1 ts2 :
  dispatched_in a (ts1 ++ ts2)
  = (dispatched_in a ts1 + dispatched_in a ts2)%nat.
Proof. apply count_between_app. Qed.

Lemma recent_mono T T' ts : T ≤ T' → (recent T' ts ≤ recent T ts)%nat.
Proof. intros HT. apply after_mono. lia. Qed.

Lemma recent_none T ts : Forall (λ t, t + 1000 ≤ T) ts → recent T ts = 0%nat.
Proof.
  intros Hts. apply after_none. eapply Forall_impl; [done|]. simpl. lia.
Qed.

Lemma dispatched_in_none a ts :
  Forall (λ t, t < a ∨ a + 1000 ≤ t) ts → dispatched_in a ts = 0%nat.
Proof. apply count_between_none. Qed.

(** A window that reaches the moment [T] holds only calls recent at [T]. *)
Lemma dispatched_in_recent a T ts :
  T < a + 1000 → (dispatched_in a ts ≤ recent T ts)%nat.
Proof. intros HT. apply count_between_after. lia. Qed.

End Counting.


(** ** The fetch stage *)

Section FetchFacts.
Import GetCode.

Lemma fetch_on_transient addr r script t :
  fetch_transient r = true →
  fetchContractSource addr (r :: script) t =
    f ← fetchContractSource addr script (t + latency r + fetch_backoff r);
    Some {| sourceCode := sourceCode f; rest := rest f;
            returned_at := returned_at f;
            did := Request t addr :: Sleep (t + latency r) (fetch_backoff r)
                     :: did f |}.
Proof.
  unfold fetch_transient, fetch_backoff. simpl.
  destruct (body r) as [| status | message result]; try done.
  intros ->. done.
Qed.

Lemma fetch_on_verdict addr r script t :
  fetch_transient r = false →
  fetchContractSource addr (r :: script) t =
    Some {| sourceCode := fetch_verdict r; rest := script;
            returned_at := t + latency r; did := [Request t addr] |}.
Proof.
  unfold fetch_transient, fetch_verdict. simpl.
  destruct (body r) as [| status | message result]; try done.
  intros ->. destruct result as [[|[src|] items]|]; simpl; try done.
  by destruct (Js.truthy (Js.trim src) && negb (Js.trim src =? "0x")%string).
Qed.

(** The adapter writes nothing and announces nothing itself. *)
Lemma fetch_did_written addr script t f :
  fetchContractSource addr script t = Some f → written (did f) = [].
Proof.
  revert t f. induction script as [|r script IH]; intros t f; [done|].
  destruct (fetch_transient r) eqn:Hr.
  - rewrite fetch_on_transient by done.
    destruct (fetchContractSource addr script _) as [g|] eqn:Hg; [|done].
    simpl. intros [= <-]. simpl. eauto.
  - rewrite fetch_on_verdict by done. by intros [= <-].
Qed.

Lemma fetch_did_fetch_times addr script t f :
  fetchContractSource addr script t = Some f → fetch_times (did f) = [].
Proof.
  revert t f. induction script as [|r script IH]; intros t f; [done|].
  destruct (fetch_transient r) eqn:Hr.
  - rewrite fetch_on_transient by done.
    destruct (fetchContractSource addr script _) as [g|] eqn:Hg; [|done].
    simpl. intros [= <-]. simpl. eauto.
  - rewrite fetch_on_verdict by done. by intros [= <-].
Qed.

(** The adapter returns no earlier than it was called, when no latency
    is negative. *)
Lemma fetch_returned_at addr script t f :
  Forall (λ r, 0 ≤ latency r) script →
  fetchContractSource addr script t = Some f → t ≤ returned_at f.
Proof.
  intros Hlat. revert t f.
  induction Hlat as [|r script Hr Hlat IH]; intros t f; [done|].
  destruct (fetch_transient r) eqn:Htr.
  - rewrite fetch_on_transient by done.
    destruct (fetchContractSource addr script _) as [g|] eqn:Hg; [|done].
    simpl. intros [= <-]. simpl. apply IH in Hg.
    unfold fetch_backoff in Hg. destruct (body r); lia.
  - rewrite fetch_on_verdict by done. intros [= <-]. simpl. lia.
Qed.

Lemma fetch_rest_latency addr script t f :
  Forall (λ r, 0 ≤ latency r) script →
  fetchContractSource addr script t = Some f →
  Forall (λ r, 0 ≤ latency r) (rest f).
Proof.
  intros Hlat. revert t f.
  induction Hlat as [|r script Hr Hlat IH]; intros t f; [done|].
  destruct (fetch_transient r) eqn:Htr.
  - rewrite fetch_on_transient by done.
    destruct (fetchContractSource addr script _) as [g|] eqn:Hg; [|done].
    simpl. intros [= <-]. simpl. eauto.
  - rewrite fetch_on_verdict by done. by intros [= <-].
Qed.

Lemma throttle_waited rate st :
  written (throttle rate st).2 = []
  ∧ fetch_times (throttle rate st).2 = []
  ∧ request_times (throttle rate st).2 = [].
Proof.
  unfold throttle.
  destruct (rate <? _); [destruct (_ <? 1000)|]; done.
Qed.

(** The first request of the adapter leaves at the time of the call. *)
Lemma fetch_did_first_request addr script t f :
  fetchContractSource addr script t = Some f →
  ∃ more, request_times (did f) = t :: more.
Proof.
  destruct script as [|r script]; [done|].
  destruct (fetch_transient r) eqn:Hr.
  - rewrite fetch_on_transient by done.
    destruct (fetchContractSource addr script _) as [g|] eqn:Hg; [|done].
    simpl. intros [= <-]. simpl. eauto.
  - rewrite fetch_on_verdict by done. intros [= <-]. simpl. eauto.
Qed.

(** [step], case by case. *)
Lemma step_skip rate st row :
  address row ∈ processedAddresses st →
  step rate st row = Some (st, [LogSkip (address row)]).
Proof. intros H. unfold step. by rewrite bool_decide_eq_true_2. Qed.

Lemma step_fetch rate st row :
  address row ∉ processedAddresses st →
  step rate st row =
    let '(now1, startTime1, callCount2, waited) := throttle rate st in
    f ← fetchContractSource (address row) (script st) now1;
    Some
      match sourceCode f with
      | Some src =>
          let out := {| out_block_number := block_number row;
                        out_address := address row;
                        out_is_erc20 := is_erc20 row;
                        out_is_erc721 := is_erc721 row;
                        out_code := Js.escapeNewlines src |} in
          ({| now := returned_at f;
              file := file st ++ [out];
              processedAddresses := {[address row]} ∪ processedAddresses st;
              callCount := callCount2;
              startTime := startTime1;
              script := rest f |},
           waited ++ LogFetch now1 (address row) :: did f
             ++ [Write out; LogOk (address row)])
      | None =>
          ({| now := returned_at f;
              file := file st;
              processedAddresses := processedAddresses st;
              callCount := callCount2;
              startTime := startTime1;
              script := rest f |},
           waited ++ LogFetch now1 (address row) :: did f
             ++ [LogNoContract (address row)])
      end.
Proof.
  intros H. unfold step, throttle. rewrite bool_decide_eq_false_2 by done.
  simpl.
  destruct (rate <? _); [destruct (_ <? 1000)|];
    (destruct (fetchContractSource _ _ _) as [f|]; [|done]);
    simpl; by destruct (sourceCode f).
Qed.

End FetchFacts.

Section FetchLoop.
Import GetCode.

Lemma written_app (evs1 evs2 : list Event) :
  written (evs1 ++ evs2) = written evs1 ++ written evs2.
Proof. apply omap_app. Qed.

Lemma fetch_times_app (evs1 evs2 : list Event) :
  fetch_times (evs1 ++ evs2) = fetch_times evs1 ++ fetch_times evs2.
Proof. apply omap_app. Qed.

(** What one iteration does to the output file and to the set of processed
    addresses: nothing, or one row for the address of the record, which was
    not in the set and now is. *)
Lemma step_written_cases rate st row st' evs :
  step rate st row = Some (st', evs) →
  (written evs = [] ∧ file st' = file st
   ∧ processedAddresses st' = processedAddresses st)
  ∨ (∃ out, written evs = [out] ∧ out_address out = address row
       ∧ (address row ∉ processedAddresses st)
       ∧ file st' = file st ++ [out]
       ∧ processedAddresses st' = {[address row]} ∪ processedAddresses st).
Proof.
  destruct (decide (address row ∈ processedAddresses st)) as [Hin|Hin].
  { rewrite step_skip by done. intros [= <- <-]. by left. }
  rewrite step_fetch by done.
  pose proof (throttle_waited rate st) as (Hw & _ & _).
  destruct (throttle rate st) as [[[now1 startTime1] callCount2] waited].
  simpl in Hw.
  destruct (fetchContractSource _ _ _) as [f|] eqn:Hf; [|done].
  pose proof (fetch_did_written _ _ _ _ Hf) as Hd.
  simpl. destruct (sourceCode f) as [src|]; intros [= <- <-]; simpl.
  - right. eexists. rewrite !written_app, Hw. simpl.
    rewrite written_app, Hd. simpl. done.
  - left. rewrite !written_app, Hw. simpl. rewrite written_app, Hd. done.
Qed.

Lemma loop_app rate st records1 records2 :
  loop rate st (records1 ++ records2) =
    '(st1, evs1) ← loop rate st records1;
    '(st2, evs2) ← loop rate st1 records2;
    Some (st2, evs1 ++ evs2).
Proof.
  revert st. induction records1 as [|row records1 IH]; intros st; simpl.
  - by destruct (loop rate st records2) as [[??]|].
  - destruct (step rate st row) as [[st1 evs1]|]; [|done]. simpl.
    rewrite IH. destruct (loop rate st1 records1) as [[st2 evs2]|]; [|done].
    simpl. destruct (loop rate st2 records2) as [[st3 evs3]|]; [|done].
    simpl. by rewrite app_assoc.
Qed.

(** The invariant of the loop: the file grows by the rows written, each row
    written is for an address that was not processed before, no two of them
    are for the same address, and the set of processed addresses only
    grows. *)
Lemma loop_written rate st records st' evs :
  loop rate st records = Some (st', evs) →
  file st' = file st ++ written evs
  ∧ processedAddresses st ⊆ processedAddresses st'
  ∧ (∀ out, out ∈ written evs →
       (out_address out ∉ processedAddresses st)
       ∧ (out_address out ∈ processedAddresses st')
       ∧ ∃ row, row ∈ records ∧ address row = out_address out)
  ∧ NoDup (map out_address (written evs)).
Proof.
  revert st st' evs.
  induction records as [|row records IH]; intros st st' evs; simpl.
  { intros [= <- <-]. simpl. rewrite app_nil_r.
    split_and!; [done|done| |constructor]. intros out Hout. inversion Hout. }
  destruct (step rate st row) as [[st1 evs1]|] eqn:Hstep; [|done]. simpl.
  destruct (loop rate st1 records) as [[st2 evs2]|] eqn:Hloop; [|done].
  simpl. intros [= <- <-].
  destruct (IH _ _ _ Hloop) as (Hfile & Hsub & Hrows & Hnodup).
  rewrite written_app.
  destruct (step_written_cases _ _ _ _ _ Hstep)
    as [(Hw & Hf & Hp)|(out & Hw & Hout & Hnew & Hf & Hp)]; rewrite Hw.
  - simpl. rewrite Hfile, Hf. rewrite Hp in *. split_and!; [done|done| |done].
    intros out Hout. destruct (Hrows out Hout) as (? & ? & row' & ? & ?).
    split_and!; [done|done|]. exists row'. split; [by right|done].
  - simpl. rewrite Hfile, Hf, <- app_assoc. simpl.
    assert (address row ∈ processedAddresses st1) as Hrow.
    { rewrite Hp. apply elem_of_union_l. by apply elem_of_singleton. }
    assert (processedAddresses st ⊆ processedAddresses st1) as Hsub1.
    { rewrite Hp. apply union_subseteq_r. }
    split_and!; [done|by etrans| |].
    + intros out' [->|Hout']%elem_of_cons.
      * rewrite Hout. split_and!; [done|by apply Hsub|].
        exists row. split; [by left|done].
      * destruct (Hrows out' Hout') as (Hnot & ? & row' & ? & ?).
        split_and!; [by intros ?%Hsub1|done|].
        exists row'. split; [by right|done].
    + constructor; [|done]. rewrite Hout. intros Hin.
      apply list_elem_of_fmap in Hin as (out' & Heq & Hout').
      destruct (Hrows out' Hout') as (Hnot & _). by rewrite <- Heq in Hnot.
Qed.

End FetchLoop.

Section FetchRetry.
Import GetCode.

Lemma request_times_did_app (evs1 evs2 : list Event) :
  request_times (evs1 ++ evs2) = request_times evs1 ++ request_times evs2.
Proof. apply omap_app. Qed.

(** However many transient replies come first, the adapter asks again after
    each and returns what the first other reply says. *)
Lemma fetch_retries addr ts d script t :
  Forall (λ r, fetch_transient r = true) ts →
  fetch_transient d = false →
  ∃ f, fetchContractSource addr (ts ++ d :: script) t = Some f
       ∧ sourceCode f = fetch_verdict d
       ∧ rest f = script
       ∧ returned_at f = t + retry_time ts + latency d
       ∧ length (request_times (did f)) = S (length ts).
Proof.
  intros Hts Hd. revert t.
  induction Hts as [|r ts Hr Hts IH]; intros t; cbn [app].
  - rewrite fetch_on_verdict by done. eexists. split; [done|]. simpl.
    split_and!; try done. lia.
  - rewrite fetch_on_transient by done.
    destruct (IH (t + latency r + fetch_backoff r))
      as (f & -> & Hsrc & Hrest & Hret & Hlen).
    simpl. eexists. split; [done|]. simpl. split_and!; try done; lia.
Qed.

(** As long as the replies are transient the adapter does not return. *)
Lemma fetch_never_gives_up addr ts t :
  Forall (λ r, fetch_transient r = true) ts →
  fetchContractSource addr ts t = None.
Proof.
  intros Hts. revert t. induction Hts as [|r ts Hr Hts IH]; intros t; [done|].
  rewrite fetch_on_transient by done. by rewrite IH.
Qed.

(** One iteration on a record that is not processed yet, in terms of what
    the adapter returns. *)
Lemma step_fetch_outcome rate st row f :
  address row ∉ processedAddresses st →
  fetchContractSource (address row) (script st) (throttle rate st).1.1.1
    = Some f →
  ∃ st' evs,
    step rate st row = Some (st', evs)
    ∧ fetch_times evs = [(throttle rate st).1.1.1]
    ∧ request_times evs = request_times (did f)
    ∧ script st' = rest f
    ∧ now st' = returned_at f
    ∧ startTime st' = (throttle rate st).1.1.2
    ∧ callCount st' = (throttle rate st).1.2
    ∧ match sourceCode f with
      | Some src =>
          written evs = [fetched_row row src]
          ∧ file st' = file st ++ [fetched_row row src]
          ∧ processedAddresses st' = {[address row]} ∪ processedAddresses st
      | None =>
          written evs = []
          ∧ file st' = file st
          ∧ processedAddresses st' = processedAddresses st
          ∧ last evs = Some (LogNoContract (address row))
      end.
Proof.
  intros Hnew Hf. rewrite step_fetch by done.
  pose proof (throttle_waited rate st) as (Hw & Ht & Hq).
  destruct (throttle rate st) as [[[now1 startTime1] callCount2] waited].
  simpl in *. rewrite Hf. simpl.
  pose proof (fetch_did_written _ _ _ _ Hf) as Hd.
  pose proof (fetch_did_fetch_times _ _ _ _ Hf) as Hd'.
  destruct (sourceCode f) as [src|]; do 2 eexists; (split; [done|]); simpl;
    rewrite fetch_times_app, Ht; simpl; rewrite fetch_times_app, Hd'; simpl;
    rewrite written_app, Hw; simpl; rewrite written_app, Hd; simpl;
    rewrite request_times_did_app, Hq; simpl;
    rewrite request_times_did_app; simpl; rewrite app_nil_r;
    split_and!; try done.
  by rewrite app_comm_cons, app_assoc, last_snoc.
Qed.

(** With a rate of zero or less every call takes the branch that waits for
    the window to end. *)
Lemma throttle_nonpositive rate st :
  rate ≤ 0 → 0 ≤ callCount st →
  (throttle rate st).1 =
    (Z.max (now st) (startTime st + 1000),
     Z.max (now st) (startTime st + 1000), 1).
Proof.
  intros Hrate Hcount. unfold throttle.
  rewrite (proj2 (Z.ltb_lt _ _)) by lia.
  destruct (_ <? 1000) eqn:He; simpl.
  - apply Z.ltb_lt in He. do 2 f_equal; lia.
  - apply Z.ltb_ge in He. do 2 f_equal; lia.
Qed.

End FetchRetry.

Section FetchRate.
Import GetCode.

(** The requests of one call of the adapter: they lie between the call and
    its return, at most one of them is recent once the adapter has returned,
    and no second holds two of them (a wait of three seconds or more lies
    between any two). *)
Lemma fetch_requests addr script t f :
  Forall (λ r, 0 ≤ latency r) script →
  fetchContractSource addr script t = Some f →
  Forall (λ r, t ≤ r ≤ returned_at f) (request_times (did f))
  ∧ (∀ T, returned_at f ≤ T → (recent T (request_times (did f)) ≤ 1)%nat)
  ∧ (∀ a, (dispatched_in a (request_times (did f)) ≤ 1)%nat).
Proof.
  intros Hlat. revert t f.
  induction Hlat as [|r script Hr Hlat IH]; intros t f; [done|].
  destruct (fetch_transient r) eqn:Htr.
  - rewrite fetch_on_transient by done.
    destruct (fetchContractSource addr script _) as [g|] eqn:Hg; [|done].
    simpl. intros [= <-]. simpl.
    pose proof (fetch_returned_at _ _ _ _ Hlat Hg) as Hret.
    destruct (IH _ _ Hg) as (Hbetween & Hrecent & Hone).
    assert (3000 ≤ fetch_backoff r) as Hback.
    { unfold fetch_backoff. destruct (body r); lia. }
    split_and!.
    + constructor; [lia|]. eapply Forall_impl; [done|]. simpl. lia.
    + intros T HT. unfold recent, after. simpl.
      rewrite (proj2 (Z.ltb_ge _ _)) by lia. by apply Hrecent.
    + intros a. unfold dispatched_in, count_between. simpl.
      destruct ((a <=? t) && (t <? a + 1000)) eqn:Hin; [|apply Hone].
      apply andb_true_iff in Hin as [Ha Hb].
      apply Z.leb_le in Ha. apply Z.ltb_lt in Hb.
      rewrite (count_times_none _ (request_times (did g))); [done|].
      eapply Forall_impl; [done|]. intros t' Ht'. simpl in Ht'.
      apply andb_false_iff. right. apply Z.ltb_ge. lia.
  - rewrite fetch_on_verdict by done. intros [= <-]. simpl. split_and!.
    + constructor; [lia|done].
    + intros T _. unfold recent, after. simpl. destruct (_ <? _); lia.
    + intros a. unfold dispatched_in, count_between. simpl.
      destruct (_ && _); lia.
Qed.

(** The two ways of the limiter when the counter is within the rate: the
    call is counted in the open window, or the window is full, the one
    second since its start is waited out and a new window opens with the
    call. *)
Lemma throttle_cases rate st :
  0 ≤ callCount st ≤ rate →
  now st ≤ (throttle rate st).1.1.1
  ∧ ((callCount st < rate
      ∧ (throttle rate st).1 = (now st, startTime st, callCount st + 1))
     ∨ (callCount st = rate
        ∧ startTime st + 1000 ≤ (throttle rate st).1.1.1
        ∧ (throttle rate st).1
          = ((throttle rate st).1.1.1, (throttle rate st).1.1.1, 1))).
Proof.
  intros Hc. unfold throttle.
  destruct (rate <? callCount st + 1) eqn:Hfull.
  - apply Z.ltb_lt in Hfull.
    destruct (_ <? 1000) eqn:He; simpl.
    + apply Z.ltb_lt in He. split; [lia|]. right. split_and!; [lia|lia|done].
    + apply Z.ltb_ge in He. split; [lia|]. right. split_and!; [lia|lia|done].
  - apply Z.ltb_ge in Hfull. simpl. split; [lia|]. left. split; [lia|done].
Qed.

Lemma step_fetched rate st row st' evs :
  address row ∉ processedAddresses st →
  step rate st row = Some (st', evs) →
  ∃ f,
    fetchContractSource (address row) (script st) (throttle rate st).1.1.1
      = Some f
    ∧ request_times evs = request_times (did f)
    ∧ script st' = rest f
    ∧ now st' = returned_at f
    ∧ startTime st' = (throttle rate st).1.1.2
    ∧ callCount st' = (throttle rate st).1.2.
Proof.
  intros Hnew Hstep.
  destruct (fetchContractSource (address row) (script st)
              (throttle rate st).1.1.1) as [f|] eqn:Hf.
  - destruct (step_fetch_outcome rate st row f Hnew Hf)
      as (st'' & evs'' & Hstep' & _ & ? & ? & ? & ? & ? & _).
    rewrite Hstep in Hstep'. injection Hstep' as <- <-. by exists f.
  - rewrite step_fetch in Hstep by done.
    destruct (throttle rate st) as [[[now1 startTime1] callCount2] waited].
    simpl in Hf. by rewrite Hf in Hstep.
Qed.

(** One iteration keeps the invariant. *)
Lemma step_rate_inv rate st row st' evs ts :
  1 ≤ rate →
  rate_inv rate st ts →
  step rate st row = Some (st', evs) →
  rate_inv rate st' (ts ++ request_times evs).
Proof.
  intros Hrate (Hc & Hlat & Hpast & HA & HB & HW) Hstep.
  destruct (decide (address row ∈ processedAddresses st)) as [Hin|Hnew].
  { rewrite step_skip in Hstep by done. injection Hstep as <- <-.
    simpl. rewrite app_nil_r. done. }
  destruct (step_fetched _ _ _ _ _ Hnew Hstep)
    as (f & Hf & Hreq & Hscript & Hnow & Hstart & Hcount).
  destruct (fetch_requests _ _ _ _ Hlat Hf) as (Hbetween & Hrecent & Hone).
  pose proof (fetch_rest_latency _ _ _ _ Hlat Hf) as Hlat'.
  pose proof (fetch_returned_at _ _ _ _ Hlat Hf) as Hret.
  destruct (throttle_cases rate st Hc) as [Ht1 Hcases].
  set (t1 := (throttle rate st).1.1.1) in *.
  assert (Z.of_nat (recent t1 ts) ≤ 2 * rate - 1) as Hfew.
  { destruct Hcases as [[Hlt Heq]|(Heq & Hs & _)].
    - specialize (HA t1 Ht1). lia.
    - specialize (HB t1 Ht1 Hs). lia. }
  unfold rate_inv. rewrite Hreq, Hscript, Hnow, Hstart, Hcount.
  split_and!.
  - destruct Hcases as [[Hlt ->]|(Heq & Hs & ->)]; simpl; lia.
  - destruct Hcases as [[Hlt ->]|(Heq & Hs & ->)]; simpl; lia.
  - done.
  - apply Forall_app. split.
    + eapply Forall_impl; [done|]. simpl. lia.
    + eapply Forall_impl; [done|]. simpl. lia.
  - intros T HT. rewrite recent_app. specialize (Hrecent T HT).
    destruct Hcases as [[Hlt ->]|(Heq & Hs & ->)]; simpl.
    + specialize (HA T). lia.
    + specialize (HB T). lia.
  - intros T HT HT'. rewrite recent_app. specialize (Hrecent T HT).
    destruct Hcases as [[Hlt Heq]|(Heq & Hs & Heq')].
    + rewrite Heq in HT' |- *. simpl in *. specialize (HB T). lia.
    + rewrite Heq' in HT' |- *. simpl in *.
      rewrite (recent_none T ts); [lia|].
      eapply Forall_impl; [done|]. simpl. lia.
  - intros a. rewrite dispatched_in_app.
    destruct (decide (t1 < a + 1000)) as [Hlt|Hge].
    + pose proof (dispatched_in_recent a t1 ts Hlt). specialize (Hone a). lia.
    + rewrite (dispatched_in_none a (request_times (did f)));
        [specialize (HW a); lia|].
      eapply Forall_impl; [done|]. simpl. lia.
Qed.

Lemma loop_rate_inv rate st records st' evs ts :
  1 ≤ rate →
  rate_inv rate st ts →
  loop rate st records = Some (st', evs) →
  rate_inv rate st' (ts ++ request_times evs).
Proof.
  intros Hrate. revert st st' evs ts.
  induction records as [|row records IH]; intros st st' evs ts Hinv; simpl.
  { intros [= <- <-]. simpl. by rewrite app_nil_r. }
  destruct (step rate st row) as [[st1 evs1]|] eqn:Hstep; [|done]. simpl.
  destruct (loop rate st1 records) as [[st2 evs2]|] eqn:Hloop; [|done].
  simpl. intros [= <- <-].
  rewrite request_times_did_app, app_assoc.
  eapply IH; [|done]. by eapply step_rate_inv.
Qed.

(** The rate bound of the fetch stage: no second of a run holds more than
    twice the rate in requests. *)
Lemma main_rate_bound rate f records t0 replies st evs :
  1 ≤ rate →
  Forall (λ r, 0 ≤ latency r) replies →
  main rate f records t0 replies = Some (st, evs) →
  ∀ a, Z.of_nat (dispatched_in a (request_times evs)) ≤ 2 * rate.
Proof.
  intros Hrate Hlat Hmain.
  eapply (loop_rate_inv rate _ records st evs []) in Hmain; [|done|].
  - by destruct Hmain as (_ & _ & _ & _ & _ & HW).
  - unfold rate_inv, recent, after, dispatched_in, count_between. simpl.
    split_and!; try done; try lia; intros; lia.
Qed.

End FetchRate.

(** ** The classify stage *)

Section ClassifyFacts.
Import Classify.

Lemma escapeNewlines_lacks s :
  lacks Js.LF s = true → Js.escapeNewlines s = s.
Proof.
  induction s as [|c s IH]; [done|]. simpl.
  destruct (Ascii.eqb c Js.LF) eqn:Hc; [done|]. simpl. intros Hs.
  rewrite IH by done.
  destruct (Ascii.eqb c Js.CR); [|done].
  destruct s as [|c' s]; [done|]. simpl in Hs.
  by destruct (Ascii.eqb c' Js.LF).
Qed.

Lemma escapeNewlines_nonempty s :
  s ≠ EmptyString → Js.escapeNewlines s ≠ EmptyString.
Proof.
  destruct s as [|c s]; [done|]. intros _. simpl.
  destruct (Ascii.eqb c Js.LF); [done|].
  destruct (Ascii.eqb c Js.CR); [|done].
  destruct s as [|c' s]; [done|]. by destruct (Ascii.eqb c' Js.LF).
Qed.

Lemma cwritten_app (evs1 evs2 : list Event) :
  written (evs1 ++ evs2) = written evs1 ++ written evs2.
Proof. apply omap_app. Qed.

Lemma request_times_app (evs1 evs2 : list Event) :
  request_times (evs1 ++ evs2) = request_times evs1 ++ request_times evs2.
Proof. apply omap_app. Qed.

Lemma resend_quiet t failed :
  written (resend t failed).1 = []
  ∧ request_times (resend t failed).1 = [].
Proof.
  revert t. induction failed as [|f failed IH]; intros t; [done|].
  simpl. apply IH.
Qed.

Lemma limiter_waited rate st :
  written (limiter rate st).2 = [] ∧ request_times (limiter rate st).2 = [].
Proof. unfold limiter. by destruct (Js.int_lt _ _). Qed.

(** The trace of an enrichment: one row, one call of the adapter. *)
Lemma enrich_trace rate st row r out :
  written ((limiter rate st).2 ++
             LogProcessing (address row)
               :: Request (limiter rate st).1 (code row)
               :: (resend (limiter rate st).1 (resent r)).1 ++ [Write out])
  = [out]
  ∧ request_times ((limiter rate st).2 ++
                     LogProcessing (address row)
                       :: Request (limiter rate st).1 (code row)
                       :: (resend (limiter rate st).1 (resent r)).1
                       ++ [Write out])
    = [(limiter rate st).1].
Proof.
  destruct (limiter_waited rate st) as [Hw Hr].
  destruct (resend_quiet (limiter rate st).1 (resent r)) as [Hw' Hr'].
  rewrite cwritten_app, request_times_app, Hw, Hr. simpl.
  change (written ((resend (limiter rate st).1 (resent r)).1 ++ [Write out])
          = [out]
          ∧ (limiter rate st).1
              :: request_times
                   ((resend (limiter rate st).1 (resent r)).1 ++ [Write out])
            = [(limiter rate st).1]).
  by rewrite cwritten_app, request_times_app, Hw', Hr'.
Qed.

(** [step], case by case: the four branches of the loop body. *)
Lemma cstep_skip rate llm st row :
  address row ∈ processedAddresses st →
  step rate llm st row = (st, [LogSkipAddr (address row)]).
Proof. intros H. unfold step. by rewrite bool_decide_eq_true_2. Qed.

Lemma cstep_short rate llm st row :
  address row ∉ processedAddresses st →
  (String.length (code row) ≤ MIN_CODE_LENGTH)%nat →
  step rate llm st row =
    (wrote st (placeholder row "TOO_SHORT"),
     [LogSkipShort (address row) (String.length (code row));
      Write (placeholder row "TOO_SHORT")]).
Proof.
  intros H Hlen. unfold step. rewrite bool_decide_eq_false_2 by done. simpl.
  by rewrite (proj2 (Nat.leb_le _ _) Hlen).
Qed.

Lemma cstep_duplicate rate llm st row original :
  address row ∉ processedAddresses st →
  (MIN_CODE_LENGTH < String.length (code row))%nat →
  originalOf (processedCodes st) (code row) = Some original →
  step rate llm st row =
    (wrote st (placeholder row original),
     [LogSkipCode (address row) original; Write (placeholder row original)]).
Proof.
  intros H Hlen Ho. unfold step. rewrite bool_decide_eq_false_2 by done. simpl.
  rewrite (proj2 (Nat.leb_gt _ _) Hlen). by rewrite Ho.
Qed.

Lemma cstep_enrich rate llm st row :
  address row ∉ processedAddresses st →
  (MIN_CODE_LENGTH < String.length (code row))%nat →
  originalOf (processedCodes st) (code row) = None →
  step rate llm st row =
    (enrich rate st row (llm (calls st) (code row)),
     (limiter rate st).2 ++
       LogProcessing (address row) :: Request (limiter rate st).1 (code row)
         :: (resend (limiter rate st).1 (resent (llm (calls st) (code row)))).1
         ++ [Write (enriched row
                      (getArtisticScoreAndReason
                         (llm (calls st) (code row))))]).
Proof.
  intros H Hlen Ho. unfold step. rewrite bool_decide_eq_false_2 by done. simpl.
  rewrite (proj2 (Nat.leb_gt _ _) Hlen). rewrite Ho.
  unfold enrich, limiter. by destruct (Js.int_lt _ _).
Qed.

Lemma cstep_branch rate llm st row :
  step rate llm st row =
    match branch st row with
    | Skipped => (st, [LogSkipAddr (address row)])
    | TooShort =>
        (wrote st (placeholder row "TOO_SHORT"),
         [LogSkipShort (address row) (String.length (code row));
          Write (placeholder row "TOO_SHORT")])
    | Duplicate original =>
        (wrote st (placeholder row original),
         [LogSkipCode (address row) original;
          Write (placeholder row original)])
    | Enriched =>
        (enrich rate st row (llm (calls st) (code row)),
         (limiter rate st).2 ++
           LogProcessing (address row)
             :: Request (limiter rate st).1 (code row)
             :: (resend (limiter rate st).1
                   (resent (llm (calls st) (code row)))).1
             ++ [Write (enriched row
                          (getArtisticScoreAndReason
                             (llm (calls st) (code row))))])
    end.
Proof.
  unfold branch. case_bool_decide as Hin; [by apply cstep_skip|].
  destruct (_ <=? _)%nat eqn:Hlen.
  { apply cstep_short; [done|by apply Nat.leb_le]. }
  apply Nat.leb_gt in Hlen.
  destruct (originalOf _ _) as [original|] eqn:Ho.
  - by apply cstep_duplicate.
  - by apply cstep_enrich.
Qed.

Lemma branch_skipped st row :
  branch st row = Skipped ↔ address row ∈ processedAddresses st.
Proof.
  unfold branch. case_bool_decide; [done|].
  destruct (_ <=? _)%nat; [|destruct (originalOf _ _)]; naive_solver.
Qed.

Lemma cloop_app rate llm st records1 records2 :
  loop rate llm st (records1 ++ records2) =
    let '(st1, evs1) := loop rate llm st records1 in
    let '(st2, evs2) := loop rate llm st1 records2 in
    (st2, evs1 ++ evs2).
Proof.
  revert st. induction records1 as [|row records1 IH]; intros st; simpl.
  - by destruct (loop rate llm st records2).
  - destruct (step rate llm st row) as [st1 evs1]. rewrite IH.
    destruct (loop rate llm st1 records1) as [st2 evs2].
    destruct (loop rate llm st2 records2) as [st3 evs3]. by rewrite app_assoc.
Qed.

Lemma cloop_snoc rate llm st records row :
  loop rate llm st (records ++ [row]) =
    let '(st1, evs1) := loop rate llm st records in
    ((step rate llm st1 row).1, evs1 ++ (step rate llm st1 row).2).
Proof.
  rewrite cloop_app. destruct (loop rate llm st records) as [st1 evs1]. simpl.
  destruct (step rate llm st1 row) as [st2 evs2]. simpl. by rewrite app_nil_r.
Qed.

(** Induction over the loop: a property of the records done, the state and
    the trace that holds at the start and that each iteration keeps, holds at
    the end. *)
Lemma cloop_invariant rate llm
    (I : list InRow → State → list Event → Prop) st0 :
  I [] st0 [] →
  (∀ done st evs row,
     I done st evs →
     I (done ++ [row]) (step rate llm st row).1
       (evs ++ (step rate llm st row).2)) →
  ∀ records,
    I records (loop rate llm st0 records).1 (loop rate llm st0 records).2.
Proof.
  intros Hinit Hstep records.
  induction records as [|row records IH] using rev_ind; [done|].
  rewrite cloop_snoc. destruct (loop rate llm st0 records) as [st1 evs1].
  by apply Hstep.
Qed.

End ClassifyFacts.

Section ClassifyLoop.
Import Classify.

Lemma branch_too_short st row :
  branch st row = TooShort →
  (address row ∉ processedAddresses st)
  ∧ (String.length (code row) ≤ MIN_CODE_LENGTH)%nat.
Proof.
  unfold branch. case_bool_decide; [done|].
  destruct (_ <=? _)%nat eqn:Hlen; [|by destruct (originalOf _ _)].
  by apply Nat.leb_le in Hlen.
Qed.

Lemma branch_duplicate st row original :
  branch st row = Duplicate original →
  (address row ∉ processedAddresses st)
  ∧ (MIN_CODE_LENGTH < String.length (code row))%nat
  ∧ originalOf (processedCodes st) (code row) = Some original.
Proof.
  unfold branch. case_bool_decide; [done|].
  destruct (_ <=? _)%nat eqn:Hlen; [done|]. apply Nat.leb_gt in Hlen.
  destruct (originalOf _ _) as [o|]; [|done]. by intros [= ->].
Qed.

Lemma branch_enriched st row :
  branch st row = Enriched ↔
  (address row ∉ processedAddresses st)
  ∧ (MIN_CODE_LENGTH < String.length (code row))%nat
  ∧ originalOf (processedCodes st) (code row) = None.
Proof.
  unfold branch. case_bool_decide.
  { split; [done|]. by intros [? _]. }
  destruct (_ <=? _)%nat eqn:Hlen.
  { apply Nat.leb_le in Hlen. split; [done|]. lia. }
  apply Nat.leb_gt in Hlen.
  destruct (originalOf _ _); [|done]. split; [done|]. by intros (_ & _ & ?).
Qed.

Lemma originalOf_Some codes c a :
  originalOf codes c = Some a ↔ codes !! c = Some a ∧ a ≠ ""%string.
Proof.
  unfold originalOf. destruct (codes !! c) as [b|].
  - destruct b as [|ch b]; simpl.
    + split; [done|]. by intros [[= <-] ?].
    + split; [by intros [= <-]|]. by intros [[= <-] _].
  - split; [done|]. by intros [? _].
Qed.

(** What one iteration does to the two in-memory indexes and to the rows:
    either nothing is written and nothing changes, or a placeholder is
    written and nothing is remembered, or the record is enriched and both
    its address and its content are remembered. *)
Lemma cstep_summary rate llm st row :
  let st' := (step rate llm st row).1 in
  let evs := (step rate llm st row).2 in
  match branch st row with
  | Skipped =>
      st' = st ∧ written evs = []
  | TooShort =>
      written evs = [placeholder row "TOO_SHORT"]
      ∧ processedAddresses st' = processedAddresses st
      ∧ processedCodes st' = processedCodes st
  | Duplicate original =>
      written evs = [placeholder row original]
      ∧ processedAddresses st' = processedAddresses st
      ∧ processedCodes st' = processedCodes st
  | Enriched =>
      written evs =
        [enriched row (getArtisticScoreAndReason (llm (calls st) (code row)))]
      ∧ processedAddresses st' = {[address row]} ∪ processedAddresses st
      ∧ processedCodes st' = <[code row := address row]> (processedCodes st)
  end.
Proof.
  simpl. rewrite cstep_branch.
  destruct (branch st row); simpl; try done.
  by rewrite (proj1 (enrich_trace rate st row _ _)).
Qed.

(** A content that has an original keeps it. *)
Lemma originalOf_step rate llm st row c a :
  originalOf (processedCodes st) c = Some a →
  originalOf (processedCodes (step rate llm st row).1) c = Some a.
Proof.
  intros Ha. pose proof (cstep_summary rate llm st row) as Hs. simpl in Hs.
  destruct (branch st row) eqn:Hb.
  - by destruct Hs as [-> _].
  - by destruct Hs as (_ & _ & ->).
  - by destruct Hs as (_ & _ & ->).
  - destruct Hs as (_ & _ & ->).
    apply branch_enriched in Hb as (_ & _ & Hnone).
    apply originalOf_Some in Ha as [Ha Hne]. apply originalOf_Some.
    split; [|done]. rewrite lookup_insert_ne; [done|].
    intros Heq. rewrite Heq in Hnone.
    unfold originalOf in Hnone. rewrite Ha in Hnone. by destruct a.
Qed.

Lemma originalOf_loop rate llm st records c a :
  originalOf (processedCodes st) c = Some a →
  originalOf (processedCodes (loop rate llm st records).1) c = Some a.
Proof.
  revert st. induction records as [|row records IH]; intros st Ha; [done|].
  simpl. pose proof (originalOf_step rate llm st row c a Ha) as Ha'.
  destruct (step rate llm st row) as [st1 evs1]. simpl in Ha'.
  specialize (IH st1 Ha'). by destruct (loop rate llm st1 records).
Qed.

(** The addresses of the rows written are, in order, addresses of records
    of the input, and none of them was processed at the start. *)
Lemma cloop_written_addresses rate llm st0 records :
  map out_address (written (loop rate llm st0 records).2)
    `sublist_of` map address records
  ∧ processedAddresses st0 ⊆ processedAddresses (loop rate llm st0 records).1
  ∧ ∀ out, out ∈ written (loop rate llm st0 records).2 →
           out_address out ∉ processedAddresses st0.
Proof.
  apply (cloop_invariant rate llm (λ done st evs,
    map out_address (written evs) `sublist_of` map address done
    ∧ processedAddresses st0 ⊆ processedAddresses st
    ∧ ∀ out, out ∈ written evs → out_address out ∉ processedAddresses st0)).
  { split_and!; [done|done|]. intros out Hout. inversion Hout. }
  intros done st evs row (Hsub & Hmono & Hnew).
  pose proof (cstep_summary rate llm st row) as Hs. simpl in Hs.
  rewrite cwritten_app, !map_app. simpl.
  assert (∀ out, written (step rate llm st row).2 = [out] →
            out_address out = address row →
            address row ∉ processedAddresses st →
            processedAddresses st
              ⊆ processedAddresses (step rate llm st row).1 →
            (map out_address (written evs)
               ++ map out_address (written (step rate llm st row).2)
               `sublist_of` map address done ++ [address row])
            ∧ processedAddresses st0
                ⊆ processedAddresses (step rate llm st row).1
            ∧ ∀ out', out' ∈ written evs ++ written (step rate llm st row).2 →
                      out_address out' ∉ processedAddresses st0) as Hone.
  { intros out -> Hout Hrow Hgrow. simpl. rewrite Hout.
    split_and!; [by apply sublist_app|by etrans|].
    intros out' [Hin|Hin%list_elem_of_singleton]%elem_of_app.
    - by apply Hnew.
    - subst out'. rewrite Hout. by intros ?%Hmono. }
  destruct (branch st row) eqn:Hb.
  - destruct Hs as [-> ->]. simpl. rewrite !app_nil_r.
    split_and!; [by apply sublist_inserts_r|done|done].
  - destruct Hs as (Hw & Hp & _). apply branch_too_short in Hb as [Hrow _].
    apply (Hone _ Hw); [done|done|by rewrite Hp].
  - destruct Hs as (Hw & Hp & _). apply branch_duplicate in Hb as [Hrow _].
    apply (Hone _ Hw); [done|done|by rewrite Hp].
  - destruct Hs as (Hw & Hp & _). apply branch_enriched in Hb as [Hrow _].
    apply (Hone _ Hw); [done|done|]. rewrite Hp. apply union_subseteq_r.
Qed.

(** With distinct addresses in the input, no two rows of a run are for the
    same address. *)
Lemma cloop_written_NoDup rate llm st0 records :
  NoDup (map address records) →
  NoDup (map out_address (written (loop rate llm st0 records).2)).
Proof.
  intros Hnd. eapply sublist_NoDup; [done|].
  apply cloop_written_addresses.
Qed.

(** Every content in the index of the run is the content of a record of
    this run, under the address of that record. *)
Lemma cloop_codes_from_run rate llm st0 records :
  processedCodes st0 = ∅ →
  ∀ c a, processedCodes (loop rate llm st0 records).1 !! c = Some a →
         ∃ r, r ∈ records ∧ code r = c ∧ address r = a.
Proof.
  intros Hempty.
  apply (cloop_invariant rate llm (λ done st evs,
    ∀ c a, processedCodes st !! c = Some a →
           ∃ r, r ∈ done ∧ code r = c ∧ address r = a)).
  { intros c a. by rewrite Hempty, lookup_empty. }
  intros done st evs row IH c a.
  pose proof (cstep_summary rate llm st row) as Hs. simpl in Hs.
  assert (processedCodes st !! c = Some a →
          ∃ r, r ∈ done ++ [row] ∧ code r = c ∧ address r = a) as Hold.
  { intros (r & Hr & ? & ?)%IH. exists r. split; [|done].
    apply elem_of_app. by left. }
  destruct (branch st row).
  - by destruct Hs as [-> _].
  - by destruct Hs as (_ & _ & ->).
  - by destruct Hs as (_ & _ & ->).
  - destruct Hs as (_ & _ & ->).
    destruct (decide (code row = c)) as [<-|Hne].
    + rewrite lookup_insert_eq. intros [= <-]. exists row.
      split; [|done]. apply elem_of_app. right. by apply list_elem_of_singleton.
    + by rewrite lookup_insert_ne.
Qed.

(** Every address in the index of the run, and every address a duplicate
    row of the run names, has a row of the run that is an enrichment. *)
Lemma cloop_originals_enriched rate llm st0 records :
  processedCodes st0 = ∅ →
  let rows := written (loop rate llm st0 records).2 in
  (∀ c a, processedCodes (loop rate llm st0 records).1 !! c = Some a →
          ∃ orig, orig ∈ rows ∧ out_address orig = a ∧ real_enrichment orig)
  ∧ (∀ out, out ∈ rows →
       duplicate_of_address out ≠ ""%string →
       duplicate_of_address out ≠ "TOO_SHORT"%string →
       ∃ orig, orig ∈ rows
               ∧ out_address orig = duplicate_of_address out
               ∧ real_enrichment orig).
Proof.
  intros Hempty. simpl.
  apply (cloop_invariant rate llm (λ done st evs,
    (∀ c a, processedCodes st !! c = Some a →
            ∃ orig, orig ∈ written evs ∧ out_address orig = a
                    ∧ real_enrichment orig)
    ∧ (∀ out, out ∈ written evs →
         duplicate_of_address out ≠ ""%string →
         duplicate_of_address out ≠ "TOO_SHORT"%string →
         ∃ orig, orig ∈ written evs
                 ∧ out_address orig = duplicate_of_address out
                 ∧ real_enrichment orig))).
  { split.
    - intros c a. by rewrite Hempty, lookup_empty.
    - intros out Hout. inversion Hout. }
  intros done st evs row [Hcodes Hdups].
  pose proof (cstep_summary rate llm st row) as Hs. simpl in Hs.
  rewrite cwritten_app.
  assert (∀ a,
            (∃ orig, orig ∈ written evs ∧ out_address orig = a
                     ∧ real_enrichment orig) →
            ∃ orig, orig ∈ written evs ++ written (step rate llm st row).2
                    ∧ out_address orig = a ∧ real_enrichment orig) as Hweak.
  { intros a (orig & Hin & HP). exists orig. split; [|done].
    apply elem_of_app. by left. }
  destruct (branch st row) eqn:Hb.
  - destruct Hs as [-> ->]. by rewrite app_nil_r.
  - destruct Hs as (Hw & _ & Hc'). rewrite Hw in *. rewrite Hc'. split.
    + intros c a Hc. by apply Hcodes, Hweak in Hc.
    + intros out [Hin|Hin%list_elem_of_singleton]%elem_of_app Hd1 Hd2.
      * by apply Hweak, Hdups.
      * by subst out.
  - destruct Hs as (Hw & _ & Hc'). rewrite Hw in *. rewrite Hc'. split.
    + intros c a Hc. by apply Hcodes, Hweak in Hc.
    + intros out [Hin|Hin%list_elem_of_singleton]%elem_of_app Hd1 Hd2.
      * by apply Hweak, Hdups.
      * subst out. simpl.
        apply branch_duplicate in Hb as (_ & _ & [Ho _]%originalOf_Some).
        by apply Hcodes, Hweak in Ho.
  - destruct Hs as (Hw & _ & Hc'). rewrite Hw in *. rewrite Hc'.
    apply branch_enriched in Hb as (_ & Hlen & _). split.
    + intros c a. destruct (decide (code row = c)) as [<-|Hne].
      * rewrite lookup_insert_eq. intros [= <-]. eexists. split.
        { apply elem_of_app. right. by apply list_elem_of_singleton. }
        split; [done|]. split; [done|]. simpl.
        apply escapeNewlines_nonempty.
        destruct (code row); [simpl in Hlen; lia|done].
      * rewrite lookup_insert_ne by done. intros Hc.
        by apply Hcodes, Hweak in Hc.
    + intros out [Hin|Hin%list_elem_of_singleton]%elem_of_app Hd1 Hd2.
      * by apply Hweak, Hdups.
      * by subst out.
Qed.

End ClassifyLoop.

Section ClassifyRate.
Import Classify.

(** At a rate of one or more, the request leaves no earlier than the whole
    part of the interval after the previous one returned. *)
Lemma limiter_gap rate st :
  1 ≤ rate →
  lastRequestTime st ≤ now st →
  now st ≤ (limiter rate st).1
  ∧ lastRequestTime st + 1000 / rate ≤ (limiter rate st).1.
Proof.
  intros Hrate Hpast. unfold limiter, intervalMs, Js.quotient.
  rewrite (proj2 (Z.eqb_neq _ _)) by lia.
  set (elapsed := now st - lastRequestTime st).
  assert (0 ≤ elapsed) as He by (unfold elapsed; lia).
  unfold Js.int_lt, Js.minus_int, Js.timer, Js.TIMEOUT_MAX.
  rewrite (proj2 (Z.ltb_lt 0 rate)) by lia.
  destruct (elapsed * rate <? 1000) eqn:Hlt; simpl.
  - apply Z.ltb_lt in Hlt.
    destruct (rate <=? 1000 - elapsed * rate) eqn:H1; simpl.
    + apply Z.leb_le in H1.
      rewrite (proj2 (Z.leb_le _ _)) by nia.
      replace (1000 - elapsed * rate) with (1000 + - elapsed * rate) by lia.
      rewrite Z.div_add by lia.
      assert (0 ≤ 1000 / rate - elapsed); [|lia].
      apply Z.le_0_sub, Z.div_le_lower_bound; lia.
    + apply Z.leb_gt in H1.
      assert (1000 / rate < elapsed + 1); [|lia].
      apply Z.div_lt_upper_bound; lia.
  - apply Z.ltb_ge in Hlt.
    assert (1000 / rate ≤ elapsed); [|lia].
    apply Z.div_le_upper_bound; lia.
Qed.

(** At a negative rate the interval is negative and the limiter never
    waits; at the rate zero the interval is infinite and the timer, set for
    an infinite delay, runs for one millisecond. *)
Lemma limiter_nonpositive rate st :
  rate ≤ 0 →
  lastRequestTime st ≤ now st →
  limiter rate st =
    if rate =? 0 then (now st + 1, [Sleep (now st) 1]) else (now st, []).
Proof.
  intros Hrate Hpast. unfold limiter, intervalMs, Js.quotient.
  destruct (rate =? 0) eqn:H0; [done|]. apply Z.eqb_neq in H0.
  unfold Js.int_lt. rewrite (proj2 (Z.ltb_ge 0 rate)) by lia.
  rewrite (proj2 (Z.ltb_ge _ _)); [done|]. nia.
Qed.

Lemma sent_times_app (evs1 evs2 : list Event) :
  sent_times (evs1 ++ evs2) = sent_times evs1 ++ sent_times evs2.
Proof. apply omap_app. Qed.

Lemma limiter_sent rate st : sent_times (limiter rate st).2 = [].
Proof. unfold limiter. by destruct (Js.int_lt _ _). Qed.

(** The requests the client sends again leave between the first request of
    the call and its last one, one for every request that failed. *)
Lemma resend_sent t failed :
  Forall (λ f, 0 ≤ took f ∧ 0 ≤ backoff f) failed →
  t ≤ (resend t failed).2
  ∧ length (sent_times (resend t failed).1) = length failed
  ∧ Forall (λ s, t ≤ s ≤ (resend t failed).2)
      (sent_times (resend t failed).1).
Proof.
  revert t. induction failed as [|f failed IH]; intros t Hall.
  { simpl. split_and!; [lia|done|constructor]. }
  apply Forall_cons in Hall as [[Htook Hwait] Hall].
  destruct (IH (t + took f + backoff f) Hall) as (Hle & Hlen & Hin).
  simpl. split_and!.
  - lia.
  - unfold sent_times in *. simpl. by rewrite Hlen.
  - unfold sent_times in *. simpl. constructor; [lia|].
    eapply Forall_impl; [exact Hin|]. simpl. lia.
Qed.

(** The requests of an enrichment: the first one, then those sent again. *)
Lemma enrich_sent rate st row r out :
  sent_times ((limiter rate st).2 ++
                LogProcessing (address row)
                  :: Request (limiter rate st).1 (code row)
                  :: (resend (limiter rate st).1 (resent r)).1
                  ++ [Write out])
  = (limiter rate st).1
      :: sent_times (resend (limiter rate st).1 (resent r)).1.
Proof.
  rewrite sent_times_app, limiter_sent. simpl.
  change (sent_times
            (Request (limiter rate st).1 (code row)
               :: (resend (limiter rate st).1 (resent r)).1 ++ [Write out])
          = (limiter rate st).1
              :: sent_times (resend (limiter rate st).1 (resent r)).1).
  unfold sent_times at 1. simpl. f_equal.
  fold (sent_times ((resend (limiter rate st).1 (resent r)).1 ++ [Write out])).
  rewrite sent_times_app. simpl. by rewrite app_nil_r.
Qed.

Lemma sent_length t failed :
  length (t :: sent_times (resend t failed).1) = S (length failed).
Proof.
  simpl. f_equal. revert t.
  induction failed as [|f failed IH]; intros t; [done|].
  unfold sent_times in *. simpl. by rewrite IH.
Qed.

Lemma count_times_length p ts : (count_times p ts ≤ length ts)%nat.
Proof.
  induction ts as [|t ts IH]; simpl; [lia|]. destruct (p t); lia.
Qed.

(** The counting argument of the rate bound.  The times [ts] lie before
    [L]; a block of [c] times at most is added, all of them a gap [g] or
    more after [L]: no [R] gaps then hold more than [R] blocks. *)
Lemma window_step g R c L L' t ts block :
  1 ≤ R → 0 ≤ g →
  Forall (λ s, s ≤ L) ts →
  (∀ k, 0 ≤ k → Z.of_nat (after (L - k * g) ts) ≤ k * c) →
  (∀ a, Z.of_nat (count_between a (a + R * g) ts) ≤ R * c) →
  L + g ≤ t → t ≤ L' →
  Forall (λ s, t ≤ s ≤ L') block →
  Z.of_nat (length block) ≤ c →
  Forall (λ s, s ≤ L') (ts ++ block)
  ∧ (∀ k, 0 ≤ k → Z.of_nat (after (L' - k * g) (ts ++ block)) ≤ k * c)
  ∧ (∀ a, Z.of_nat (count_between a (a + R * g) (ts ++ block)) ≤ R * c).
Proof.
  intros HR Hg Hts Hafter Hwin Hgap HL' Hblock Hlen.
  assert (Forall (λ s, s ≤ L') (ts ++ block)) as Hall.
  { apply Forall_app. split.
    - eapply Forall_impl; [exact Hts|]. simpl. lia.
    - eapply Forall_impl; [exact Hblock|]. simpl. lia. }
  split_and!; [done| |].
  - intros k Hk. destruct (decide (k = 0)) as [->|Hk0].
    + rewrite after_none; [lia|].
      eapply Forall_impl; [exact Hall|]. simpl. lia.
    + rewrite after_app.
      pose proof (after_mono (L - (k - 1) * g) (L' - k * g) ts) as Hmono.
      pose proof (count_times_length (λ s, L' - k * g <? s) block) as Hb.
      fold (after (L' - k * g) block) in Hb.
      specialize (Hafter (k - 1)). lia.
  - intros a. rewrite count_between_app.
    destruct (decide (t < a + R * g)) as [Hin|Hout].
    + pose proof (count_between_after a (a + R * g) (t - R * g) ts) as Hle.
      pose proof (after_mono (L - (R - 1) * g) (t - R * g) ts) as Hmono.
      pose proof (count_times_length
                    (λ s, (a <=? s) && (s <? a + R * g)) block) as Hb.
      fold (count_between a (a + R * g) block) in Hb.
      specialize (Hafter (R - 1)). lia.
    + rewrite (count_between_none a _ block); [specialize (Hwin a); lia|].
      eapply Forall_impl; [exact Hblock|]. simpl. lia.
Qed.

(** The rate bound of the classify stage: at a rate R of one or more, the
    adapter is called R times at most within any R times the whole part
    of 1000 / R milliseconds, and when the client sends a request again
    [m] times at most, (1 + m) R requests at most leave within them. *)
Lemma cloop_rate_bound rate m llm st0 records :
  1 ≤ rate →
  (∀ n snippet, timely (llm n snippet)) →
  (∀ n snippet, (length (resent (llm n snippet)) ≤ m)%nat) →
  lastRequestTime st0 ≤ now st0 →
  ∀ a,
    Z.of_nat
      (count_between a (a + rate * (1000 / rate))
         (request_times (loop rate llm st0 records).2)) ≤ rate
    ∧ Z.of_nat
        (count_between a (a + rate * (1000 / rate))
           (sent_times (loop rate llm st0 records).2))
      ≤ rate * (1 + Z.of_nat m).
Proof.
  intros Hrate Hlat Hm Hpast0.
  pose proof (Z.div_pos 1000 rate ltac:(lia) ltac:(lia)) as Hg.
  cut ((lastRequestTime (loop rate llm st0 records).1
          ≤ now (loop rate llm st0 records).1)
       ∧ (Forall (λ t, t ≤ lastRequestTime (loop rate llm st0 records).1)
            (request_times (loop rate llm st0 records).2)
          ∧ (∀ k, 0 ≤ k →
               Z.of_nat
                 (after (lastRequestTime (loop rate llm st0 records).1
                         - k * (1000 / rate))
                    (request_times (loop rate llm st0 records).2)) ≤ k * 1)
          ∧ ∀ a,
              Z.of_nat
                (count_between a (a + rate * (1000 / rate))
                   (request_times (loop rate llm st0 records).2))
              ≤ rate * 1)
       ∧ (Forall (λ t, t ≤ lastRequestTime (loop rate llm st0 records).1)
            (sent_times (loop rate llm st0 records).2)
          ∧ (∀ k, 0 ≤ k →
               Z.of_nat
                 (after (lastRequestTime (loop rate llm st0 records).1
                         - k * (1000 / rate))
                    (sent_times (loop rate llm st0 records).2))
               ≤ k * (1 + Z.of_nat m))
          ∧ ∀ a,
              Z.of_nat
                (count_between a (a + rate * (1000 / rate))
                   (sent_times (loop rate llm st0 records).2))
              ≤ rate * (1 + Z.of_nat m))).
  { intros (_ & (_ & _ & H1) & (_ & _ & H2)) a.
    specialize (H1 a). specialize (H2 a). lia. }
  apply (cloop_invariant rate llm (λ done st evs,
    (lastRequestTime st ≤ now st)
    ∧ (Forall (λ t, t ≤ lastRequestTime st) (request_times evs)
       ∧ (∀ k, 0 ≤ k →
            Z.of_nat (after (lastRequestTime st - k * (1000 / rate))
                        (request_times evs)) ≤ k * 1)
       ∧ ∀ a,
           Z.of_nat (count_between a (a + rate * (1000 / rate))
                       (request_times evs)) ≤ rate * 1)
    ∧ (Forall (λ t, t ≤ lastRequestTime st) (sent_times evs)
       ∧ (∀ k, 0 ≤ k →
            Z.of_nat (after (lastRequestTime st - k * (1000 / rate))
                        (sent_times evs)) ≤ k * (1 + Z.of_nat m))
       ∧ ∀ a,
           Z.of_nat (count_between a (a + rate * (1000 / rate))
                       (sent_times evs)) ≤ rate * (1 + Z.of_nat m)))).
  { split_and!; try done; intros; unfold after, count_between; simpl; lia. }
  intros done st evs row
    (Hpast & (Hts & Hafter & Hwin) & (Hss & Hsafter & Hswin)).
  rewrite cstep_branch. destruct (branch st row); simpl;
    try (rewrite request_times_app, sent_times_app; simpl;
         rewrite !app_nil_r; done).
  destruct (limiter_gap rate st Hrate Hpast) as [Hnow Hgap].
  destruct (Hlat (calls st) (code row)) as [Hl Hres].
  specialize (Hm (calls st) (code row)).
  set (r := llm (calls st) (code row)) in *.
  destruct (resend_sent (limiter rate st).1 (resent r) Hres)
    as (Hlast & Hlen & Hin).
  rewrite request_times_app, sent_times_app.
  rewrite (proj2 (enrich_trace rate st row r _)), enrich_sent.
  split; [lia|]. split.
  - apply (window_step (1000 / rate) rate 1 (lastRequestTime st) _
             (limiter rate st).1);
      first [done | lia | (repeat constructor; lia) | (simpl; lia)].
  - apply (window_step (1000 / rate) rate (1 + Z.of_nat m)
             (lastRequestTime st) _ (limiter rate st).1);
      first [done | lia
            | (constructor; [lia|];
               eapply Forall_impl; [exact Hin|]; simpl; lia)
            | (simpl length; rewrite Hlen; lia)].
Qed.

End ClassifyRate.

(** ** The text of the output file and the scan that reads it back *)

Section Strings.

Lemma append_cons c (s1 s2 : string) :
  String c s1 +:+ s2 = String c (s1 +:+ s2).
Proof. done. Qed.

Lemma append_nil_l (s : string) : "" +:+ s = s.
Proof. done. Qed.

Lemma append_assoc (s1 s2 s3 : string) :
  (s1 +:+ s2) +:+ s3 = s1 +:+ (s2 +:+ s3).
Proof.
  induction s1 as [|c s1 IH]; [done|]. by rewrite !append_cons, IH.
Qed.

Lemma append_nil_r (s : string) : s +:+ "" = s.
Proof. induction s as [|c s IH]; [done|]. by rewrite append_cons, IH. Qed.

Lemma lacks_app c s1 s2 :
  lacks c (s1 +:+ s2) = lacks c s1 && lacks c s2.
Proof.
  induction s1 as [|c1 s1 IH]; [done|]. rewrite append_cons. simpl.
  rewrite IH. by rewrite andb_assoc.
Qed.

Lemma split_nonempty sep s : ∃ w ws, Js.split sep s = w :: ws.
Proof.
  induction s as [|c s (w & ws & IH)]; simpl; [by eexists _, _|].
  destruct (Ascii.eqb c sep); [by eexists _, _|]. rewrite IH. by eexists _, _.
Qed.

(** Splitting at a separator splits the list of fields. *)
Lemma split_app_sep sep s1 s2 :
  Js.split sep (s1 +:+ String sep s2) = Js.split sep s1 ++ Js.split sep s2.
Proof.
  induction s1 as [|c s1 IH]; rewrite ?append_nil_l, ?append_cons; simpl.
  - by rewrite Ascii.eqb_refl.
  - destruct (Ascii.eqb c sep); [by rewrite IH|].
    rewrite IH. by destruct (split_nonempty sep s1) as (w & ws & ->).
Qed.

(** A prefix without separator stays in front of the first field. *)
Lemma split_prefix sep p s :
  lacks sep p = true →
  Js.split sep (p +:+ s) =
    match Js.split sep s with
    | w :: ws => (p +:+ w) :: ws
    | [] => [p]
    end.
Proof.
  induction p as [|c p IH]; rewrite ?append_nil_l, ?append_cons; simpl.
  - intros _. by destruct (split_nonempty sep s) as (w & ws & ->).
  - intros [Hc Hp]%andb_true_iff. apply negb_true_iff in Hc.
    rewrite Hc, IH by done.
    by destruct (split_nonempty sep s) as (w & ws & ->).
Qed.

Lemma append_two_fields c (p1 p2 s : string) :
  p1 +:+ String c (p2 +:+ String c s)
  = (p1 +:+ String c (p2 +:+ String c "")) +:+ s.
Proof.
  by rewrite append_assoc, append_cons, append_assoc, append_cons,
    append_nil_l.
Qed.

(** Two leading fields without the separator stay on the first line. *)
Lemma split_two_fields sep c p1 p2 s :
  lacks sep p1 = true → lacks sep p2 = true → Ascii.eqb c sep = false →
  ∃ w ws,
    Js.split sep (p1 +:+ String c (p2 +:+ String c s))
    = (p1 +:+ String c (p2 +:+ String c w)) :: ws.
Proof.
  intros H1 H2 Hc. rewrite append_two_fields, split_prefix.
  - destruct (split_nonempty sep s) as (w & ws & ->).
    exists w, ws. by rewrite <- append_two_fields.
  - rewrite lacks_app, H1. simpl. rewrite Hc. simpl.
    rewrite lacks_app, H2. simpl. by rewrite Hc.
Qed.

Lemma split_lacks sep s : lacks sep s = true → Js.split sep s = [s].
Proof.
  intros Hs. rewrite <- (append_nil_r s) at 1.
  rewrite split_prefix by done. simpl. by rewrite append_nil_r.
Qed.

Lemma trimStart_app s c s' :
  Js.is_ws c = false →
  Js.trimStart (s +:+ String c s') = Js.trimStart s +:+ String c s'.
Proof.
  intros Hc.
  induction s as [|c1 s IH]; rewrite ?append_nil_l, ?append_cons; simpl.
  - by rewrite Hc.
  - by destruct (Js.is_ws c1).
Qed.

Lemma trimEnd_cons c s :
  Js.is_ws c = false → Js.trimEnd (String c s) = String c (Js.trimEnd s).
Proof. intros Hc. simpl. rewrite Hc. by destruct (Js.trimEnd s). Qed.

Lemma trimEnd_app s c s' :
  Js.is_ws c = false →
  Js.trimEnd (s +:+ String c s') = s +:+ String c (Js.trimEnd s').
Proof.
  intros Hc. induction s as [|c1 s IH].
  - by apply trimEnd_cons.
  - rewrite !append_cons. cbn [Js.trimEnd]. rewrite IH. by destruct s.
Qed.

Lemma lacks_trimStart c s : lacks c s = true → lacks c (Js.trimStart s) = true.
Proof.
  induction s as [|c1 s IH]; simpl; [done|].
  intros [Hc Hs]%andb_true_iff. destruct (Js.is_ws c1); [by apply IH|].
  simpl. by rewrite Hc, Hs.
Qed.

Lemma needsQuote_lacks s c :
  Csv.special c = true → Csv.needsQuote s = false → lacks c s = true.
Proof.
  intros Hc. induction s as [|c1 s IH]; simpl; [done|].
  intros [H1 Hs]%orb_false_iff. rewrite IH by done.
  rewrite andb_true_r. apply negb_true_iff.
  destruct (Ascii.eqb_spec c1 c) as [->|]; [|done]. by rewrite Hc in H1.
Qed.

Lemma field_plain s : Csv.needsQuote s = false → Csv.field s = s.
Proof. unfold Csv.field. by intros ->. Qed.

End Strings.

Section ScanFile.
Import Classify.

(** The scan of a line that starts with a block number and an address
    without commas finds the address. *)
Lemma scanLine_address processed bn addr more :
  lacks "," bn = true → lacks "," addr = true → addr ≠ "" →
  addr ∈ scanLine processed (bn +:+ String "," (addr +:+ String "," more)).
Proof.
  intros Hbn Haddr Hne. unfold scanLine, Js.trim.
  rewrite trimStart_app, !trimEnd_app by done.
  assert (Js.truthy
            (Js.trimStart bn
               +:+ String "," (addr +:+ String "," (Js.trimEnd more)))
          = true) as ->.
  { by destruct (Js.trimStart bn). }
  simpl. rewrite !split_app_sep.
  rewrite (split_lacks _ (Js.trimStart bn)) by by apply lacks_trimStart.
  rewrite (split_lacks _ addr) by done. simpl.
  destruct addr; [done|]. simpl.
  apply elem_of_union_l. by apply elem_of_singleton.
Qed.

Lemma scanLine_grows processed raw : processed ⊆ scanLine processed raw.
Proof.
  unfold scanLine. destruct (negb _); [done|].
  destruct (_ !! _) as [address|]; [|done].
  destruct (Js.truthy address); [|done]. apply union_subseteq_r.
Qed.

Lemma scan_grows processed raws : processed ⊆ foldl scanLine processed raws.
Proof.
  revert processed. induction raws as [|raw raws IH]; intros processed; [done|].
  simpl. etrans; [apply scanLine_grows|apply IH].
Qed.

Lemma scan_app processed raws1 raws2 :
  foldl scanLine processed (raws1 ++ raws2)
  = foldl scanLine (foldl scanLine processed raws1) raws2.
Proof. apply foldl_app. Qed.

(** The line of a row ends with a line break, and nothing of the row comes
    after it. *)
Lemma line_body row :
  line row =
    String.concat ","
      (map Csv.field
         [out_block_number row; out_address row; out_is_erc20 row;
          out_is_erc721 row; out_code row;
          from_option pretty "" (artistic_score row);
          artistic_reason row; duplicate_of_address row])
    +:+ String Js.LF "".
Proof. done. Qed.

Lemma text_of_cons row rows :
  ∃ body, line row = body +:+ String Js.LF ""
          ∧ text_of (row :: rows) = body +:+ String Js.LF (text_of rows).
Proof.
  eexists. split; [apply line_body|]. simpl. rewrite line_body.
  by rewrite append_assoc.
Qed.

Lemma text_of_app rows1 rows2 :
  text_of (rows1 ++ rows2) = text_of rows1 +:+ text_of rows2.
Proof.
  induction rows1 as [|row rows1 IH]; simpl; [done|].
  by rewrite IH, append_assoc.
Qed.

(** The first line of a scannable row starts with its block number and its
    address. *)
Lemma line_scannable row :
  scannable row →
  ∃ more rest,
    Js.split Js.LF
      (String.concat ","
         (map Csv.field
            [out_block_number row; out_address row; out_is_erc20 row;
             out_is_erc721 row; out_code row;
             from_option pretty "" (artistic_score row);
             artistic_reason row; duplicate_of_address row]))
    = (out_block_number row
         +:+ String "," (out_address row +:+ String "," more)) :: rest.
Proof.
  intros (Hbn & Haddr & _). cbn [map String.concat].
  rewrite (field_plain _ Hbn), (field_plain _ Haddr).
  rewrite !append_cons, !append_nil_l.
  apply split_two_fields; [| |done].
  - by apply (needsQuote_lacks _ Js.LF eq_refl).
  - by apply (needsQuote_lacks _ Js.LF eq_refl).
Qed.

(** The scan of the text of some rows finds the address of every scannable
    row among them. *)
Lemma scan_text_of processed rows row :
  row ∈ rows → scannable row →
  out_address row ∈ foldl scanLine processed (Js.split Js.LF (text_of rows)).
Proof.
  intros Hin Hrow. revert processed.
  induction rows as [|row' rows IH]; intros processed; [by inversion Hin|].
  destruct (text_of_cons row' rows) as (body & Hline & ->).
  rewrite split_app_sep, scan_app.
  apply elem_of_cons in Hin as [<-|Hin]; [|by apply IH].
  apply scan_grows. rewrite line_body in Hline.
  assert (body = String.concat ","
            (map Csv.field
               [out_block_number row; out_address row; out_is_erc20 row;
                out_is_erc721 row; out_code row;
                from_option pretty "" (artistic_score row);
                artistic_reason row; duplicate_of_address row])) as ->.
  { revert Hline. generalize (String.concat ","
      (map Csv.field
         [out_block_number row; out_address row; out_is_erc20 row;
          out_is_erc721 row; out_code row;
          from_option pretty "" (artistic_score row);
          artistic_reason row; duplicate_of_address row])).
    intros s. revert body.
    induction s as [|c s IHs]; intros [|c' body]; simpl; try done.
    - intros [= _ Hb]. by destruct body.
    - intros [= _ Hs]. by destruct s.
    - intros [= -> Hs]. f_equal. by apply IHs. }
  destruct (line_scannable row Hrow) as (more & rest & ->).
  simpl. apply scan_grows.
  destruct Hrow as (Hbn & Haddr & Hne).
  apply scanLine_address; [|  |done].
  - by apply (needsQuote_lacks _ "," eq_refl).
  - by apply (needsQuote_lacks _ "," eq_refl).
Qed.

(** The addresses [main] loads from a file the writer left: those of its
    scannable rows, at least. *)
Lemma loadProcessed_holds f rows row :
  holds f rows → row ∈ rows → scannable row →
  out_address row ∈ loadProcessed f.
Proof.
  intros [->|[-> ->]] Hin Hrow; [|by inversion Hin].
  unfold loadProcessed, file_of, SKIP_PROCESSED, Csv.header.
  rewrite append_assoc, append_cons, append_nil_l, split_app_sep.
  rewrite split_lacks by done. simpl.
  by apply scan_text_of.
Qed.

(** A write keeps the file as the writer leaves it. *)
Lemma writeRecords_holds f rows row :
  holds f rows →
  holds (writeRecords f (bool_decide (is_Some f)) row) (rows ++ [row]).
Proof.
  intros [->|[-> ->]]; left; unfold writeRecords.
  - rewrite bool_decide_eq_true_2 by done. simpl.
    f_equal. unfold file_of. rewrite text_of_app, append_assoc. simpl.
    by rewrite append_nil_r.
  - rewrite bool_decide_eq_false_2 by by intros [? ?].
    f_equal. unfold file_of. simpl. by rewrite append_nil_r.
Qed.

(** What one iteration does to the file: nothing, or one write of the row
    it reports, with the block number and the address of the record. *)
Lemma cstep_file rate llm st row :
  let st' := (step rate llm st row).1 in
  let evs := (step rate llm st row).2 in
  (file st' = file st ∧ append st' = append st ∧ written evs = [])
  ∨ (∃ out, written evs = [out]
            ∧ out_address out = address row
            ∧ out_block_number out = block_number row
            ∧ file st' = writeRecords (file st) (append st) out
            ∧ append st' = true).
Proof.
  simpl. rewrite cstep_branch. destruct (branch st row); simpl.
  - by left.
  - right. by eexists.
  - right. by eexists.
  - right. rewrite (proj1 (enrich_trace rate st row _ _)).
    by eexists.
Qed.

(** Through the loop the file stays as the writer leaves it, with the rows
    of the run after those it held, and every row of the run has the block
    number and the address of a record of the input. *)
Lemma cloop_file rate llm st0 rows0 records :
  holds (file st0) rows0 →
  append st0 = bool_decide (is_Some (file st0)) →
  holds (file (loop rate llm st0 records).1)
    (rows0 ++ written (loop rate llm st0 records).2)
  ∧ ∀ out, out ∈ written (loop rate llm st0 records).2 →
      ∃ row, row ∈ records
             ∧ out_address out = address row
             ∧ out_block_number out = block_number row.
Proof.
  intros Hholds Happend.
  cut (holds (file (loop rate llm st0 records).1)
         (rows0 ++ written (loop rate llm st0 records).2)
       ∧ append (loop rate llm st0 records).1
         = bool_decide (is_Some (file (loop rate llm st0 records).1))
       ∧ ∀ out, out ∈ written (loop rate llm st0 records).2 →
           ∃ row, row ∈ records
                  ∧ out_address out = address row
                  ∧ out_block_number out = block_number row).
  { tauto. }
  pose (I := λ (done : list InRow) (st : State) (evs : list Event),
    holds (file st) (rows0 ++ written evs)
    ∧ append st = bool_decide (is_Some (file st))
    ∧ ∀ out, out ∈ written evs →
        ∃ row, row ∈ done
               ∧ out_address out = address row
               ∧ out_block_number out = block_number row).
  apply (cloop_invariant rate llm I); unfold I; clear I.
  { rewrite app_nil_r. split_and!; [done|done|]. by intros out ?%elem_of_nil. }
  intros done st evs row (Hh & Ha & Hrows).
  rewrite cwritten_app.
  assert (∀ out, out ∈ written evs →
            ∃ row', row' ∈ done ++ [row]
                    ∧ out_address out = address row'
                    ∧ out_block_number out = block_number row') as Hold.
  { intros out (row' & Hin & ?)%Hrows. exists row'. split; [|done].
    apply elem_of_app. by left. }
  destruct (cstep_file rate llm st row)
    as [(-> & -> & ->)|(out & -> & Haddr & Hbn & -> & ->)].
  - by rewrite app_nil_r.
  - rewrite Ha, app_assoc. split_and!.
    + by apply writeRecords_holds.
    + symmetry. apply bool_decide_eq_true_2. unfold writeRecords.
      by destruct (bool_decide (is_Some (file st))).
    + intros out' [Hin|Hin%list_elem_of_singleton]%elem_of_app;
        [by apply Hold|]. subst out'.
      exists row. split; [|done]. apply elem_of_app. right.
      by apply list_elem_of_singleton.
Qed.

End ScanFile.

(** * The claims *)

Section ClassifyClaims.
Import Classify.

(** A reply whose parse fails gives the null annotation, and no other reply
    with a text does. *)
Lemma parse_fails_null r text :
  body r = Content text →
  parse_fails text ↔ score (getArtisticScoreAndReason r) = None.
Proof.
  unfold getArtisticScoreAndReason. intros ->.
  fold (reply_fields text). split.
  - intros [Hn|part0 part1 -> ->|part0 part1 n -> -> Hn]; [|done|].
    + by destruct (reply_fields text) as [|part0 [|part1 [|]]].
    + destruct Hn as [Hn|Hn]; rewrite (proj2 (Z.ltb_lt _ _) Hn);
        by rewrite ?orb_true_r.
  - destruct (reply_fields text) as [|part0 [|part1 [|]]] eqn:Hf;
      try (intros _; by apply wrong_field_count; rewrite Hf).
    destruct (Js.parseInt part0) as [n|] eqn:Hp;
      [|intros _; by eapply no_integer].
    destruct (n <? 1) eqn:H1.
    { intros _. eapply out_of_range; [done..|]. left. by apply Z.ltb_lt. }
    destruct (3 <? n) eqn:H3; [|done].
    intros _. eapply out_of_range; [done..|]. right. by apply Z.ltb_lt.
Qed.

Lemma getArtisticScoreAndReason_null r :
  score (getArtisticScoreAndReason r) = None →
  getArtisticScoreAndReason r = null_annotation.
Proof.
  unfold getArtisticScoreAndReason.
  destruct (body r) as [|text]; [done|].
  destruct (map Js.trim _) as [|part0 [|part1 [|]]]; try done.
  destruct (Js.parseInt part0) as [n|]; [|done].
  by destruct (_ || _).
Qed.

(** C5 (skip-short): a record whose content has at most [MIN_CODE_LENGTH]
    characters and whose address is not among the processed ones gets one
    output row, with empty content, empty score and reason and the tag
    TOO_SHORT; its iteration makes no request and starts no timer, and
    leaves the clock and the rate limiter as they were. *)
Theorem C5_too_short_placeholder rate llm st row :
  address row ∉ processedAddresses st →
  (String.length (code row) ≤ MIN_CODE_LENGTH)%nat →
  ∃ out,
    written (step rate llm st row).2 = [out]
    ∧ out_address out = address row
    ∧ out_code out = ""%string
    ∧ artistic_score out = None
    ∧ artistic_reason out = ""%string
    ∧ duplicate_of_address out = "TOO_SHORT"%string
    ∧ Forall (λ e, is_effect e = false) (step rate llm st row).2
    ∧ now (step rate llm st row).1 = now st
    ∧ lastRequestTime (step rate llm st row).1 = lastRequestTime st
    ∧ calls (step rate llm st row).1 = calls st.
Proof.
  intros Hnew Hlen. rewrite cstep_short by done. simpl.
  eexists. split_and!; try done. by repeat constructor.
Qed.

Lemma C5_witness :
  ∃ out,
    written (step REQUESTS_PER_SECOND Ex.critic (Ex.fresh 5000)
               (Ex.code_row "0xA" "contract A {}")).2 = [out]
    ∧ out_address out = "0xA"%string
    ∧ out_code out = ""%string
    ∧ artistic_score out = None
    ∧ artistic_reason out = ""%string
    ∧ duplicate_of_address out = "TOO_SHORT"%string
    ∧ Forall (λ e, is_effect e = false)
        (step REQUESTS_PER_SECOND Ex.critic (Ex.fresh 5000)
           (Ex.code_row "0xA" "contract A {}")).2
    ∧ now (step REQUESTS_PER_SECOND Ex.critic (Ex.fresh 5000)
             (Ex.code_row "0xA" "contract A {}")).1 = 5000
    ∧ lastRequestTime (step REQUESTS_PER_SECOND Ex.critic (Ex.fresh 5000)
             (Ex.code_row "0xA" "contract A {}")).1 = 0
    ∧ calls (step REQUESTS_PER_SECOND Ex.critic (Ex.fresh 5000)
             (Ex.code_row "0xA" "contract A {}")).1 = 0%nat.
Proof.
  apply (C5_too_short_placeholder REQUESTS_PER_SECOND Ex.critic (Ex.fresh 5000)
           (Ex.code_row "0xA" "contract A {}")).
  - apply not_elem_of_empty.
  - vm_compute. lia.
Defined.

(** C4 (parse failure), as the code has it.  The parse of a reply fails
    when it has not two fields, when [parseInt] reads no number at the
    start of the first field, or when the number read is outside 1..3; a
    first field that only starts with a number, as 2.5 does, is read as
    that number and is no failure.  When the parse fails the adapter
    returns the null annotation and asks nothing again: the step is one
    call of the adapter, and its requests are the first request of that
    call and those the client had sent again before the reply came.  The
    driver writes the row of the record with its content (line breaks
    escaped, so the content itself when it has none), an empty score and an
    empty reason. *)
Theorem C4_parse_failure_not_retried rate llm st row text :
  address row ∉ processedAddresses st →
  (MIN_CODE_LENGTH < String.length (code row))%nat →
  originalOf (processedCodes st) (code row) = None →
  body (llm (calls st) (code row)) = Content text →
  parse_fails text →
  getArtisticScoreAndReason (llm (calls st) (code row)) = null_annotation
  ∧ request_times (step rate llm st row).2 = [(limiter rate st).1]
  ∧ length (sent_times (step rate llm st row).2)
    = S (length (resent (llm (calls st) (code row))))
  ∧ calls (step rate llm st row).1 = S (calls st)
  ∧ ∃ out,
      written (step rate llm st row).2 = [out]
      ∧ out_address out = address row
      ∧ out_code out = Js.escapeNewlines (code row)
      ∧ (lacks Js.LF (code row) = true → out_code out = code row)
      ∧ out_code out ≠ ""%string
      ∧ artistic_score out = None
      ∧ artistic_reason out = ""%string
      ∧ duplicate_of_address out = ""%string.
Proof.
  intros Hnew Hlen Hcodes Hbody Hfail.
  assert (getArtisticScoreAndReason (llm (calls st) (code row))
          = null_annotation) as Hnull.
  { apply getArtisticScoreAndReason_null. by eapply parse_fails_null. }
  rewrite cstep_enrich by done. simpl. rewrite Hnull.
  destruct (enrich_trace rate st row (llm (calls st) (code row))
              (enriched row null_annotation)) as [Hw Hr].
  rewrite Hw, Hr, enrich_sent, sent_length.
  split_and!; try done. eexists. split_and!; try done.
  - simpl. apply escapeNewlines_lacks.
  - simpl. apply escapeNewlines_nonempty.
    destruct (code row); [|done].
    simpl in Hlen. unfold MIN_CODE_LENGTH in Hlen. lia.
Qed.

Lemma C4_witness :
  getArtisticScoreAndReason
    (Ex.says "4 | beyond the scale" (calls (Ex.fresh 5000))
       (code (Ex.code_row "0xA" Ex.poem))) = null_annotation
  ∧ request_times
      (step REQUESTS_PER_SECOND Ex.harsh (Ex.fresh 5000)
         (Ex.code_row "0xA" Ex.poem)).2 = [5000]
  ∧ length
      (sent_times
         (step REQUESTS_PER_SECOND Ex.harsh (Ex.fresh 5000)
            (Ex.code_row "0xA" Ex.poem)).2) = 1%nat
  ∧ calls (step REQUESTS_PER_SECOND Ex.harsh (Ex.fresh 5000)
             (Ex.code_row "0xA" Ex.poem)).1 = S (calls (Ex.fresh 5000))
  ∧ ∃ out,
      written (step REQUESTS_PER_SECOND Ex.harsh (Ex.fresh 5000)
                 (Ex.code_row "0xA" Ex.poem)).2 = [out]
      ∧ out_address out = address (Ex.code_row "0xA" Ex.poem)
      ∧ out_code out = Js.escapeNewlines (code (Ex.code_row "0xA" Ex.poem))
      ∧ (lacks Js.LF (code (Ex.code_row "0xA" Ex.poem)) = true →
         out_code out = code (Ex.code_row "0xA" Ex.poem))
      ∧ out_code out ≠ ""%string
      ∧ artistic_score out = None
      ∧ artistic_reason out = ""%string
      ∧ duplicate_of_address out = ""%string.
Proof.
  apply (C4_parse_failure_not_retried REQUESTS_PER_SECOND Ex.harsh
           (Ex.fresh 5000) (Ex.code_row "0xA" Ex.poem)
           "4 | beyond the scale").
  - apply not_elem_of_empty.
  - vm_compute. lia.
  - reflexivity.
  - reflexivity.
  - apply (out_of_range _ "4" "beyond the scale" 4);
      [reflexivity | reflexivity | lia].
Defined.

(** C4 as stated fails for a score that is no integer: the reply 2.5 | x
    has two fields and a first field that is no integer, and the adapter
    reads the score 2 from it; the row of the record is written with that
    score and the reason. *)
Lemma C4_counterexample :
  getArtisticScoreAndReason (Ex.says "2.5 | x" 0%nat Ex.poem)
  = {| score := Some 2; reason := "x" |}
  ∧ written
      (main REQUESTS_PER_SECOND None [Ex.code_row "0xA" Ex.poem] 5000
         (Ex.says "2.5 | x")).2
    = [{| out_block_number := "100";
          out_address := "0xA";
          out_is_erc20 := "true";
          out_is_erc721 := "false";
          out_code := Ex.poem;
          artistic_score := Some 2;
          artistic_reason := "x";
          duplicate_of_address := "" |}].
Proof. split; reflexivity. Qed.

End ClassifyClaims.

Section BothStages.

(** C1 (one row per processed record), as the code has it: in the classify
    stage every record that is not skipped as processed appends one output
    row; in the fetch stage such a record appends one row when the adapter
    returns a source, and none when it returns no contract, in which case
    the file and the set of processed addresses stay as they were and the
    outcome is only logged. *)
Theorem C1_rows_per_processed_record :
  (∀ rate llm st row,
     Classify.address row ∉ Classify.processedAddresses st →
     ∃ out, Classify.written (Classify.step rate llm st row).2 = [out]
            ∧ Classify.out_address out = Classify.address row)
  ∧ (∀ rate st row f,
       GetCode.address row ∉ GetCode.processedAddresses st →
       GetCode.fetchContractSource (GetCode.address row) (GetCode.script st)
         (throttle rate st).1.1.1 = Some f →
       ∃ st' evs,
         GetCode.step rate st row = Some (st', evs)
         ∧ match GetCode.sourceCode f with
           | Some src =>
               GetCode.written evs = [fetched_row row src]
               ∧ GetCode.file st' = GetCode.file st ++ [fetched_row row src]
           | None =>
               GetCode.written evs = []
               ∧ GetCode.file st' = GetCode.file st
               ∧ GetCode.processedAddresses st' = GetCode.processedAddresses st
               ∧ last evs = Some (GetCode.LogNoContract (GetCode.address row))
           end).
Proof.
  split.
  - intros rate llm st row Hnew. rewrite cstep_branch.
    destruct (branch st row) as [| |original|] eqn:Hb; simpl.
    + by apply branch_skipped in Hb.
    + by eexists.
    + by eexists.
    + rewrite (proj1 (enrich_trace rate st row _ _)). by eexists.
  - intros rate st row f Hnew Hf.
    destruct (step_fetch_outcome rate st row f Hnew Hf)
      as (st' & evs & Hstep & _ & _ & _ & _ & _ & _ & Hout).
    exists st', evs. split; [done|].
    destruct (GetCode.sourceCode f); tauto.
Qed.

Lemma C1_witness :
  (∃ out,
     Classify.written
       (Classify.step Classify.REQUESTS_PER_SECOND Ex.critic (Ex.fresh 5000)
          (Ex.code_row "0xA" Ex.poem)).2 = [out]
     ∧ Classify.out_address out = "0xA"%string)
  ∧ (∃ st' evs,
       GetCode.step 3
         {| GetCode.now := 0; GetCode.file := [];
            GetCode.processedAddresses := ∅; GetCode.callCount := 0;
            GetCode.startTime := 0; GetCode.script := [Ex.unverified 120] |}
         (Ex.addr_row "0xA1") = Some (st', evs)
       ∧ GetCode.written evs = []
       ∧ GetCode.file st' = []
       ∧ GetCode.processedAddresses st' = ∅
       ∧ last evs = Some (GetCode.LogNoContract "0xA1")).
Proof.
  split.
  - apply (proj1 C1_rows_per_processed_record
             Classify.REQUESTS_PER_SECOND Ex.critic
             (Ex.fresh 5000) (Ex.code_row "0xA" Ex.poem)).
    apply not_elem_of_empty.
  - apply (proj2 C1_rows_per_processed_record 3
             {| GetCode.now := 0; GetCode.file := [];
                GetCode.processedAddresses := ∅; GetCode.callCount := 0;
                GetCode.startTime := 0;
                GetCode.script := [Ex.unverified 120] |}
             (Ex.addr_row "0xA1")
             {| GetCode.sourceCode := None; GetCode.rest := [];
                GetCode.returned_at := 120;
                GetCode.did := [GetCode.Request 0 "0xA1"] |}).
    + apply not_elem_of_empty.
    + reflexivity.
Defined.

(** C1 as stated fails in the fetch stage: a run over one address for which
    the explorer confirms that there is no verified source makes its request
    and writes no row at all. *)
Lemma C1_counterexample :
  (λ r, (GetCode.file r.1, r.2)) <$>
    GetCode.main GetCode.REQUESTS_PER_SECOND None [Ex.addr_row "0xA1"] 0
      [Ex.unverified 120]
  = Some ([], [GetCode.LogFetch 0 "0xA1"; GetCode.Request 0 "0xA1";
               GetCode.LogNoContract "0xA1"]).
Proof. reflexivity. Qed.

(** C3 (transient failures), as the code has it.  The fetch adapter asks
    again after every transient reply (an exception, a status that is not
    ok, a NOTOK message), after a wait of 10 s, 3 s and 3 s, however many
    there are: the driver sees only the verdict of the first other reply,
    and while the replies stay transient the adapter does not return.  The
    classify adapter has no loop: it calls the client once.  The client
    sends a request that failed again on its own, [maxRetries] times at
    most by its default and after waits that are not fixed; when the call
    raises all the same, the adapter returns the null annotation, the
    driver writes it as a row with an empty score, and the address counts
    as processed: the requests of the step are the first request of the
    call and those the client sent again, three at most by the default. *)
Theorem C3_transient_failures :
  (∀ rate st row ts d script',
     GetCode.address row ∉ GetCode.processedAddresses st →
     GetCode.script st = ts ++ d :: script' →
     Forall (λ r, fetch_transient r = true) ts →
     fetch_transient d = false →
     ∃ st' evs,
       GetCode.step rate st row = Some (st', evs)
       ∧ length (GetCode.request_times evs) = S (length ts)
       ∧ GetCode.script st' = script'
       ∧ GetCode.now st' =
           (throttle rate st).1.1.1 + retry_time ts + GetCode.latency d
       ∧ GetCode.written evs =
           match fetch_verdict d with
           | Some src => [fetched_row row src]
           | None => []
           end)
  ∧ (∀ rate st row,
       GetCode.address row ∉ GetCode.processedAddresses st →
       Forall (λ r, fetch_transient r = true) (GetCode.script st) →
       GetCode.step rate st row = None)
  ∧ (∀ rate llm st row,
       Classify.address row ∉ Classify.processedAddresses st →
       (Classify.MIN_CODE_LENGTH < String.length (Classify.code row))%nat →
       Classify.originalOf (Classify.processedCodes st) (Classify.code row)
         = None →
       Classify.body (llm (Classify.calls st) (Classify.code row))
         = Classify.ApiError →
       Classify.request_times (Classify.step rate llm st row).2
         = [(limiter rate st).1]
       ∧ length (Classify.sent_times (Classify.step rate llm st row).2)
         = S (length (Classify.resent
                        (llm (Classify.calls st) (Classify.code row))))
       ∧ ((length (Classify.resent
                     (llm (Classify.calls st) (Classify.code row)))
           ≤ Classify.maxRetries)%nat →
          (length (Classify.sent_times (Classify.step rate llm st row).2)
           ≤ 3)%nat)
       ∧ Classify.calls (Classify.step rate llm st row).1
         = S (Classify.calls st)
       ∧ Classify.written (Classify.step rate llm st row).2 =
           [Classify.enriched row Classify.null_annotation]
       ∧ Classify.address row
           ∈ Classify.processedAddresses (Classify.step rate llm st row).1).
Proof.
  split_and!.
  - intros rate st row ts d script' Hnew Hscript Hts Hd.
    destruct (fetch_retries (GetCode.address row) ts d script'
                (throttle rate st).1.1.1 Hts Hd)
      as (f & Hf & Hsrc & Hrest & Hret & Hlen).
    rewrite <- Hscript in Hf.
    destruct (step_fetch_outcome rate st row f Hnew Hf)
      as (st' & evs & Hstep & _ & Hreq & Hscr & Hnow & _ & _ & Hout).
    exists st', evs. rewrite Hreq, Hscr, Hnow. split_and!; try done.
    rewrite <- Hsrc. destruct (GetCode.sourceCode f); tauto.
  - intros rate st row Hnew Hts. rewrite step_fetch by done.
    destruct (throttle rate st) as [[[now1 startTime1] callCount2] waited].
    by rewrite fetch_never_gives_up.
  - intros rate llm st row Hnew Hlen Hcodes Hbody.
    rewrite cstep_enrich by done. simpl.
    destruct (enrich_trace rate st row
                (llm (Classify.calls st) (Classify.code row))
                (Classify.enriched row
                   (Classify.getArtisticScoreAndReason
                      (llm (Classify.calls st) (Classify.code row)))))
      as [Hw Hr].
    rewrite Hw, Hr, enrich_sent, sent_length.
    unfold Classify.getArtisticScoreAndReason. rewrite Hbody.
    split_and!; try done.
    + unfold Classify.maxRetries. lia.
    + apply elem_of_union_l. by apply elem_of_singleton.
Qed.

Lemma C3_witness :
  (∃ st' evs,
     GetCode.step 3
       {| GetCode.now := 0; GetCode.file := [];
          GetCode.processedAddresses := ∅; GetCode.callCount := 0;
          GetCode.startTime := 0;
          GetCode.script :=
            [Ex.unreachable 40; Ex.bad_gateway 50; Ex.throttled 60]
              ++ Ex.verified 70 :: [] |}
       (Ex.addr_row "0xA1") = Some (st', evs)
     ∧ length (GetCode.request_times evs) = 4%nat
     ∧ GetCode.script st' = []
     ∧ GetCode.now st' = 16220
     ∧ GetCode.written evs =
         [fetched_row (Ex.addr_row "0xA1") "contract C { uint x; }"])
  ∧ GetCode.step 3
      {| GetCode.now := 0; GetCode.file := [];
         GetCode.processedAddresses := ∅; GetCode.callCount := 0;
         GetCode.startTime := 0;
         GetCode.script := [Ex.throttled 60; Ex.throttled 60] |}
      (Ex.addr_row "0xA1") = None
  ∧ (Classify.request_times
       (Classify.step Classify.REQUESTS_PER_SECOND Ex.overloaded
          (Ex.fresh 5000) (Ex.code_row "0xA" Ex.poem)).2 = [5000]
     ∧ length
         (Classify.sent_times
            (Classify.step Classify.REQUESTS_PER_SECOND Ex.overloaded
               (Ex.fresh 5000) (Ex.code_row "0xA" Ex.poem)).2) = 3%nat
     ∧ Classify.written
         (Classify.step Classify.REQUESTS_PER_SECOND Ex.overloaded
            (Ex.fresh 5000) (Ex.code_row "0xA" Ex.poem)).2
       = [Classify.enriched (Ex.code_row "0xA" Ex.poem)
            Classify.null_annotation]).
Proof.
  split; [|split].
  - apply (proj1 C3_transient_failures 3
             {| GetCode.now := 0; GetCode.file := [];
                GetCode.processedAddresses := ∅; GetCode.callCount := 0;
                GetCode.startTime := 0;
                GetCode.script :=
                  [Ex.unreachable 40; Ex.bad_gateway 50; Ex.throttled 60]
                    ++ Ex.verified 70 :: [] |}
             (Ex.addr_row "0xA1")
             [Ex.unreachable 40; Ex.bad_gateway 50; Ex.throttled 60]
             (Ex.verified 70) []).
    + apply not_elem_of_empty.
    + reflexivity.
    + repeat constructor.
    + reflexivity.
  - apply (proj1 (proj2 C3_transient_failures) 3
             {| GetCode.now := 0; GetCode.file := [];
                GetCode.processedAddresses := ∅; GetCode.callCount := 0;
                GetCode.startTime := 0;
                GetCode.script := [Ex.throttled 60; Ex.throttled 60] |}
             (Ex.addr_row "0xA1")).
    + apply not_elem_of_empty.
    + repeat constructor.
  - pose proof (proj2 (proj2 C3_transient_failures)
                  Classify.REQUESTS_PER_SECOND Ex.overloaded (Ex.fresh 5000)
                  (Ex.code_row "0xA" Ex.poem)
                  ltac:(apply not_elem_of_empty)
                  ltac:(vm_compute; lia) eq_refl eq_refl)
      as (Hcalls & Hsent & _ & _ & Hrow & _).
    split_and!; [exact Hcalls|exact Hsent|exact Hrow].
Defined.

(** C3 as stated fails in the classify adapter: in a run over one record
    with the model overloaded, the request fails three times, the client
    sending it again after 450 ms and once more after 900 ms; nothing is
    asked after that, and the failure is recorded as a row with the content
    and an empty score. *)
Lemma C3_counterexample :
  (Classify.main Classify.REQUESTS_PER_SECOND None
     [Ex.code_row "0xA" Ex.poem] 5000 Ex.overloaded).2
  = [Classify.LogProcessing "0xA"; Classify.Request 5000 Ex.poem;
     Classify.Resent 5550; Classify.Resent 6550;
     Classify.Write
       {| Classify.out_block_number := "100";
          Classify.out_address := "0xA";
          Classify.out_is_erc20 := "true";
          Classify.out_is_erc721 := "false";
          Classify.out_code := Ex.poem;
          Classify.artistic_score := None;
          Classify.artistic_reason := "";
          Classify.duplicate_of_address := "" |}]
  ∧ "0xA"%string
      ∈ Classify.processedAddresses
          (Classify.main Classify.REQUESTS_PER_SECOND None
             [Ex.code_row "0xA" Ex.poem] 5000 Ex.overloaded).1.
Proof.
  split; [reflexivity|].
  apply (bool_decide_eq_true_1 _). vm_compute. reflexivity.
Qed.

(** C7 (rate of zero or less), as the code has it: the rate is not checked
    anywhere, and a rate of zero or less raises nothing.  The fetch driver
    handles each record that is not processed as at any other rate; every
    call of the adapter then waits for the current one-second window to end
    and opens a new one, the request leaves, and the row is written if a
    source comes back.  The classify driver enriches each record it would
    enrich at any other rate: at a negative rate the request leaves at
    once, at the rate zero after a timer of one millisecond, and the row is
    written. *)
Theorem C7_rate_not_validated :
  (∀ rate st row f,
     rate ≤ 0 →
     0 ≤ GetCode.callCount st →
     GetCode.address row ∉ GetCode.processedAddresses st →
     GetCode.fetchContractSource (GetCode.address row) (GetCode.script st)
       (Z.max (GetCode.now st) (GetCode.startTime st + 1000)) = Some f →
     ∃ st' evs more,
       GetCode.step rate st row = Some (st', evs)
       ∧ GetCode.fetch_times evs =
           [Z.max (GetCode.now st) (GetCode.startTime st + 1000)]
       ∧ GetCode.request_times evs =
           Z.max (GetCode.now st) (GetCode.startTime st + 1000) :: more
       ∧ GetCode.startTime st' =
           Z.max (GetCode.now st) (GetCode.startTime st + 1000)
       ∧ GetCode.callCount st' = 1
       ∧ GetCode.written evs =
           match GetCode.sourceCode f with
           | Some src => [fetched_row row src]
           | None => []
           end)
  ∧ (∀ rate llm st row,
       rate ≤ 0 →
       Classify.lastRequestTime st ≤ Classify.now st →
       Classify.address row ∉ Classify.processedAddresses st →
       (Classify.MIN_CODE_LENGTH < String.length (Classify.code row))%nat →
       Classify.originalOf (Classify.processedCodes st) (Classify.code row)
         = None →
       Classify.request_times (Classify.step rate llm st row).2
         = [if rate =? 0 then Classify.now st + 1 else Classify.now st]
       ∧ Classify.written (Classify.step rate llm st row).2
         = [Classify.enriched row
              (Classify.getArtisticScoreAndReason
                 (llm (Classify.calls st) (Classify.code row)))]).
Proof.
  split.
  - intros rate st row f Hrate Hcount Hnew Hf.
    pose proof (throttle_nonpositive rate st Hrate Hcount) as Ht.
    destruct (fetch_did_first_request _ _ _ _ Hf) as [more Hmore].
    destruct (step_fetch_outcome rate st row f Hnew) as
      (st' & evs & Hstep & Hft & Hreq & _ & _ & Hstart & Hcc & Hout).
    { by rewrite Ht. }
    rewrite Ht in *. simpl in *.
    exists st', evs, more. rewrite Hreq. split_and!; try done.
    destruct (GetCode.sourceCode f); tauto.
  - intros rate llm st row Hrate Hpast Hnew Hlen Hcodes.
    rewrite cstep_enrich by done. simpl.
    destruct (enrich_trace rate st row
                (llm (Classify.calls st) (Classify.code row))
                (Classify.enriched row
                   (Classify.getArtisticScoreAndReason
                      (llm (Classify.calls st) (Classify.code row)))))
      as [Hw Hr].
    rewrite Hw, Hr, (limiter_nonpositive rate st Hrate Hpast).
    by destruct (rate =? 0).
Qed.

Lemma C7_witness :
  (∃ st' evs more,
     GetCode.step 0
       {| GetCode.now := 0; GetCode.file := [];
          GetCode.processedAddresses := ∅; GetCode.callCount := 0;
          GetCode.startTime := 0; GetCode.script := [Ex.verified 70] |}
       (Ex.addr_row "0xA1") = Some (st', evs)
     ∧ GetCode.fetch_times evs = [1000]
     ∧ GetCode.request_times evs = 1000 :: more
     ∧ GetCode.startTime st' = 1000
     ∧ GetCode.callCount st' = 1
     ∧ GetCode.written evs =
         [fetched_row (Ex.addr_row "0xA1") "contract C { uint x; }"])
  ∧ (Classify.request_times
       (Classify.step (-2) Ex.critic (Ex.fresh 5000)
          (Ex.code_row "0xA" Ex.poem)).2 = [5000]
     ∧ Classify.written
         (Classify.step (-2) Ex.critic (Ex.fresh 5000)
            (Ex.code_row "0xA" Ex.poem)).2
       = [Classify.enriched (Ex.code_row "0xA" Ex.poem)
            {| Classify.score := Some 3; Classify.reason := "a poem" |}]).
Proof.
  split.
  - apply (proj1 C7_rate_not_validated 0
             {| GetCode.now := 0; GetCode.file := [];
                GetCode.processedAddresses := ∅; GetCode.callCount := 0;
                GetCode.startTime := 0; GetCode.script := [Ex.verified 70] |}
             (Ex.addr_row "0xA1")
             {| GetCode.sourceCode := Some "contract C { uint x; }"%string;
                GetCode.rest := []; GetCode.returned_at := 1070;
                GetCode.did := [GetCode.Request 1000 "0xA1"] |}).
    + lia.
    + simpl. lia.
    + apply not_elem_of_empty.
    + reflexivity.
  - apply (proj2 C7_rate_not_validated (-2) Ex.critic
             (Ex.fresh 5000) (Ex.code_row "0xA" Ex.poem)).
    + lia.
    + simpl. lia.
    + apply not_elem_of_empty.
    + vm_compute. lia.
    + reflexivity.
Defined.

(** C7 as stated fails in both stages.  With the rate set to zero, and to a
    negative number, a fetch run over one address raises nothing, waits a
    second, makes its request and writes the row; a classify run over one
    record raises nothing either, makes its request (after one millisecond
    at the rate zero, at once at a negative rate) and writes the row. *)
Lemma C7_counterexample :
  snd <$> GetCode.main 0 None [Ex.addr_row "0xA1"] 0 [Ex.verified 70]
  = Some [GetCode.Sleep 0 1000; GetCode.LogFetch 1000 "0xA1";
          GetCode.Request 1000 "0xA1";
          GetCode.Write
            (fetched_row (Ex.addr_row "0xA1") "contract C { uint x; }");
          GetCode.LogOk "0xA1"]
  ∧ snd <$> GetCode.main (-5) None [Ex.addr_row "0xA1"] 0 [Ex.verified 70]
    = snd <$> GetCode.main 0 None [Ex.addr_row "0xA1"] 0 [Ex.verified 70]
  ∧ (Classify.main 0 None [Ex.code_row "0xA" Ex.poem] 5000
       Ex.critic).2
    = [Classify.Sleep 5000 1; Classify.LogProcessing "0xA";
       Classify.Request 5001 Ex.poem;
       Classify.Write
         (Classify.enriched (Ex.code_row "0xA" Ex.poem)
            {| Classify.score := Some 3; Classify.reason := "a poem" |})]
  ∧ (Classify.main (-5) None [Ex.code_row "0xA" Ex.poem] 5000
       Ex.critic).2
    = [Classify.LogProcessing "0xA"; Classify.Request 5000 Ex.poem;
       Classify.Write
         (Classify.enriched (Ex.code_row "0xA" Ex.poem)
            {| Classify.score := Some 3; Classify.reason := "a poem" |})].
Proof. split_and!; reflexivity. Qed.

End BothStages.

Section DuplicateClaims.
Import Classify.

Lemma NoDup_fmap_eq {A B} (f : A → B) (l : list A) x y :
  NoDup (map f l) → x ∈ l → y ∈ l → f x = f y → x = y.
Proof.
  induction l as [|z l IH]; simpl; [by intros _ ?%elem_of_nil|].
  intros [Hz Hl]%NoDup_cons [->|Hx]%elem_of_cons [->|Hy]%elem_of_cons Hf;
    [done| | |by apply IH].
  - destruct Hz. rewrite Hf. apply list_elem_of_fmap. by exists y.
  - destruct Hz. rewrite <- Hf. apply list_elem_of_fmap. by exists x.
Qed.

(** C6 (duplicate detection), as the code has it.  When a record with an
    address k1 that is not empty is enriched and a later record of the
    same run has the same content and an address k2 that is not processed
    by then, the row written for the later record has k1 as its
    duplicate_of_address and an empty content (and an empty score and
    reason).  (The index of contents is tested for a truthy address: under
    the empty address a content is not found again.)  The index of
    contents starts empty in every run, whatever the output file holds: a
    record whose content no earlier record of the run has is never written
    as a duplicate. *)
Theorem C6_duplicate_detection :
  (∀ rate llm st r1 mid r2,
     address r1 ∉ processedAddresses st →
     (MIN_CODE_LENGTH < String.length (code r1))%nat →
     originalOf (processedCodes st) (code r1) = None →
     address r1 ≠ ""%string →
     code r2 = code r1 →
     address r2
       ∉ processedAddresses (loop rate llm (step rate llm st r1).1 mid).1 →
     ∃ out,
       written
         (step rate llm (loop rate llm (step rate llm st r1).1 mid).1 r2).2
       = [out]
       ∧ out_address out = address r2
       ∧ duplicate_of_address out = address r1
       ∧ out_code out = ""%string
       ∧ artistic_score out = None
       ∧ artistic_reason out = ""%string)
  ∧ (∀ rate f earlier r t0 llm,
       (∀ r', r' ∈ earlier → code r' ≠ code r) →
       originalOf (processedCodes (main rate f earlier t0 llm).1) (code r)
         = None
       ∧ ∀ out,
           out ∈ written (step rate llm (main rate f earlier t0 llm).1 r).2 →
                duplicate_of_address out = ""%string
                ∨ duplicate_of_address out = "TOO_SHORT"%string).
Proof.
  split.
  - intros rate llm st r1 mid r2 Hnew1 Hlen Hnone Hk1 Hcode Hnew2.
    assert (originalOf (processedCodes (step rate llm st r1).1) (code r1)
            = Some (address r1)) as Ho.
    { rewrite cstep_enrich by done. simpl. apply originalOf_Some.
      by rewrite lookup_insert_eq. }
    apply (originalOf_loop rate llm _ mid) in Ho.
    rewrite cstep_duplicate with (original := address r1);
      [|done|by rewrite Hcode|by rewrite Hcode].
    simpl. by eexists.
  - intros rate f earlier r t0 llm Hfresh.
    assert (originalOf (processedCodes (main rate f earlier t0 llm).1) (code r)
            = None) as Hnone.
    { destruct (originalOf _ _) as [a|] eqn:Ho; [|done].
      apply originalOf_Some in Ho as [Ho _].
      apply cloop_codes_from_run in Ho as (r' & Hr' & Hc & _); [|done].
      by destruct (Hfresh r' Hr'). }
    split; [done|]. intros out. rewrite cstep_branch.
    destruct (branch _ r) as [| |original|] eqn:Hb; simpl.
    + by intros ?%elem_of_nil.
    + intros ->%list_elem_of_singleton. by right.
    + apply branch_duplicate in Hb as (_ & _ & Ho). by rewrite Hnone in Ho.
    + rewrite (proj1 (enrich_trace rate _ r _ _)).
      intros ->%list_elem_of_singleton. by left.
Qed.

Lemma C6_witness :
  ∃ out,
    written
      (step REQUESTS_PER_SECOND Ex.critic
         (loop REQUESTS_PER_SECOND Ex.critic
            (step REQUESTS_PER_SECOND Ex.critic (Ex.fresh 5000)
               (Ex.code_row "0xA" Ex.poem)).1
            [Ex.code_row "0xB" Ex.token]).1
         (Ex.code_row "0xC" Ex.poem)).2 = [out]
    ∧ out_address out = "0xC"%string
    ∧ duplicate_of_address out = "0xA"%string
    ∧ out_code out = ""%string
    ∧ artistic_score out = None
    ∧ artistic_reason out = ""%string.
Proof.
  apply (proj1 C6_duplicate_detection REQUESTS_PER_SECOND Ex.critic
           (Ex.fresh 5000)
           (Ex.code_row "0xA" Ex.poem) [Ex.code_row "0xB" Ex.token]
           (Ex.code_row "0xC" Ex.poem)).
  - apply not_elem_of_empty.
  - vm_compute. lia.
  - reflexivity.
  - discriminate.
  - reflexivity.
  - apply (bool_decide_eq_false_1 _). vm_compute. reflexivity.
Defined.

(** C6 as stated fails when the first key is the empty string: of two
    records with the same content, the first with the empty address, the
    second is enriched again, and its row holds the content and no
    duplicate_of_address. *)
Lemma C6_counterexample :
  written
    (main REQUESTS_PER_SECOND None
       [Ex.code_row "" Ex.poem; Ex.code_row "0xB" Ex.poem] 5000 Ex.critic).2
  = [enriched (Ex.code_row "" Ex.poem)
       {| score := Some 3; reason := "a poem" |};
     {| out_block_number := "100";
        out_address := "0xB";
        out_is_erc20 := "true";
        out_is_erc721 := "false";
        out_code := Ex.poem;
        artistic_score := Some 3;
        artistic_reason := "a poem";
        duplicate_of_address := "" |}].
Proof. reflexivity. Qed.

(** C9 (what a duplicate row points at).  In a run, every row whose
    duplicate_of_address names an address (it is neither empty nor the tag
    TOO_SHORT) names the address of a row of the same run that is an
    enrichment: a row without tag and with a content.  When the addresses of
    the input are distinct that row is the only row of the run for its
    address, so the duplicate row points neither at another duplicate row
    nor at a TOO_SHORT row. *)
Theorem C9_duplicate_points_at_enrichment rate f records t0 llm :
  let rows := written (main rate f records t0 llm).2 in
  (∀ out, out ∈ rows →
     duplicate_of_address out ≠ ""%string →
     duplicate_of_address out ≠ "TOO_SHORT"%string →
     ∃ orig, orig ∈ rows
             ∧ out_address orig = duplicate_of_address out
             ∧ duplicate_of_address orig = ""%string
             ∧ out_code orig ≠ ""%string)
  ∧ (NoDup (map address records) →
     ∀ out other, out ∈ rows → other ∈ rows →
       duplicate_of_address out ≠ ""%string →
       duplicate_of_address out ≠ "TOO_SHORT"%string →
       out_address other = duplicate_of_address out →
       duplicate_of_address other = ""%string ∧ out_code other ≠ ""%string).
Proof.
  simpl.
  pose proof (cloop_originals_enriched rate llm
    {| now := t0; file := f; append := bool_decide (is_Some f);
       processedAddresses := loadProcessed f; processedCodes := ∅;
       lastRequestTime := 0; calls := 0; count := 0 |} records eq_refl)
    as [_ Hdups].
  simpl in Hdups. fold (main rate f records t0 llm) in Hdups.
  split; [done|].
  intros Hnd out other Hout Hother Hd1 Hd2 Haddr.
  destruct (Hdups out Hout Hd1 Hd2) as (orig & Horig & Ho & Hreal).
  assert (other = orig) as ->; [|done].
  eapply (NoDup_fmap_eq out_address); [|done|done|congruence].
  by apply cloop_written_NoDup.
Qed.

Lemma C9_witness :
  duplicate_of_address
    (enriched (Ex.code_row "0xA" Ex.poem)
       {| score := Some 3; reason := "a poem" |}) = ""
  ∧ out_code
      (enriched (Ex.code_row "0xA" Ex.poem)
         {| score := Some 3; reason := "a poem" |}) ≠ "".
Proof.
  apply (proj2 (C9_duplicate_points_at_enrichment REQUESTS_PER_SECOND None
                  [Ex.code_row "0xA" Ex.poem; Ex.code_row "0xB" "short";
                   Ex.code_row "0xC" Ex.poem]
                  5000 Ex.critic)
           ltac:(apply (bool_decide_eq_true_1 _); vm_compute; reflexivity)
           (placeholder (Ex.code_row "0xC" Ex.poem) "0xA")
           (enriched (Ex.code_row "0xA" Ex.poem)
              {| score := Some 3; reason := "a poem" |})).
  - apply list_elem_of_In. vm_compute. tauto.
  - apply list_elem_of_In. vm_compute. tauto.
  - discriminate.
  - discriminate.
  - reflexivity.
Defined.

(** C10 (placeholders are not remembered).  Writing a TOO_SHORT or a
    duplicate placeholder leaves the set of processed addresses as it was.
    The rows of one run are for distinct addresses when the addresses of the
    input are distinct, and only then: an input with the same address twice,
    both times with a short content, gets two rows for that address. *)
Theorem C10_placeholders_not_remembered :
  (∀ rate llm st row,
     address row ∉ processedAddresses st →
     (String.length (code row) ≤ MIN_CODE_LENGTH)%nat
     ∨ is_Some (originalOf (processedCodes st) (code row)) →
     processedAddresses (step rate llm st row).1 = processedAddresses st
     ∧ ∃ out, written (step rate llm st row).2 = [out]
              ∧ out_address out = address row)
  ∧ (∀ rate f records t0 llm,
       NoDup (map address records) →
       NoDup (map out_address (written (main rate f records t0 llm).2)))
  ∧ map out_address
      (written
         (main REQUESTS_PER_SECOND None
            [Ex.code_row "0xA" "short"; Ex.code_row "0xA" "short"]
            5000 Ex.critic).2)
    = ["0xA"; "0xA"]%string.
Proof.
  split_and!.
  - intros rate llm st row Hnew Hwhy.
    pose proof (cstep_summary rate llm st row) as Hs. simpl in Hs.
    destruct (branch st row) as [| |original|] eqn:Hb.
    + by apply branch_skipped in Hb.
    + destruct Hs as (-> & -> & _). split; [done|]. by eexists.
    + destruct Hs as (-> & -> & _). split; [done|]. by eexists.
    + apply branch_enriched in Hb as (_ & Hlen & Hnone).
      destruct Hwhy as [?|[a Ha]]; [lia|]. by rewrite Hnone in Ha.
  - intros rate f records t0 llm Hnd. by apply cloop_written_NoDup.
  - reflexivity.
Qed.

Lemma C10_witness :
  NoDup
    (map out_address
       (written
          (main REQUESTS_PER_SECOND None
             [Ex.code_row "0xA" "short"; Ex.code_row "0xB" "short"]
             5000 Ex.critic).2)).
Proof.
  apply (proj1 (proj2 C10_placeholders_not_remembered) REQUESTS_PER_SECOND None
           [Ex.code_row "0xA" "short"; Ex.code_row "0xB" "short"]
           5000 Ex.critic).
  apply (bool_decide_eq_true_1 _). vm_compute. reflexivity.
Defined.

End DuplicateClaims.
Section RateClaims.

(** C8 (rate bound), as the code has it, for a rate R of one or more and
    times that are not negative.  The fetch stage counts the calls of its
    adapter in windows of one second that follow one another: no second
    [a, a + 1000) of a run holds more than 2 R requests (the last calls of
    one window and the calls of the next can fall within the same second).
    The classify stage lets the whole part of 1000 / R milliseconds pass
    between the return of a call of its adapter and the next call: no R
    times that many milliseconds hold more than R calls of the adapter.
    The limiter does not pace the requests the client sends again within a
    call: when the client sends a request again m times at most (twice, by
    its default), such a stretch holds (1 + m) R requests at most.  The
    stretch is a second when R divides 1000, as the rate of the source,
    one, does. *)
Theorem C8_rate_bound :
  (∀ rate f records t0 replies st evs,
     1 ≤ rate →
     Forall (λ r, 0 ≤ GetCode.latency r) replies →
     GetCode.main rate f records t0 replies = Some (st, evs) →
     ∀ a, Z.of_nat (dispatched_in a (GetCode.request_times evs)) ≤ 2 * rate)
  ∧ (∀ rate m f records t0 llm,
       1 ≤ rate →
       0 ≤ t0 →
       (∀ n snippet, timely (llm n snippet)) →
       (∀ n snippet, (length (Classify.resent (llm n snippet)) ≤ m)%nat) →
       ∀ a,
         Z.of_nat
           (count_between a (a + rate * (1000 / rate))
              (Classify.request_times
                 (Classify.main rate f records t0 llm).2)) ≤ rate
         ∧ Z.of_nat
             (count_between a (a + rate * (1000 / rate))
                (Classify.sent_times
                   (Classify.main rate f records t0 llm).2))
           ≤ rate * (1 + Z.of_nat m)
         ∧ (rate * (1000 / rate) = 1000 →
            Z.of_nat
              (dispatched_in a
                 (Classify.request_times
                    (Classify.main rate f records t0 llm).2)) ≤ rate
            ∧ Z.of_nat
                (dispatched_in a
                   (Classify.sent_times
                      (Classify.main rate f records t0 llm).2))
              ≤ rate * (1 + Z.of_nat m))).
Proof.
  split.
  - intros rate f records t0 replies st evs Hrate Hlat Hmain.
    by eapply main_rate_bound.
  - intros rate m f records t0 llm Hrate Ht0 Hlat Hm a.
    destruct (cloop_rate_bound rate m llm
                {| Classify.now := t0; Classify.file := f;
                   Classify.append := bool_decide (is_Some f);
                   Classify.processedAddresses := Classify.loadProcessed f;
                   Classify.processedCodes := ∅;
                   Classify.lastRequestTime := 0; Classify.calls := 0;
                   Classify.count := 0 |} records Hrate Hlat Hm Ht0 a)
      as [Hcalls Hsent].
    fold (Classify.main rate f records t0 llm) in Hcalls, Hsent.
    split_and!; [done|done|].
    intros Hdiv. unfold dispatched_in. by rewrite Hdiv in Hcalls, Hsent.
Qed.

Lemma C8_witness :
  (∃ st evs,
     GetCode.main 3 None Ex.six 0
       (Ex.verified 800 :: replicate 5 (Ex.verified 60)) = Some (st, evs)
     ∧ ∀ a, Z.of_nat (dispatched_in a (GetCode.request_times evs)) ≤ 2 * 3)
  ∧ Z.of_nat
      (dispatched_in 5000
         (Classify.sent_times
            (Classify.main 1 None
               [Ex.code_row "0xA" Ex.poem; Ex.code_row "0xB" Ex.token]
               5000 Ex.hurried).2))
    ≤ 1 * (1 + Z.of_nat 2).
Proof.
  split.
  - eexists _, _. split; [vm_compute; reflexivity|].
    eapply (proj1 C8_rate_bound 3 None Ex.six 0
              (Ex.verified 800 :: replicate 5 (Ex.verified 60))).
    + lia.
    + repeat (constructor; [simpl; lia|]). constructor.
    + vm_compute. reflexivity.
  - apply (proj2 C8_rate_bound 1 2%nat None
             [Ex.code_row "0xA" Ex.poem; Ex.code_row "0xB" Ex.token]
             5000 Ex.hurried).
    + lia.
    + lia.
    + intros n snippet. split; [simpl; lia|].
      repeat (constructor; [simpl; lia|]). constructor.
    + intros n snippet. simpl. lia.
    + reflexivity.
Defined.

(** C8 as stated fails in both stages.  In the fetch stage at its rate of
    three, when the first reply takes 800 ms and the others 60 ms, six
    addresses are requested at 0, 800, 860, 1000, 1060 and 1120 ms, five of
    them within the second that starts at 800 ms, one more than the rate
    plus one.  In the classify stage at its rate of one, when the model is
    busy twice and asks each time to be called again after 100 ms, the
    three requests of the one call leave at 5000, 5110 and 5220 ms, within
    one second, one more than the rate plus one. *)
Lemma C8_counterexample :
  (λ r, (GetCode.request_times r.2,
         dispatched_in 800 (GetCode.request_times r.2))) <$>
    GetCode.main GetCode.REQUESTS_PER_SECOND None Ex.six 0
      (Ex.verified 800 :: replicate 5 (Ex.verified 60))
  = Some ([0; 800; 860; 1000; 1060; 1120], 5%nat)
  ∧ GetCode.REQUESTS_PER_SECOND + 1 < 5
  ∧ Classify.sent_times
      (Classify.main Classify.REQUESTS_PER_SECOND None
         [Ex.code_row "0xA" Ex.poem] 5000 Ex.hurried).2
    = [5000; 5110; 5220]
  ∧ dispatched_in 5000
      (Classify.sent_times
         (Classify.main Classify.REQUESTS_PER_SECOND None
            [Ex.code_row "0xA" Ex.poem] 5000 Ex.hurried).2) = 3%nat
  ∧ Classify.REQUESTS_PER_SECOND + 1 < 3.
Proof.
  split_and!; reflexivity.
Qed.

End RateClaims.

Section ResumptionClaims.

(** Under its header, the file is read back row by row. *)
Lemma getProcessedAddresses_with_header f :
  with_header f →
  GetCode.getProcessedAddresses f
  = list_to_set (map GetCode.out_address (GetCode.createCsvWriter f)).
Proof.
  destruct f as [[rows|rows]|]; [|done|done]. intros _.
  unfold GetCode.getProcessedAddresses. simpl.
  assert (omap (λ row, Some (GetCode.out_address row)) rows
          = map GetCode.out_address rows) as ->; [|done].
  induction rows as [|row rows IH]; [done|]. simpl. by f_equal.
Qed.

Lemma with_header_appended f rows :
  with_header f → with_header (Some (GetCode.appended f rows)).
Proof. by destruct f as [[?|?]|]. Qed.

Lemma createCsvWriter_appended f rows :
  GetCode.createCsvWriter (Some (GetCode.appended f rows)) = rows.
Proof. by destruct f as [[?|?]|]. Qed.

(** A run of the fetch stage on a file: the rows it appends are for
    addresses the file did not hold, and the addresses of the file stay
    distinct. *)
Lemma fetch_run_resumes rate f records t0 replies st evs :
  with_header f →
  GetCode.main rate f records t0 replies = Some (st, evs) →
  GetCode.file st = GetCode.createCsvWriter f ++ GetCode.written evs
  ∧ (∀ out, out ∈ GetCode.written evs →
       GetCode.out_address out
         ∉ map GetCode.out_address (GetCode.createCsvWriter f))
  ∧ (NoDup (map GetCode.out_address (GetCode.createCsvWriter f)) →
     NoDup (map GetCode.out_address (GetCode.file st))).
Proof.
  intros Hhead Hmain.
  apply loop_written in Hmain as (Hfile & _ & Hrows & Hnd). simpl in *.
  assert (∀ out, out ∈ GetCode.written evs →
            GetCode.out_address out
              ∉ map GetCode.out_address (GetCode.createCsvWriter f)) as Hnew.
  { intros out Hout Hin. destruct (Hrows out Hout) as (Hnot & _).
    apply Hnot. rewrite getProcessedAddresses_with_header by done.
    by apply elem_of_list_to_set. }
  split_and!; [done|done|].
  intros Hnd0. rewrite Hfile, map_app. apply NoDup_app.
  split_and!; [done| |done].
  intros a Ha (out & -> & Hout)%list_elem_of_fmap. by apply (Hnew out).
Qed.

Lemma fetch_lifetime_NoDup rate f runs rows :
  with_header f →
  NoDup (map GetCode.out_address (GetCode.createCsvWriter f)) →
  fetch_lifetime rate f runs = Some rows →
  NoDup (map GetCode.out_address rows).
Proof.
  revert f. induction runs as [|r runs IH]; intros f Hhead Hnd; simpl.
  { by intros [= <-]. }
  destruct (GetCode.main _ _ _ _ _) as [[st evs]|] eqn:Hmain; [|done].
  simpl. apply IH; [by apply with_header_appended|].
  rewrite createCsvWriter_appended.
  by apply (fetch_run_resumes _ _ _ _ _ _ _ Hhead Hmain).
Qed.

(** A run of the classify stage on a file the writer left, with scannable
    rows. *)
Lemma classify_run_resumes rate f rows0 records t0 llm :
  holds f rows0 →
  Forall scannable rows0 →
  holds (Classify.file (Classify.main rate f records t0 llm).1)
    (rows0 ++ Classify.written (Classify.main rate f records t0 llm).2)
  ∧ (∀ out, out ∈ Classify.written (Classify.main rate f records t0 llm).2 →
       Classify.out_address out ∉ map Classify.out_address rows0)
  ∧ (NoDup (map Classify.address records) →
     NoDup (map Classify.out_address rows0) →
     NoDup (map Classify.out_address
              (rows0
                 ++ Classify.written
                      (Classify.main rate f records t0 llm).2)))
  ∧ (Forall well_formed_key records →
     Forall scannable
       (rows0 ++ Classify.written (Classify.main rate f records t0 llm).2)).
Proof.
  intros Hholds Hscan.
  set (st0 := {| Classify.now := t0; Classify.file := f;
                 Classify.append := bool_decide (is_Some f);
                 Classify.processedAddresses := Classify.loadProcessed f;
                 Classify.processedCodes := ∅;
                 Classify.lastRequestTime := 0; Classify.calls := 0;
                 Classify.count := 0 |}).
  change (Classify.main rate f records t0 llm)
    with (Classify.loop rate llm st0 records).
  destruct (cloop_file rate llm st0 rows0 records Hholds eq_refl)
    as [Hfile Hfrom].
  destruct (cloop_written_addresses rate llm st0 records) as (_ & _ & Hfresh).
  assert (∀ out, out ∈ Classify.written (Classify.loop rate llm st0 records).2 →
            Classify.out_address out ∉ map Classify.out_address rows0)
    as Hnew.
  { intros out Hout (row0 & Heq & Hin)%list_elem_of_fmap.
    apply (Hfresh out Hout). rewrite Heq. simpl.
    apply (loadProcessed_holds f rows0 row0); [done|done|].
    by apply (proj1 (Forall_forall _ _) Hscan). }
  split_and!; [done|done| |].
  - intros Hnd Hnd0. rewrite map_app. apply NoDup_app.
    split_and!; [done| |by apply cloop_written_NoDup].
    intros a Ha (out & -> & Hout)%list_elem_of_fmap. by apply (Hnew out).
  - intros Hkeys. apply Forall_app. split; [done|].
    apply Forall_forall. intros out (row & Hrow & Ha & Hb)%Hfrom.
    unfold scannable. rewrite Ha, Hb.
    by apply (proj1 (Forall_forall _ _) Hkeys).
Qed.

Lemma classify_lifetime_NoDup f rows0 runs :
  holds f rows0 →
  Forall scannable rows0 →
  NoDup (map Classify.out_address rows0) →
  Forall (λ r, NoDup (map Classify.address (classify_input r))
               ∧ Forall well_formed_key (classify_input r)) runs →
  holds (classify_lifetime f runs).1 (rows0 ++ (classify_lifetime f runs).2)
  ∧ NoDup (map Classify.out_address (rows0 ++ (classify_lifetime f runs).2)).
Proof.
  intros Hholds Hscan Hnd Hruns. revert f rows0 Hholds Hscan Hnd.
  induction Hruns as [|r runs [Hr1 Hr2] Hruns IH];
    intros f rows0 Hholds Hscan Hnd; simpl.
  { by rewrite app_nil_r. }
  destruct (classify_run_resumes Classify.REQUESTS_PER_SECOND f rows0
              (classify_input r)
              (classify_started r) (classify_model r) Hholds Hscan)
    as (Hholds' & _ & Hnd' & Hscan').
  destruct (Classify.main _ f _ _ _) as [st evs]. simpl in *.
  specialize (IH (Classify.file st) (rows0 ++ Classify.written evs)
                Hholds' (Hscan' Hr2) (Hnd' Hr1 Hnd)).
  destruct (classify_lifetime (Classify.file st) runs) as [f' rows].
  simpl in *. by rewrite app_assoc.
Qed.

(** C2 (a key appears at most once), as the code has it.  A run never
    appends a row for an address that the output file already holds,
    whatever the order of the input, and the addresses of the file stay
    distinct from run to run, over any number of runs, under the
    conditions that follow.

    In the fetch stage the output file does not exist or holds its
    header.  The rows a run appends are then for addresses the file did not
    hold, and no two of them are for the same address, whatever the input.

    In the classify stage the file is its text and the processed addresses
    are read off the lines of that text, cut at the commas.  The file does
    not exist or is as the writer left it (the header, then the lines of
    its rows), and the block numbers and addresses of its rows hold no
    comma, double quote or line feed, the address being not empty.  The
    rows a run appends are then for addresses the file did not hold; the
    addresses of the file stay distinct when those of the input are, and
    its rows stay readable when the records of the input are.  Starting
    without a file, after any number of runs whose inputs have such
    records with distinct addresses, no address has two rows. *)
Theorem C2_no_second_row_for_a_key :
  (∀ rate f records t0 replies st evs,
     with_header f →
     GetCode.main rate f records t0 replies = Some (st, evs) →
     GetCode.file st = GetCode.createCsvWriter f ++ GetCode.written evs
     ∧ (∀ out, out ∈ GetCode.written evs →
          GetCode.out_address out
            ∉ map GetCode.out_address (GetCode.createCsvWriter f))
     ∧ (NoDup (map GetCode.out_address (GetCode.createCsvWriter f)) →
        NoDup (map GetCode.out_address (GetCode.file st))))
  ∧ (∀ rate runs rows,
       fetch_lifetime rate None runs = Some rows →
       NoDup (map GetCode.out_address rows))
  ∧ (∀ rate f rows0 records t0 llm,
       holds f rows0 →
       Forall scannable rows0 →
       holds (Classify.file (Classify.main rate f records t0 llm).1)
         (rows0 ++ Classify.written (Classify.main rate f records t0 llm).2)
       ∧ (∀ out,
            out ∈ Classify.written (Classify.main rate f records t0 llm).2 →
            Classify.out_address out ∉ map Classify.out_address rows0)
       ∧ (NoDup (map Classify.address records) →
          NoDup (map Classify.out_address rows0) →
          NoDup (map Classify.out_address
                   (rows0
                      ++ Classify.written
                           (Classify.main rate f records t0 llm).2)))
       ∧ (Forall well_formed_key records →
          Forall scannable
            (rows0
               ++ Classify.written
                    (Classify.main rate f records t0 llm).2)))
  ∧ (∀ runs,
       Forall (λ r, NoDup (map Classify.address (classify_input r))
                    ∧ Forall well_formed_key (classify_input r)) runs →
       holds (classify_lifetime None runs).1 (classify_lifetime None runs).2
       ∧ NoDup (map Classify.out_address (classify_lifetime None runs).2)).
Proof.
  split_and!.
  - intros rate f records t0 replies st evs. apply fetch_run_resumes.
  - intros rate runs rows. apply fetch_lifetime_NoDup; [done|constructor].
  - intros rate f rows0 records t0 llm. apply classify_run_resumes.
  - intros runs Hruns.
    apply (classify_lifetime_NoDup None [] runs); try done.
    + by right.
    + constructor.
Qed.

Lemma C2_witness :
  (∃ st evs,
     GetCode.main 3
       (Some (GetCode.Headed
                [fetched_row (Ex.addr_row "0xA1") "contract C { uint x; }"]))
       [Ex.addr_row "0xA2"; Ex.addr_row "0xA1"] 0 [Ex.verified 120]
     = Some (st, evs)
     ∧ GetCode.file st
       = [fetched_row (Ex.addr_row "0xA1") "contract C { uint x; }";
          fetched_row (Ex.addr_row "0xA2") "contract C { uint x; }"]
     ∧ GetCode.file st
       = GetCode.createCsvWriter
           (Some (GetCode.Headed
                    [fetched_row (Ex.addr_row "0xA1")
                       "contract C { uint x; }"]))
           ++ GetCode.written evs)
  ∧ holds
      (Classify.file
         (Classify.main Classify.REQUESTS_PER_SECOND None
            [Ex.code_row "0xA" Ex.poem; Ex.code_row "0xB" "short"]
            5000 Ex.critic).1)
      ([] ++ Classify.written
               (Classify.main Classify.REQUESTS_PER_SECOND None
                  [Ex.code_row "0xA" Ex.poem; Ex.code_row "0xB" "short"]
                  5000 Ex.critic).2)
  ∧ NoDup
      (map Classify.out_address
         (classify_lifetime None [Ex.a_run; Ex.a_run]).2).
Proof.
  split; [|split].
  - eexists _, _. split; [vm_compute; reflexivity|].
    split; [reflexivity|].
    eapply (proj1 C2_no_second_row_for_a_key 3
              (Some (GetCode.Headed
                       [fetched_row (Ex.addr_row "0xA1")
                          "contract C { uint x; }"]))
              [Ex.addr_row "0xA2"; Ex.addr_row "0xA1"] 0 [Ex.verified 120]).
    + exact I.
    + vm_compute. reflexivity.
  - apply (proj1 (proj2 (proj2 C2_no_second_row_for_a_key))
             Classify.REQUESTS_PER_SECOND None []
             [Ex.code_row "0xA" Ex.poem; Ex.code_row "0xB" "short"]
             5000 Ex.critic).
    + right. split; reflexivity.
    + constructor.
  - apply (proj2 (proj2 (proj2 C2_no_second_row_for_a_key))
             [Ex.a_run; Ex.a_run]).
    repeat constructor;
      try (apply (bool_decide_eq_true_1 _); vm_compute; reflexivity);
      try discriminate.
Defined.

(** C2 as stated fails in both stages.  In the classify stage two runs
    over a record whose address holds a comma write two rows for it: the
    writer puts the address in quotes, and the scan of the second run, which
    cuts the line at every comma, reads another string.  In the fetch stage
    two runs that start on an output file that exists and is empty write
    two rows for the same address: the file gets no header, and the reader
    takes the row of the first run for one. *)
Lemma C2_counterexample :
  map Classify.out_address
    (classify_lifetime None [Ex.comma_run; Ex.comma_run]).2
  = ["a,b"; "a,b"]%string
  ∧ Classify.loadProcessed
      (classify_lifetime None [Ex.comma_run]).1
    = {[String Js.DQUOTE "a"]}
  ∧ fmap (map GetCode.out_address)
      (fetch_lifetime GetCode.REQUESTS_PER_SECOND (Some (GetCode.Bare []))
         [Ex.one_fetch; Ex.one_fetch])
    = Some ["0xA1"; "0xA1"]%string
  ∧ GetCode.getProcessedAddresses
      (Some (GetCode.Bare
               [fetched_row (Ex.addr_row "0xA1") "contract C { uint x; }"]))
    = ∅.
Proof. split_and!; reflexivity. Qed.

End ResumptionClaims.

(** * Further properties *)

(** ** White space, separators and escapes *)

Lemma trimStart_head c s :
  Js.is_ws c = false → Js.trimStart (String c s) = String c s.
Proof. intros Hc. simpl. by rewrite Hc. Qed.

Lemma trimStart_idem s : Js.trimStart (Js.trimStart s) = Js.trimStart s.
Proof.
  induction s as [|c s IH]; [done|]. simpl.
  destruct (Js.is_ws c) eqn:Hc; [done|]. simpl. by rewrite Hc.
Qed.

Lemma trimEnd_idem s : Js.trimEnd (Js.trimEnd s) = Js.trimEnd s.
Proof.
  induction s as [|c s IH]; [done|]. simpl.
  destruct (Js.trimEnd s) as [|c' t] eqn:Ht.
  - destruct (Js.is_ws c) eqn:Hc; [done|]. simpl. by rewrite Hc.
  - change (Js.trimEnd (String c (String c' t)))
      with (match Js.trimEnd (String c' t) with
            | EmptyString =>
                if Js.is_ws c then EmptyString else String c EmptyString
            | t' => String c t'
            end).
    rewrite IH. done.
Qed.

Lemma trim_commute s :
  Js.trimStart (Js.trimEnd s) = Js.trimEnd (Js.trimStart s).
Proof.
  induction s as [|c s IH]; [done|].
  destruct (Js.is_ws c) eqn:Hc.
  - simpl. rewrite Hc. rewrite <- IH.
    destruct (Js.trimEnd s) as [|c' t]; [done|]. simpl. by rewrite Hc.
  - rewrite trimStart_head by done. rewrite trimEnd_cons by done.
    by rewrite trimStart_head.
Qed.

Lemma trim_idem s : Js.trim (Js.trim s) = Js.trim s.
Proof.
  unfold Js.trim.
  by rewrite trim_commute, trimEnd_idem, trimStart_idem.
Qed.

Lemma trim_trimEnd s : Js.trim (Js.trimEnd s) = Js.trim s.
Proof. unfold Js.trim. by rewrite trim_commute, trimEnd_idem. Qed.

Lemma trim_trimStart s : Js.trim (Js.trimStart s) = Js.trim s.
Proof. unfold Js.trim. by rewrite trimStart_idem. Qed.

Lemma lacks_occurrences c s : lacks c s = true ↔ occurrences c s = 0%nat.
Proof.
  induction s as [|c' s IH]; simpl; [done|].
  destruct (Ascii.eqb c' c); simpl; [split; [done|lia]|done].
Qed.

Lemma occurrences_trimStart c s :
  Js.is_ws c = false → occurrences c (Js.trimStart s) = occurrences c s.
Proof.
  intros Hc. induction s as [|c' s IH]; [done|]. simpl.
  destruct (Js.is_ws c') eqn:Hc'; [|done]. rewrite IH.
  destruct (Ascii.eqb_spec c' c) as [->|]; [congruence|done].
Qed.

Lemma occurrences_trimEnd c s :
  Js.is_ws c = false → occurrences c (Js.trimEnd s) = occurrences c s.
Proof.
  intros Hc. induction s as [|c' s IH]; [done|]. simpl.
  destruct (Js.trimEnd s) as [|c'' t] eqn:Ht.
  - simpl in IH. rewrite <- IH.
    destruct (Js.is_ws c') eqn:Hc'; simpl; [|lia].
    destruct (Ascii.eqb_spec c' c) as [->|]; [congruence|done].
  - simpl. simpl in IH. by rewrite IH.
Qed.

Lemma occurrences_trim c s :
  Js.is_ws c = false → occurrences c (Js.trim s) = occurrences c s.
Proof.
  intros Hc. unfold Js.trim.
  by rewrite occurrences_trimEnd, occurrences_trimStart.
Qed.

Lemma split_length sep s :
  length (Js.split sep s) = S (occurrences sep s).
Proof.
  induction s as [|c s IH]; [done|]. simpl.
  destruct (Ascii.eqb c sep); simpl; [by rewrite IH|].
  destruct (Js.split sep s) as [|w ws]; [done|]. simpl in *. lia.
Qed.

Lemma lacks_trimEnd c s : lacks c s = true → lacks c (Js.trimEnd s) = true.
Proof.
  induction s as [|c' s IH]; [done|]. simpl.
  intros [Hc Hs]%andb_true_iff. specialize (IH Hs).
  destruct (Js.trimEnd s) as [|c'' t].
  - destruct (Js.is_ws c'); [done|]. simpl. by rewrite Hc.
  - simpl. simpl in IH. by rewrite Hc, IH.
Qed.

Lemma lacks_trim c s : lacks c s = true → lacks c (Js.trim s) = true.
Proof. intros H. by apply lacks_trimEnd, lacks_trimStart. Qed.

Lemma escapeNewlines_no_LF s : lacks Js.LF (Js.escapeNewlines s) = true.
Proof.
  assert (∀ n s, (String.length s ≤ n)%nat →
                 lacks Js.LF (Js.escapeNewlines s) = true) as H.
  { clear s. induction n as [|n IH]; intros [|c s] Hn; simpl in *;
      try done; try lia.
    destruct (Ascii.eqb_spec c Js.LF) as [->|Hlf].
    - simpl. apply IH. lia.
    - destruct (Ascii.eqb_spec c Js.CR) as [->|Hcr].
      + destruct s as [|c' s]; [done|].
        destruct (Ascii.eqb_spec c' Js.LF) as [->|Hlf'].
        * simpl. apply IH. simpl in Hn. lia.
        * change (lacks Js.LF (String Js.CR (Js.escapeNewlines (String c' s))))
            with (lacks Js.LF (Js.escapeNewlines (String c' s))).
          apply IH. lia.
      + change (negb (Ascii.eqb c Js.LF)
                && lacks Js.LF (Js.escapeNewlines s) = true).
        rewrite (proj2 (Ascii.eqb_neq c Js.LF) Hlf). simpl. apply IH. lia. }
  by apply (H (String.length s)).
Qed.

(** ** The fetch stage *)

Section MoreFetch.
Import GetCode.

Lemma fetch_verdict_clean r src :
  fetch_verdict r = Some src → clean_source src.
Proof.
  unfold fetch_verdict, clean_source.
  destruct (body r) as [| |m [[|[s|] l]|]]; try done.
  destruct (Js.truthy (Js.trim s)) eqn:Ht; simpl; [|done].
  destruct (String.eqb_spec (Js.trim s) "0x") as [|Hne]; simpl; [done|].
  intros [= <-]. split_and!; [|done|apply trim_idem].
  intros Heq. by rewrite Heq in Ht.
Qed.

Lemma fetch_inversion addr script t f :
  fetchContractSource addr script t = Some f →
  ∃ ts d,
    script = ts ++ d :: rest f
    ∧ Forall (λ r, fetch_transient r = true) ts
    ∧ fetch_transient d = false
    ∧ sourceCode f = fetch_verdict d
    ∧ returned_at f = t + retry_time ts + latency d
    ∧ length (request_times (did f)) = S (length ts).
Proof.
  revert t f. induction script as [|r script IH]; intros t f; [done|].
  destruct (fetch_transient r) eqn:Hr.
  - rewrite fetch_on_transient by done.
    destruct (fetchContractSource addr script _) as [f'|] eqn:Hf'; [|done].
    simpl. intros [= <-]. simpl.
    destruct (IH _ _ Hf') as (ts & d & -> & Hts & Hd & Hsrc & Hret & Hlen).
    exists (r :: ts), d. split_and!; try done.
    + by constructor.
    + rewrite Hret. simpl. lia.
    + unfold request_times in *. simpl. by rewrite Hlen.
  - rewrite fetch_on_verdict by done. intros [= <-]. simpl.
    exists [], r. split_and!; try done. simpl. lia.
Qed.

Lemma fetch_backoff_least r : 3000 ≤ fetch_backoff r.
Proof. unfold fetch_backoff. destruct (body r); lia. Qed.

Lemma fetch_spaced addr script t f :
  Forall (λ r, 0 ≤ latency r) script →
  fetchContractSource addr script t = Some f →
  spaced 3000 (request_times (did f)).
Proof.
  revert t f. induction script as [|r script IH]; intros t f Hlat; [done|].
  apply Forall_cons in Hlat as [Hr Hlat].
  destruct (fetch_transient r) eqn:Htr.
  - rewrite fetch_on_transient by done.
    destruct (fetchContractSource addr script _) as [f'|] eqn:Hf'; [|done].
    simpl. intros [= <-]. simpl.
    destruct (fetch_did_first_request _ _ _ _ Hf') as [more Hmore].
    pose proof (IH _ _ Hlat Hf') as Hsp.
    unfold request_times in *. simpl. rewrite Hmore in *.
    split; [|done]. pose proof (fetch_backoff_least r). lia.
  - rewrite fetch_on_verdict by done. by intros [= <-].
Qed.

Lemma fetch_requested addr script t f :
  fetchContractSource addr script t = Some f →
  Forall (λ a, a = addr) (requested (did f)).
Proof.
  revert t f. induction script as [|r script IH]; intros t f; [done|].
  destruct (fetch_transient r) eqn:Htr.
  - rewrite fetch_on_transient by done.
    destruct (fetchContractSource addr script _) as [f'|] eqn:Hf'; [|done].
    simpl. intros [= <-]. simpl. constructor; [done|]. by eapply IH.
  - rewrite fetch_on_verdict by done. intros [= <-]. simpl.
    by repeat constructor.
Qed.

Lemma requested_app (evs1 evs2 : list Event) :
  requested (evs1 ++ evs2) = requested evs1 ++ requested evs2.
Proof. apply omap_app. Qed.

(** What one iteration does, by the record it meets. *)
Lemma step_cases rate st row st' evs :
  step rate st row = Some (st', evs) →
  (address row ∈ processedAddresses st
   ∧ st' = st ∧ evs = [LogSkip (address row)])
  ∨ ((address row ∉ processedAddresses st)
     ∧ ∃ f,
         fetchContractSource (address row) (script st)
           (throttle rate st).1.1.1 = Some f
         ∧ fetch_times evs = [(throttle rate st).1.1.1]
         ∧ request_times evs = request_times (did f)
         ∧ requested evs = requested (did f)
         ∧ script st' = rest f
         ∧ now st' = returned_at f
         ∧ startTime st' = (throttle rate st).1.1.2
         ∧ callCount st' = (throttle rate st).1.2
         ∧ match sourceCode f with
           | Some src =>
               written evs = [fetched_row row src]
               ∧ file st' = file st ++ [fetched_row row src]
               ∧ processedAddresses st'
                 = {[address row]} ∪ processedAddresses st
           | None =>
               written evs = []
               ∧ file st' = file st
               ∧ processedAddresses st' = processedAddresses st
           end).
Proof.
  intros Hstep.
  destruct (decide (address row ∈ processedAddresses st)) as [Hin|Hnew].
  - left. rewrite step_skip in Hstep by done. by injection Hstep as <- <-.
  - right. split; [done|].
    pose proof Hstep as Hstep0.
    rewrite step_fetch in Hstep by done.
    destruct (throttle rate st) as [[[now1 startTime1] callCount2] waited]
      eqn:Hthr.
    simpl in Hstep.
    destruct (fetchContractSource _ _ now1) as [f|] eqn:Hf; [|done].
    simpl in Hstep. exists f. simpl. split; [done|].
    destruct (throttle_waited rate st) as (Hw1 & Hw2 & Hw3).
    rewrite Hthr in Hw1, Hw2, Hw3. simpl in Hw1, Hw2, Hw3.
    assert (requested waited = []) as Hw4.
    { unfold throttle in Hthr.
      destruct (rate <? callCount st + 1); [|by injection Hthr as <- <- <- <-].
      destruct (now st - startTime st <? 1000);
        by injection Hthr as <- <- <- <-. }
    pose proof (fetch_did_written _ _ _ _ Hf) as Hd1.
    pose proof (fetch_did_fetch_times _ _ _ _ Hf) as Hd2.
    destruct (sourceCode f) as [src|]; injection Hstep as <- <-; simpl;
      rewrite fetch_times_app, request_times_did_app, requested_app,
        written_app, Hw1, Hw2, Hw3, Hw4; simpl;
      rewrite fetch_times_app, request_times_did_app, requested_app,
        written_app, Hd1, Hd2; simpl;
      rewrite !app_nil_r; done.
Qed.

Lemma loop_cons rate st row records st' evs :
  loop rate st (row :: records) = Some (st', evs) →
  ∃ st1 evs1 evs2,
    step rate st row = Some (st1, evs1)
    ∧ loop rate st1 records = Some (st', evs2)
    ∧ evs = evs1 ++ evs2.
Proof.
  simpl. destruct (step rate st row) as [[st1 evs1]|]; [|done]. simpl.
  destruct (loop rate st1 records) as [[st2 evs2]|] eqn:Hloop; [|done].
  simpl. intros [= <- <-]. by exists st1, evs1, evs2.
Qed.

Lemma loop_ledger rate st records st' evs :
  loop rate st records = Some (st', evs) →
  processedAddresses st = list_to_set (map out_address (file st)) →
  processedAddresses st' = list_to_set (map out_address (file st')).
Proof.
  revert st st' evs. induction records as [|row records IH];
    intros st st' evs.
  { by intros [= <- <-]. }
  intros (st1 & evs1 & evs2 & Hstep & Hloop & ->)%loop_cons Hst.
  apply (IH _ _ _ Hloop).
  destruct (step_cases _ _ _ _ _ Hstep) as [(_ & -> & _)|(_ & f & Hcase)];
    [done|].
  destruct Hcase as (_ & _ & _ & _ & _ & _ & _ & _ & Hout).
  destruct (sourceCode f) as [src|].
  - destruct Hout as (_ & -> & ->).
    rewrite map_app, list_to_set_app_L, Hst. simpl.
    rewrite (right_id_L ∅ (∪)). apply (comm_L (∪)).
  - destruct Hout as (_ & -> & ->). done.
Qed.

Lemma loop_requested rate st records st' evs :
  loop rate st records = Some (st', evs) →
  Forall (λ a, a ∈ map address records ∧ a ∉ processedAddresses st)
    (requested evs).
Proof.
  revert st st' evs. induction records as [|row records IH];
    intros st st' evs.
  { intros [= <- <-]. constructor. }
  intros (st1 & evs1 & evs2 & Hstep & Hloop & ->)%loop_cons.
  rewrite requested_app. apply Forall_app. split.
  - destruct (step_cases _ _ _ _ _ Hstep) as [(_ & _ & ->)|(Hnew & f & Hcase)];
      [constructor|].
    destruct Hcase as (Hf & _ & _ & -> & _).
    eapply Forall_impl; [by eapply fetch_requested|].
    simpl. intros a ->. split; [apply elem_of_cons; by left|done].
  - eapply Forall_impl; [by eapply IH|]. simpl.
    intros a [Ha Hnot]. split; [apply elem_of_cons; by right|].
    intros Hin. apply Hnot.
    destruct (step_written_cases _ _ _ _ _ Hstep)
      as [(_ & _ & ->)|(out & _ & _ & _ & _ & ->)]; [done|].
    by apply elem_of_union_r.
Qed.

Lemma loop_all_processed rate st records :
  Forall (λ row, address row ∈ processedAddresses st) records →
  loop rate st records
  = Some (st, map (λ row, LogSkip (address row)) records).
Proof.
  induction 1 as [|row records Hrow _ IH]; [done|].
  simpl. rewrite step_skip by done. simpl. by rewrite IH.
Qed.

Lemma loop_rows rate st records st' evs :
  loop rate st records = Some (st', evs) →
  map out_address (written evs) `sublist_of` map address records
  ∧ Forall (λ out, ∃ row src, row ∈ records ∧ clean_source src
                              ∧ out = fetched_row row src)
      (written evs).
Proof.
  revert st st' evs. induction records as [|row records IH];
    intros st st' evs.
  { intros [= <- <-]. split; constructor. }
  intros (st1 & evs1 & evs2 & Hstep & Hloop & ->)%loop_cons.
  destruct (IH _ _ _ Hloop) as [Hsub Hrows].
  assert (Forall (λ out, ∃ row src, row ∈ records ∧ clean_source src
                                    ∧ out = fetched_row row src)
            (written evs2) →
          Forall (λ out, ∃ row0 src, row0 ∈ row :: records ∧ clean_source src
                                     ∧ out = fetched_row row0 src)
            (written evs2)) as Hweak.
  { intros H. eapply Forall_impl; [exact H|].
    intros out (row0 & src & Hin & Hsrc & ->).
    exists row0, src. split_and!; [apply elem_of_cons; by right|done|done]. }
  rewrite written_app.
  destruct (step_cases _ _ _ _ _ Hstep) as [(_ & _ & ->)|(_ & f & Hcase)].
  { simpl. split; [by apply sublist_cons|by apply Hweak]. }
  destruct Hcase as (Hf & _ & _ & _ & _ & _ & _ & _ & Hout).
  destruct (sourceCode f) as [src|] eqn:Hsrc.
  - destruct Hout as (-> & _). simpl. split; [by apply sublist_skip|].
    constructor; [|by apply Hweak].
    exists row, src. split_and!; [apply elem_of_cons; by left| |done].
    destruct (fetch_inversion _ _ _ _ Hf) as (ts & d & _ & _ & _ & Hv & _).
    apply (fetch_verdict_clean d). by rewrite <- Hv.
  - destruct Hout as (-> & _). simpl.
    split; [by apply sublist_cons|by apply Hweak].
Qed.

Lemma step_paced rate t0 st n row st' evs :
  1 ≤ rate →
  paced rate t0 st n →
  step rate st row = Some (st', evs) →
  (fetch_times evs = [] ∧ paced rate t0 st' n)
  ∨ (∃ t, fetch_times evs = [t]
          ∧ t0 + 1000 * (Z.of_nat n / rate) ≤ t
          ∧ paced rate t0 st' (S n)).
Proof.
  intros Hrate (w & Hw & Hn & Hc & Hstart & Hnow & Hlat) Hstep.
  destruct (step_cases _ _ _ _ _ Hstep) as [(_ & -> & ->)|(_ & f & Hcase)].
  { left. split; [done|]. by exists w. }
  destruct Hcase as (Hf & Hft & _ & _ & Hscript & Hnow' & Hstart' & Hcc & _).
  right. exists (throttle rate st).1.1.1. split; [done|].
  pose proof (fetch_returned_at _ _ _ _ Hlat Hf) as Hret.
  pose proof (fetch_rest_latency _ _ _ _ Hlat Hf) as Hrest.
  destruct (throttle_cases rate st Hc)
    as [Hge [[Hlt Heq]|(Hfull & Hwin & Heq)]].
  - rewrite Heq in *. simpl in *. split.
    + assert (Z.of_nat n / rate = w) as ->; [|lia].
      symmetry. apply (Z.div_unique _ _ _ (callCount st)); lia.
    + exists w. rewrite Hcc, Hstart', Hnow', Hscript.
      split_and!; try done; lia.
  - rewrite Heq in *. simpl in *. split.
    + assert (Z.of_nat n / rate = w + 1) as ->; [|lia].
      symmetry. apply (Z.div_unique _ _ _ 0); lia.
    + exists (w + 1). rewrite Hcc, Hstart', Hnow', Hscript.
      split_and!; try done; lia.
Qed.

Lemma loop_paced rate t0 st n records st' evs :
  1 ≤ rate →
  paced rate t0 st n →
  loop rate st records = Some (st', evs) →
  ∀ k t, fetch_times evs !! k = Some t →
         t0 + 1000 * (Z.of_nat (n + k) / rate) ≤ t.
Proof.
  intros Hrate. revert st n st' evs.
  induction records as [|row records IH]; intros st n st' evs Hp.
  { by intros [= <- <-] k t. }
  intros (st1 & evs1 & evs2 & Hstep & Hloop & ->)%loop_cons k t.
  rewrite fetch_times_app.
  destruct (step_paced _ _ _ _ _ _ _ Hrate Hp Hstep)
    as [[-> Hp1]|(t1 & -> & Ht1 & Hp1)]; simpl.
  - by apply (IH _ _ _ _ Hp1 Hloop).
  - destruct k as [|k]; simpl.
    + intros [= <-]. by rewrite Nat.add_0_r.
    + intros Hk. pose proof (IH _ _ _ _ Hp1 Hloop k t Hk) as Hle.
      by replace (n + S k)%nat with (S n + k)%nat by lia.
Qed.

(** X1 (the source the adapter returns).  Whatever the explorer replies, a
    source that [fetchContractSource] returns is not empty, is not the bare
    prefix 0x, and has no white space at either end. *)
Theorem fetch_source_is_clean addr script t f src :
  fetchContractSource addr script t = Some f →
  sourceCode f = Some src →
  src ≠ ""%string ∧ src ≠ "0x"%string ∧ Js.trim src = src.
Proof.
  intros Hf Hsrc.
  destruct (fetch_inversion _ _ _ _ Hf) as (ts & d & _ & _ & _ & Hv & _).
  apply (fetch_verdict_clean d). by rewrite <- Hv.
Qed.

Lemma fetch_source_is_clean_witness :
  ∃ f src,
    fetchContractSource "0xA1"
      [Ex.throttled 50;
       {| latency := 70;
          body := Json "OK" (Some [Some "  contract C { }  "%string]) |}]
      0 = Some f
    ∧ sourceCode f = Some src
    ∧ src = "contract C { }"%string
    ∧ src ≠ ""%string ∧ src ≠ "0x"%string ∧ Js.trim src = src.
Proof.
  eexists _, _. split; [vm_compute; reflexivity|].
  split; [reflexivity|]. split; [reflexivity|].
  eapply (fetch_source_is_clean "0xA1"
            [Ex.throttled 50;
             {| latency := 70;
                body := Json "OK" (Some [Some "  contract C { }  "%string]) |}]
            0); vm_compute; reflexivity.
Defined.

(** X2 (when the adapter returns).  A call of [fetchContractSource] that
    returns has read a run of transient replies and then one reply that is
    not transient, and nothing after it; it has made one request for each
    of them, returns the verdict of the last one, and does so at the time
    of the call plus the latencies and the waits. *)
Theorem fetch_returns_on_first_definitive_reply addr script t f :
  fetchContractSource addr script t = Some f →
  ∃ ts d,
    script = ts ++ d :: rest f
    ∧ Forall (λ r, fetch_transient r = true) ts
    ∧ fetch_transient d = false
    ∧ sourceCode f = fetch_verdict d
    ∧ returned_at f = t + retry_time ts + latency d
    ∧ length (request_times (did f)) = S (length ts).
Proof. apply fetch_inversion. Qed.

Lemma fetch_returns_on_first_definitive_reply_witness :
  ∃ f ts d,
    fetchContractSource "0xA1"
      [Ex.unreachable 40; Ex.bad_gateway 50; Ex.unverified 70; Ex.verified 60]
      0 = Some f
    ∧ [Ex.unreachable 40; Ex.bad_gateway 50; Ex.unverified 70;
       Ex.verified 60] = ts ++ d :: rest f
    ∧ Forall (λ r, fetch_transient r = true) ts
    ∧ fetch_transient d = false
    ∧ sourceCode f = fetch_verdict d
    ∧ returned_at f = 0 + retry_time ts + latency d
    ∧ length (request_times (did f)) = S (length ts).
Proof.
  eexists _.
  assert (∀ (A B : Type) (P : A → B → Prop) (Q : Prop),
            Q → (∃ a b, P a b) → ∃ a b, Q ∧ P a b) as Hex.
  { intros A B P Q HQ (a & b & HP). by exists a, b. }
  apply Hex; [vm_compute; reflexivity|].
  apply (fetch_returns_on_first_definitive_reply "0xA1"
           [Ex.unreachable 40; Ex.bad_gateway 50; Ex.unverified 70;
            Ex.verified 60] 0).
  vm_compute. reflexivity.
Defined.

(** X3 (retries keep their distance).  When no reply takes a negative
    time, the requests of one call of [fetchContractSource] are three
    seconds or more apart. *)
Theorem fetch_retries_are_spaced addr script t f :
  Forall (λ r, 0 ≤ latency r) script →
  fetchContractSource addr script t = Some f →
  spaced 3000 (request_times (did f)).
Proof. apply fetch_spaced. Qed.

Lemma fetch_retries_are_spaced_witness :
  spaced 3000 [0; 10040; 13090].
Proof.
  apply (fetch_retries_are_spaced "0xA1"
           [Ex.unreachable 40; Ex.bad_gateway 50; Ex.verified 60] 0
           {| sourceCode := Some "contract C { uint x; }"%string;
              rest := []; returned_at := 13150;
              did := [Request 0 "0xA1"; Sleep 40 10000;
                      Request 10040 "0xA1"; Sleep 10090 3000;
                      Request 13090 "0xA1"] |}).
  - repeat (constructor; [simpl; lia|]). constructor.
  - vm_compute. reflexivity.
Defined.

Lemma column_none name names cells :
  Forall (λ n, n ≠ name) names → column name names cells = None.
Proof.
  intros Hall. revert cells.
  induction Hall as [|n names Hn _ IH]; intros [|c cells]; try done.
  simpl. rewrite IH. by rewrite (proj2 (String.eqb_neq n name)).
Qed.

Lemma no_address_column names rows :
  Forall (λ n, n ≠ "address"%string) names →
  omap (λ row, column "address" names (cells row)) rows = [].
Proof.
  intros Hall. induction rows as [|row rows IH]; [done|].
  change (omap (λ row, column "address" names (cells row)) (row :: rows))
    with (match column "address" names (cells row) with
          | Some a =>
              a :: omap (λ row, column "address" names (cells row)) rows
          | None => omap (λ row, column "address" names (cells row)) rows
          end).
  by rewrite column_none, IH.
Qed.

(** X4 (the set in memory is the ledger of the file).  On an output file
    that does not exist or holds its header, at the end of a run of the
    fetch stage, and so after every record of it, the set of processed
    addresses is the set [getProcessedAddresses] reads off the file: a run
    that starts on the file as it is then skips what this run skips from
    there on.  On a file that exists without its header the reader takes
    the first row for the header: unless a cell of that row is the word
    address, the set read off the file holds no address, whatever rows
    follow. *)
Theorem fetch_ledger_matches_file :
  (∀ rate f records t0 replies st evs,
     with_header f →
     main rate f records t0 replies = Some (st, evs) →
     processedAddresses st
     = getProcessedAddresses (Some (appended f (file st))))
  ∧ (∀ first rows,
       Forall (λ cell, cell ≠ "address"%string) (cells first) →
       getProcessedAddresses (Some (Bare (first :: rows))) = ∅).
Proof.
  split.
  - intros rate f records t0 replies st evs Hhead Hmain.
    rewrite (getProcessedAddresses_with_header (Some (appended f (file st))))
      by by apply with_header_appended.
    rewrite createCsvWriter_appended.
    apply (loop_ledger _ _ _ _ _ Hmain). simpl.
    by apply getProcessedAddresses_with_header.
  - intros first rows Hcells. unfold getProcessedAddresses.
    change (parsed (Bare (first :: rows))) with (cells first, rows).
    cbn [fst snd]. by rewrite no_address_column.
Qed.

Lemma fetch_ledger_matches_file_witness :
  (∃ st evs,
     main 3 None [Ex.addr_row "0xA1"; Ex.addr_row "0xA2"] 0
       [Ex.verified 70; Ex.unverified 60] = Some (st, evs)
     ∧ processedAddresses st
       = getProcessedAddresses (Some (appended None (file st))))
  ∧ getProcessedAddresses
      (Some (Bare [fetched_row (Ex.addr_row "0xA1") "contract C { }";
                   fetched_row (Ex.addr_row "0xA2") "contract C { }"]))
    = ∅.
Proof.
  split.
  - eexists _, _. split; [vm_compute; reflexivity|].
    eapply (proj1 fetch_ledger_matches_file 3 None
              [Ex.addr_row "0xA1"; Ex.addr_row "0xA2"] 0
              [Ex.verified 70; Ex.unverified 60] _ _).
    + exact I.
    + vm_compute. reflexivity.
  - apply (proj2 fetch_ledger_matches_file).
    repeat (constructor; [discriminate|]). constructor.
Defined.

(** X5 (no request for a processed address).  On an output file that does
    not exist or holds its header, every request of a run of the fetch
    stage is for an address of the input that has no row in the file the
    run started on.  On any file, when the reader finds every address of
    the input in it, the run ends whatever the explorer would reply: it
    logs a skip for each record, makes no request and leaves the rows of
    the file as they are. *)
Theorem fetch_requests_only_new :
  (∀ rate f records t0 replies st evs,
     with_header f →
     main rate f records t0 replies = Some (st, evs) →
     ∀ a, a ∈ requested evs →
          a ∈ map address records
          ∧ a ∉ map out_address (createCsvWriter f))
  ∧ (∀ rate f records t0 replies,
       Forall (λ row, address row ∈ getProcessedAddresses f) records →
       ∃ st,
         main rate f records t0 replies
         = Some (st, map (λ row, LogSkip (address row)) records)
         ∧ file st = createCsvWriter f).
Proof.
  split.
  - intros rate f records t0 replies st evs Hhead Hmain a Ha.
    pose proof (loop_requested _ _ _ _ _ Hmain) as Hall.
    destruct (proj1 (Forall_forall _ _) Hall a Ha) as [Hin Hnot].
    split; [done|]. intros Hrow. apply Hnot. simpl.
    rewrite getProcessedAddresses_with_header by done.
    by apply elem_of_list_to_set.
  - intros rate f records t0 replies Hall. eexists. split.
    + unfold main. by apply loop_all_processed.
    + done.
Qed.

Lemma fetch_requests_only_new_witness :
  (∃ st evs,
     main 3
       (Some (Headed [fetched_row (Ex.addr_row "0xA1") "contract C { }"]))
       [Ex.addr_row "0xA1"; Ex.addr_row "0xA2"] 0 [Ex.verified 70]
     = Some (st, evs)
     ∧ requested evs = ["0xA2"]%string
     ∧ ∀ a, a ∈ requested evs →
            a ∈ map address [Ex.addr_row "0xA1"; Ex.addr_row "0xA2"]
            ∧ a ∉ map out_address
                    (createCsvWriter
                       (Some (Headed [fetched_row (Ex.addr_row "0xA1")
                                        "contract C { }"]))))
  ∧ ∃ st,
      main 3
        (Some (Headed [fetched_row (Ex.addr_row "0xA1") "contract C { }"]))
        [Ex.addr_row "0xA1"; Ex.addr_row "0xA1"] 0 []
      = Some (st, [LogSkip "0xA1"; LogSkip "0xA1"])
      ∧ file st = [fetched_row (Ex.addr_row "0xA1") "contract C { }"].
Proof.
  split.
  - eexists _, _. split; [vm_compute; reflexivity|]. split; [reflexivity|].
    eapply (proj1 fetch_requests_only_new 3
              (Some (Headed
                       [fetched_row (Ex.addr_row "0xA1") "contract C { }"]))
              [Ex.addr_row "0xA1"; Ex.addr_row "0xA2"] 0 [Ex.verified 70]).
    + exact I.
    + vm_compute. reflexivity.
  - apply (proj2 fetch_requests_only_new 3
             (Some (Headed
                      [fetched_row (Ex.addr_row "0xA1") "contract C { }"]))
             [Ex.addr_row "0xA1"; Ex.addr_row "0xA1"] 0 []).
    repeat constructor;
      apply (bool_decide_eq_true_1 _); vm_compute; reflexivity.
Defined.

(** X6 (the rows of a run).  The rows a run of the fetch stage writes
    follow the order of the input: their addresses are a subsequence of the
    addresses of the input.  Every row holds the columns of its record and,
    as its code, a source the adapter returned with its line breaks
    escaped: a code that is not empty and holds no line feed. *)
Theorem fetch_rows_follow_input rate f records t0 replies st evs :
  main rate f records t0 replies = Some (st, evs) →
  map out_address (written evs) `sublist_of` map address records
  ∧ ∀ out, out ∈ written evs →
      (∃ row, row ∈ records
              ∧ out_block_number out = block_number row
              ∧ out_address out = address row
              ∧ out_is_erc20 out = is_erc20 row
              ∧ out_is_erc721 out = is_erc721 row)
      ∧ out_code out ≠ ""%string
      ∧ lacks Js.LF (out_code out) = true.
Proof.
  intros Hmain. destruct (loop_rows _ _ _ _ _ Hmain) as [Hsub Hrows].
  split; [done|]. intros out Hout.
  destruct (proj1 (Forall_forall _ _) Hrows out Hout)
    as (row & src & Hrow & (Hne & _) & ->).
  split_and!.
  - by exists row.
  - by apply escapeNewlines_nonempty.
  - apply escapeNewlines_no_LF.
Qed.

Lemma fetch_rows_follow_input_witness :
  ∃ st evs,
    main 3 None [Ex.addr_row "0xA1"; Ex.addr_row "0xA2"; Ex.addr_row "0xA3"]
      0 [Ex.verified 70; Ex.unverified 60; Ex.verified 50] = Some (st, evs)
    ∧ map out_address (written evs) = ["0xA1"; "0xA3"]%string
    ∧ map out_address (written evs)
        `sublist_of` ["0xA1"; "0xA2"; "0xA3"]%string.
Proof.
  eexists _, _. split; [vm_compute; reflexivity|]. split; [reflexivity|].
  eapply (fetch_rows_follow_input 3 None
           [Ex.addr_row "0xA1"; Ex.addr_row "0xA2"; Ex.addr_row "0xA3"]
           0 [Ex.verified 70; Ex.unverified 60; Ex.verified 50] _ _).
  vm_compute. reflexivity.
Defined.

(** X7 (the pace of a run).  For a rate of one or more and latencies that
    are not negative, the call number k of the adapter in a run, counted
    from zero, is made no sooner than the whole part of k / rate seconds
    after the start of the run: in the first m seconds of a run the
    adapter is called m times the rate at most. *)
Theorem fetch_pace rate f records t0 replies st evs :
  1 ≤ rate →
  Forall (λ r, 0 ≤ latency r) replies →
  main rate f records t0 replies = Some (st, evs) →
  ∀ k t, fetch_times evs !! k = Some t →
         t0 + 1000 * (Z.of_nat k / rate) ≤ t.
Proof.
  intros Hrate Hlat Hmain k t Hk.
  eapply (loop_paced rate t0 _ 0%nat) in Hmain; [exact Hmain|done| |exact Hk].
  exists 0. simpl. split_and!; try done; lia.
Qed.

Lemma fetch_pace_witness :
  ∃ st evs,
    main 3 None Ex.six 0 (replicate 6 (Ex.verified 10)) = Some (st, evs)
    ∧ fetch_times evs = [0; 10; 20; 1000; 1010; 1020]
    ∧ 0 + 1000 * (Z.of_nat 3 / 3) ≤ 1000.
Proof.
  eexists _, _. split; [vm_compute; reflexivity|]. split; [reflexivity|].
  eapply (fetch_pace 3 None Ex.six 0 (replicate 6 (Ex.verified 10)) _ _).
  - lia.
  - repeat (constructor; [simpl; lia|]). constructor.
  - vm_compute. reflexivity.
  - reflexivity.
Defined.

End MoreFetch.

(** ** The classification adapter *)

Section MoreAdapter.
Import Classify.

Lemma split_fields_lack sep s :
  Forall (λ w, lacks sep w = true) (Js.split sep s).
Proof.
  induction s as [|c s IH]; simpl; [by repeat constructor|].
  destruct (Ascii.eqb c sep) eqn:Hc; [by constructor|].
  destruct (Js.split sep s) as [|w ws].
  { repeat constructor. simpl. by rewrite Hc. }
  apply Forall_cons in IH as [Hw Hws].
  constructor; [|done]. simpl. by rewrite Hc, Hw.
Qed.

Lemma annotation_cases r :
  getArtisticScoreAndReason r = null_annotation
  ∨ ∃ n why,
      getArtisticScoreAndReason r = {| score := Some n; reason := why |}
      ∧ 1 ≤ n ≤ 3 ∧ Js.trim why = why ∧ lacks "|" why = true.
Proof.
  unfold getArtisticScoreAndReason.
  destruct (body r) as [|text]; [by left|].
  pose proof (split_fields_lack "|" (Js.trim text)) as Hlack.
  destruct (Js.split "|" (Js.trim text)) as [|w0 [|w1 [|w2 ws]]]; simpl;
    try by left.
  destruct (Js.parseInt (Js.trim w0)) as [n|]; [|by left].
  destruct (n <? 1) eqn:H1; [by left|].
  destruct (3 <? n) eqn:H3; [by left|]. simpl.
  apply Z.ltb_ge in H1, H3. right. exists n, (Js.trim w1).
  split_and!; [done|lia|lia|apply trim_idem|].
  apply lacks_trim.
  apply Forall_cons in Hlack as [_ Hlack].
  by apply Forall_cons in Hlack as [Hlack _].
Qed.

Lemma reply_fields_in_format (digit : ascii) why :
  Js.is_ws digit = false → Ascii.eqb digit "|" = false →
  lacks "|" why = true →
  reply_fields (String digit (String " " (String "|" (String " " why))))
  = [String digit ""; Js.trim why].
Proof.
  intros Hws Hpipe Hwhy. unfold reply_fields.
  assert (Js.trim (String digit (String " " (String "|" (String " " why))))
          = String digit (String " " "")
              +:+ String "|" (Js.trimEnd (String " " why))) as ->.
  { unfold Js.trim. rewrite trimStart_head by done.
    change (String digit (String " " (String "|" (String " " why))))
      with (String digit (String " " "") +:+ String "|" (String " " why)).
    by rewrite trimEnd_app. }
  rewrite split_app_sep.
  rewrite (split_lacks "|" (String digit (String " " ""))).
  2: { simpl. by rewrite Hpipe. }
  rewrite (split_lacks "|" (Js.trimEnd (String " " why))).
  2: { by apply lacks_trimEnd. }
  cbn [app map]. rewrite trim_trimEnd.
  assert (Js.trim (String digit " ") = String digit "") as ->.
  { unfold Js.trim. simpl. rewrite Hws. simpl. by rewrite Hws. }
  done.
Qed.

Lemma annotation_of_fields r text :
  body r = Content text →
  getArtisticScoreAndReason r =
    match reply_fields text with
    | [part0; part1] =>
        match Js.parseInt part0 with
        | Some score =>
            if (score <? 1) || (3 <? score) then null_annotation
            else {| score := Some score; reason := part1 |}
        | None => null_annotation
        end
    | _ => null_annotation
    end.
Proof. unfold getArtisticScoreAndReason. by intros ->. Qed.

(** X8 (the range of an annotation).  Whatever the model replies,
    [getArtisticScoreAndReason] returns the null annotation (no score, and
    the empty reason) or a score of 1, 2 or 3 with a reason that has no
    white space at its ends and no vertical bar.  So every row a run of the
    classify stage writes has no score and no reason, or is the row of an
    enrichment with a score of 1, 2 or 3. *)
Theorem annotation_in_range :
  (∀ r,
     getArtisticScoreAndReason r = null_annotation
     ∨ ∃ n why,
         getArtisticScoreAndReason r = {| score := Some n; reason := why |}
         ∧ 1 ≤ n ≤ 3 ∧ Js.trim why = why ∧ lacks "|" why = true)
  ∧ (∀ rate f records t0 llm,
       Forall (λ out,
                 (artistic_score out = None ∧ artistic_reason out = ""%string)
                 ∨ (∃ n, artistic_score out = Some n ∧ 1 ≤ n ≤ 3
                         ∧ duplicate_of_address out = ""%string))
         (written (main rate f records t0 llm).2)).
Proof.
  split; [apply annotation_cases|].
  intros rate f records t0 llm. unfold main.
  apply (cloop_invariant rate llm (λ done st evs,
    Forall (λ out,
              (artistic_score out = None ∧ artistic_reason out = ""%string)
              ∨ (∃ n, artistic_score out = Some n ∧ 1 ≤ n ≤ 3
                      ∧ duplicate_of_address out = ""%string))
      (written evs))); [constructor|].
  intros done st evs row Hall. rewrite cwritten_app.
  apply Forall_app. split; [done|].
  pose proof (cstep_summary rate llm st row) as Hs. simpl in Hs.
  destruct (branch st row).
  - destruct Hs as [_ ->]. constructor.
  - destruct Hs as [-> _]. constructor; [by left|constructor].
  - destruct Hs as [-> _]. constructor; [by left|constructor].
  - destruct Hs as [-> _]. constructor; [|constructor]. simpl.
    destruct (annotation_cases (llm (calls st) (code row)))
      as [->|(n & why & -> & Hn & _)]; [by left|].
    right. by exists n.
Qed.

(** X9 (a reply in the format of the prompt).  A reply that holds a score
    of 1, 2 or 3, a space, a vertical bar, a space and a reason without
    vertical bar is read as that score and the reason, trimmed. *)
Theorem reply_in_format_is_read n why again lat :
  1 ≤ n ≤ 3 →
  lacks "|" why = true →
  getArtisticScoreAndReason
    {| resent := again; latency := lat;
       body := Content (pretty n +:+ " | " +:+ why) |}
  = {| score := Some n; reason := Js.trim why |}.
Proof.
  intros Hn Hwhy.
  rewrite (annotation_of_fields
             {| resent := again; latency := lat;
                body := Content (pretty n +:+ " | " +:+ why) |}
             (pretty n +:+ " | " +:+ why) eq_refl).
  assert (n = 1 ∨ n = 2 ∨ n = 3) as [Hn1 | [Hn1 | Hn1]] by lia; rewrite Hn1.
  - change (pretty 1 +:+ " | " +:+ why)
      with (String "1" (String " " (String "|" (String " " why)))).
    by rewrite reply_fields_in_format.
  - change (pretty 2 +:+ " | " +:+ why)
      with (String "2" (String " " (String "|" (String " " why)))).
    by rewrite reply_fields_in_format.
  - change (pretty 3 +:+ " | " +:+ why)
      with (String "3" (String " " (String "|" (String " " why)))).
    by rewrite reply_fields_in_format.
Qed.

Lemma reply_in_format_is_read_witness :
  getArtisticScoreAndReason
    {| resent := []; latency := 700;
       body := Content (pretty 2 +:+ " | " +:+ "playful, with a verse  ") |}
  = {| score := Some 2; reason := "playful, with a verse" |}.
Proof.
  apply (reply_in_format_is_read 2 "playful, with a verse  " [] 700);
    [lia|reflexivity].
Defined.

(** X10 (one vertical bar).  A reply that holds no vertical bar, or more
    than one, gives the null annotation: a reason that holds a vertical
    bar itself is never recorded. *)
Theorem reply_needs_one_bar r text :
  body r = Content text →
  occurrences "|" text ≠ 1%nat →
  getArtisticScoreAndReason r = null_annotation.
Proof.
  intros Hbody Hbars. unfold getArtisticScoreAndReason. rewrite Hbody.
  pose proof (split_length "|" (Js.trim text)) as Hlen.
  rewrite occurrences_trim in Hlen by done.
  destruct (Js.split "|" (Js.trim text)) as [|w0 [|w1 [|w2 ws]]]; simpl in *;
    try done.
  lia.
Qed.

Lemma reply_needs_one_bar_witness :
  getArtisticScoreAndReason (Ex.says "3 | a poem | or a song" 0%nat Ex.poem)
  = null_annotation.
Proof.
  apply (reply_needs_one_bar _ "3 | a poem | or a song"); [reflexivity|].
  vm_compute. lia.
Defined.

(** X20 (the score is the integer the first field starts with).  The
    adapter reads the score with [parseInt]: a first field that starts with
    one of the digits 1, 2 and 3, followed by nothing or by a character
    that is no digit, gives that digit as the score, whatever else the
    field holds. *)
Theorem score_is_the_leading_integer r text d rest why :
  body r = Content text →
  reply_fields text = [String d rest; why] →
  d = "1"%char ∨ d = "2"%char ∨ d = "3"%char →
  match rest with
  | String c _ => Js.digit c = None
  | EmptyString => True
  end →
  getArtisticScoreAndReason r = {| score := Js.digit d; reason := why |}.
Proof.
  intros Hbody Hfields Hd Hrest.
  rewrite (annotation_of_fields r text Hbody), Hfields.
  assert (Js.digits None rest = None) as Hdigits.
  { destruct rest as [|c rest]; [done|]. simpl. by rewrite Hrest. }
  assert (∀ acc, Js.digits (Some acc) rest = Some acc) as Hacc.
  { intros acc. destruct rest as [|c rest]; [done|]. simpl. by rewrite Hrest. }
  destruct Hd as [-> | [-> | ->]]; unfold Js.parseInt; simpl;
    by rewrite Hacc.
Qed.

Lemma score_is_the_leading_integer_witness :
  getArtisticScoreAndReason (Ex.says "2.5 stars | x" 0%nat Ex.poem)
  = {| score := Js.digit "2"; reason := "x" |}.
Proof.
  apply (score_is_the_leading_integer _ "2.5 stars | x" "2" ".5 stars" "x");
    [reflexivity|reflexivity|tauto|reflexivity].
Defined.

End MoreAdapter.

(** ** The classify stage *)

Section MoreClassify.
Import Classify.

Lemma enrichments_app rows1 rows2 :
  enrichments (rows1 ++ rows2) = enrichments rows1 ++ enrichments rows2.
Proof. apply filter_app. Qed.

Lemma enrichments_placeholder row tag :
  tag ≠ ""%string → enrichments [placeholder row tag] = [].
Proof.
  intros Htag. unfold enrichments. rewrite filter_cons.
  case_decide as H; [simpl in H; done|done].
Qed.

Lemma enrichments_enriched row a :
  enrichments [enriched row a] = [enriched row a].
Proof.
  unfold enrichments. rewrite filter_cons.
  case_decide as H; [done|simpl in H; done].
Qed.

Lemma cloop_count rate llm st0 records :
  let st := (loop rate llm st0 records).1 in
  let evs := (loop rate llm st0 records).2 in
  count st = (count st0 + length (request_times evs))%nat
  ∧ calls st = (calls st0 + length (request_times evs))%nat
  ∧ length (enrichments (written evs)) = length (request_times evs)
  ∧ (length (request_times evs) ≤ length records)%nat
  ∧ (length (request_times evs) ≤ length (sent_times evs))%nat.
Proof.
  simpl.
  apply (cloop_invariant rate llm (λ done st evs,
    count st = (count st0 + length (request_times evs))%nat
    ∧ calls st = (calls st0 + length (request_times evs))%nat
    ∧ length (enrichments (written evs)) = length (request_times evs)
    ∧ (length (request_times evs) ≤ length done)%nat
    ∧ (length (request_times evs) ≤ length (sent_times evs))%nat)).
  { simpl. split_and!; lia. }
  intros done st evs row (Hcount & Hcalls & Henr & Hle & Hsent).
  rewrite cstep_branch, length_app. simpl length.
  destruct (branch st row) as [| |original|] eqn:Hb; simpl;
    rewrite request_times_app, sent_times_app, cwritten_app,
      enrichments_app, !length_app.
  - simpl. split_and!; lia.
  - simpl written. rewrite enrichments_placeholder by done. simpl.
    split_and!; lia.
  - simpl written. rewrite enrichments_placeholder.
    2: { apply branch_duplicate in Hb as (_ & _ & Ho).
         by apply originalOf_Some in Ho as [_ Ho]. }
    simpl. split_and!; lia.
  - destruct (enrich_trace rate st row (llm (calls st) (code row))
                (enriched row
                   (getArtisticScoreAndReason (llm (calls st) (code row)))))
      as [Hw Hr].
    rewrite Hw, Hr, enrich_sent, sent_length, enrichments_enriched.
    simpl. split_and!; lia.
Qed.

(** X11 (what the counter counts).  The number a run of the classify stage
    reports at its end is the number of calls of the adapter and the number
    of enrichment rows it wrote; placeholder rows and skipped records are
    not counted, so the number is at most that of the records.  The
    requests sent to the model, those the client sends again on its own
    included, are at least as many. *)
Theorem classify_count_is_enrichments rate f records t0 llm :
  count (main rate f records t0 llm).1
  = length (request_times (main rate f records t0 llm).2)
  ∧ count (main rate f records t0 llm).1
    = length (enrichments (written (main rate f records t0 llm).2))
  ∧ calls (main rate f records t0 llm).1
    = count (main rate f records t0 llm).1
  ∧ (count (main rate f records t0 llm).1 ≤ length records)%nat
  ∧ (count (main rate f records t0 llm).1
     ≤ length (sent_times (main rate f records t0 llm).2))%nat.
Proof.
  unfold main.
  destruct (cloop_count rate llm
    {| now := t0; file := f; append := bool_decide (is_Some f);
       processedAddresses := loadProcessed f; processedCodes := ∅;
       lastRequestTime := 0; calls := 0; count := 0 |} records)
    as (Hcount & Hcalls & Henr & Hle & Hsent).
  simpl in *. split_and!; lia.
Qed.

(** The rows of a step come from its record. *)
Lemma cstep_rows rate llm st row :
  Forall (λ out,
            out_block_number out = block_number row
            ∧ out_address out = address row
            ∧ out_is_erc20 out = is_erc20 row
            ∧ out_is_erc721 out = is_erc721 row
            ∧ (out_code out = ""%string
               ∨ out_code out = Js.escapeNewlines (code row)))
    (written (step rate llm st row).2).
Proof.
  pose proof (cstep_summary rate llm st row) as Hs. simpl in Hs.
  destruct (branch st row).
  - destruct Hs as [_ ->]. constructor.
  - destruct Hs as [-> _]. constructor; [|constructor]. simpl. tauto.
  - destruct Hs as [-> _]. constructor; [|constructor]. simpl. tauto.
  - destruct Hs as [-> _]. constructor; [|constructor]. simpl. tauto.
Qed.

(** X12 (the rows of a run).  The rows a run of the classify stage writes
    follow the order of the input: their addresses are a subsequence of the
    addresses of the input.  Every row holds the block number, the address
    and the two flags of its record, and as its code nothing or the code of
    the record with its line breaks escaped: no row holds a line feed in
    its code. *)
Theorem classify_rows_follow_input rate f records t0 llm :
  map out_address (written (main rate f records t0 llm).2)
    `sublist_of` map address records
  ∧ Forall (λ out,
              (∃ row, row ∈ records
                      ∧ out_block_number out = block_number row
                      ∧ out_address out = address row
                      ∧ out_is_erc20 out = is_erc20 row
                      ∧ out_is_erc721 out = is_erc721 row
                      ∧ (out_code out = ""%string
                         ∨ out_code out = Js.escapeNewlines (code row)))
              ∧ lacks Js.LF (out_code out) = true)
      (written (main rate f records t0 llm).2).
Proof.
  unfold main. split; [apply cloop_written_addresses|].
  apply (cloop_invariant rate llm (λ done st evs,
    Forall (λ out,
              (∃ row, row ∈ done
                      ∧ out_block_number out = block_number row
                      ∧ out_address out = address row
                      ∧ out_is_erc20 out = is_erc20 row
                      ∧ out_is_erc721 out = is_erc721 row
                      ∧ (out_code out = ""%string
                         ∨ out_code out = Js.escapeNewlines (code row)))
              ∧ lacks Js.LF (out_code out) = true)
      (written evs))); [constructor|].
  intros done st evs row Hall. rewrite cwritten_app.
  apply Forall_app. split.
  - eapply Forall_impl; [exact Hall|]. simpl.
    intros out [(row0 & Hin & Hrow0) Hlf]. split; [|done].
    exists row0. split; [|done]. apply elem_of_app. by left.
  - eapply Forall_impl; [apply cstep_rows|]. simpl.
    intros out (H1 & H2 & H3 & H4 & Hcode). split.
    + exists row. split; [|done].
      apply elem_of_app. right. by apply list_elem_of_singleton.
    + destruct Hcode as [->| ->]; [done|apply escapeNewlines_no_LF].
Qed.

Lemma spaced_snoc d ts t' :
  spaced d ts → Forall (λ t, t + d ≤ t') ts → spaced d (ts ++ [t']).
Proof.
  induction ts as [|t1 ts IH]; simpl; [done|].
  intros [H1 Hsp] [Ht1 Hts]%Forall_cons. split; [|by apply IH].
  destruct ts as [|t2 ts]; simpl; [done|done].
Qed.

(** X13 (the distance between the calls of the adapter).  At a rate of
    one or more, when no request and no wait of the client takes a
    negative time, the calls of the adapter in a run of the classify stage
    (the first request of each) are the whole part of 1000 / rate
    milliseconds or more apart.  The requests the client sends again within
    a call are not the limiter's: their distance is the client's. *)
Theorem classify_calls_are_spaced rate f records t0 llm :
  1 ≤ rate →
  0 ≤ t0 →
  (∀ n snippet, timely (llm n snippet)) →
  spaced (1000 / rate) (request_times (main rate f records t0 llm).2).
Proof.
  intros Hrate Ht0 Hlat. unfold main.
  cut (lastRequestTime (loop rate llm
         {| now := t0; file := f; append := bool_decide (is_Some f);
            processedAddresses := loadProcessed f; processedCodes := ∅;
            lastRequestTime := 0; calls := 0; count := 0 |} records).1
       ≤ now (loop rate llm
         {| now := t0; file := f; append := bool_decide (is_Some f);
            processedAddresses := loadProcessed f; processedCodes := ∅;
            lastRequestTime := 0; calls := 0; count := 0 |} records).1
       ∧ Forall (λ t, t ≤ lastRequestTime (loop rate llm
         {| now := t0; file := f; append := bool_decide (is_Some f);
            processedAddresses := loadProcessed f; processedCodes := ∅;
            lastRequestTime := 0; calls := 0; count := 0 |} records).1)
           (request_times (loop rate llm
         {| now := t0; file := f; append := bool_decide (is_Some f);
            processedAddresses := loadProcessed f; processedCodes := ∅;
            lastRequestTime := 0; calls := 0; count := 0 |} records).2)
       ∧ spaced (1000 / rate) (request_times (loop rate llm
         {| now := t0; file := f; append := bool_decide (is_Some f);
            processedAddresses := loadProcessed f; processedCodes := ∅;
            lastRequestTime := 0; calls := 0; count := 0 |} records).2)).
  { tauto. }
  apply (cloop_invariant rate llm (λ done st evs,
    lastRequestTime st ≤ now st
    ∧ Forall (λ t, t ≤ lastRequestTime st) (request_times evs)
    ∧ spaced (1000 / rate) (request_times evs))).
  { simpl. split_and!; [done|constructor|done]. }
  intros done st evs row (Hpast & Hts & Hsp).
  rewrite cstep_branch. destruct (branch st row); simpl;
    try (rewrite request_times_app; simpl; rewrite app_nil_r; done).
  rewrite request_times_app.
  rewrite (proj2 (enrich_trace rate st row (llm (calls st) (code row)) _)).
  destruct (limiter_gap rate st Hrate Hpast) as [Hnow Hgap].
  destruct (Hlat (calls st) (code row)) as [Hl Hres].
  destruct (resend_sent (limiter rate st).1 _ Hres) as (Hlast & _ & _).
  split_and!.
  - lia.
  - apply Forall_app. split.
    + eapply Forall_impl; [done|]. simpl. lia.
    + constructor; [lia|done].
  - apply spaced_snoc; [done|].
    eapply Forall_impl; [done|]. simpl. lia.
Qed.

Lemma classify_calls_are_spaced_witness :
  spaced (1000 / 1)
    (request_times
       (main 1 None [Ex.code_row "0xA" Ex.poem; Ex.code_row "0xB" Ex.token]
          5000 Ex.hurried).2).
Proof.
  apply (classify_calls_are_spaced 1 None
           [Ex.code_row "0xA" Ex.poem; Ex.code_row "0xB" Ex.token]
           5000 Ex.hurried).
  - lia.
  - lia.
  - intros n snippet. split; [simpl; lia|].
    repeat (constructor; [simpl; lia|]). constructor.
Defined.

(** X14 (the keys of the content index).  Every content in the index of a
    run is the code of a record of the input, longer than
    [MIN_CODE_LENGTH] characters, and is held with the address of such a
    record. *)
Theorem content_index_keys_are_long rate f records t0 llm c a :
  processedCodes (main rate f records t0 llm).1 !! c = Some a →
  (MIN_CODE_LENGTH < String.length c)%nat
  ∧ ∃ r, r ∈ records ∧ code r = c ∧ address r = a.
Proof.
  unfold main. revert c a.
  apply (cloop_invariant rate llm (λ done st evs,
    ∀ c a, processedCodes st !! c = Some a →
           (MIN_CODE_LENGTH < String.length c)%nat
           ∧ ∃ r, r ∈ done ∧ code r = c ∧ address r = a)).
  { intros c a. simpl. by rewrite lookup_empty. }
  intros done st evs row Hinv c a.
  assert (∀ c a,
            (MIN_CODE_LENGTH < String.length c)%nat
            ∧ (∃ r, r ∈ done ∧ code r = c ∧ address r = a) →
            (MIN_CODE_LENGTH < String.length c)%nat
            ∧ ∃ r, r ∈ done ++ [row] ∧ code r = c ∧ address r = a) as Hweak.
  { intros c' a' [Hlen (r & Hr & Hrest)]. split; [done|].
    exists r. split; [|done]. apply elem_of_app. by left. }
  pose proof (cstep_summary rate llm st row) as Hs. simpl in Hs.
  destruct (branch st row) eqn:Hb.
  - destruct Hs as [-> _]. intros Hc. by apply Hweak, Hinv.
  - destruct Hs as (_ & _ & ->). intros Hc. by apply Hweak, Hinv.
  - destruct Hs as (_ & _ & ->). intros Hc. by apply Hweak, Hinv.
  - destruct Hs as (_ & _ & ->).
    apply branch_enriched in Hb as (_ & Hlen & _).
    destruct (decide (code row = c)) as [<-|Hne].
    + rewrite lookup_insert_eq. intros [= <-]. split; [done|].
      exists row. split; [|done].
      apply elem_of_app. right. by apply list_elem_of_singleton.
    + rewrite lookup_insert_ne by done. intros Hc. by apply Hweak, Hinv.
Qed.

Lemma content_index_keys_are_long_witness :
  (MIN_CODE_LENGTH < String.length Ex.poem)%nat
  ∧ ∃ r, r ∈ [Ex.code_row "0xA" Ex.poem; Ex.code_row "0xB" "short"]
         ∧ code r = Ex.poem ∧ address r = "0xA"%string.
Proof.
  apply (content_index_keys_are_long 1 None
           [Ex.code_row "0xA" Ex.poem; Ex.code_row "0xB" "short"]
           5000 Ex.critic Ex.poem "0xA").
  vm_compute. reflexivity.
Defined.

Lemma occurrences_app c s1 s2 :
  occurrences c (s1 +:+ s2) = (occurrences c s1 + occurrences c s2)%nat.
Proof.
  induction s1 as [|c' s1 IH]; [by rewrite append_nil_l|].
  rewrite append_cons. simpl. rewrite IH. lia.
Qed.

(** The text of an output file ends with a line feed. *)
Lemma file_of_app rows more :
  ∃ B, file_of rows = B +:+ String Js.LF ""
       ∧ file_of (rows ++ more) = B +:+ String Js.LF (text_of more).
Proof.
  assert (∃ B, file_of rows = B +:+ String Js.LF "") as [B HB].
  { unfold file_of. destruct rows as [|r rows _] using rev_ind.
    - simpl. rewrite append_nil_r. unfold Csv.header. by eexists.
    - rewrite text_of_app. simpl. rewrite append_nil_r, line_body.
      rewrite <- !append_assoc. by eexists. }
  exists B. split; [done|].
  unfold file_of in *. rewrite text_of_app, <- append_assoc, HB.
  by rewrite append_assoc, append_cons, append_nil_l.
Qed.

Lemma scan_tail B M :
  tail (Js.split Js.LF (B +:+ String Js.LF M))
  = tail (Js.split Js.LF B) ++ Js.split Js.LF M.
Proof.
  rewrite split_app_sep.
  by destruct (split_nonempty Js.LF B) as (w & ws & ->).
Qed.

Lemma loadProcessed_append B M :
  loadProcessed (Some (B +:+ String Js.LF ""))
    ⊆ loadProcessed (Some (B +:+ String Js.LF M)).
Proof.
  unfold loadProcessed. simpl. rewrite !scan_tail, !scan_app. simpl.
  apply scan_grows.
Qed.

Lemma cloop_ledger_grows rate llm st0 rows0 records :
  holds (file st0) rows0 →
  append st0 = bool_decide (is_Some (file st0)) →
  loadProcessed (file st0) ⊆ loadProcessed (file (loop rate llm st0 records).1).
Proof.
  intros Hholds Happ.
  destruct (cloop_file rate llm st0 rows0 records Hholds Happ) as [Hfile _].
  destruct Hholds as [Hf|[Hf ->]].
  - rewrite Hf.
    destruct (file_of_app rows0 (written (loop rate llm st0 records).2))
      as (B & HB & HB').
    destruct Hfile as [->|[-> Hnil]].
    + rewrite HB, HB'. apply loadProcessed_append.
    + apply app_eq_nil in Hnil as [-> _]. by vm_compute.
  - rewrite Hf. simpl. apply empty_subseteq.
Qed.

Lemma cloop_covers rate llm st0 records :
  ∀ r, r ∈ records →
       address r ∈ processedAddresses st0
       ∨ address r ∈ map out_address (written (loop rate llm st0 records).2).
Proof.
  cut ((∀ a, a ∈ processedAddresses (loop rate llm st0 records).1 →
             a ∈ processedAddresses st0
             ∨ a ∈ map out_address (written (loop rate llm st0 records).2))
       ∧ ∀ r, r ∈ records →
              address r ∈ processedAddresses st0
              ∨ address r
                  ∈ map out_address (written (loop rate llm st0 records).2)).
  { tauto. }
  apply (cloop_invariant rate llm (λ done st evs,
    (∀ a, a ∈ processedAddresses st →
          a ∈ processedAddresses st0 ∨ a ∈ map out_address (written evs))
    ∧ ∀ r, r ∈ done →
           address r ∈ processedAddresses st0
           ∨ address r ∈ map out_address (written evs))).
  { split; [tauto|]. by intros r ?%elem_of_nil. }
  intros done st evs row [Hset Hdone].
  rewrite cwritten_app, map_app.
  assert (∀ a, a ∈ processedAddresses st0 ∨ a ∈ map out_address (written evs) →
               a ∈ processedAddresses st0
               ∨ a ∈ map out_address (written evs)
                     ++ map out_address (written (step rate llm st row).2))
    as Hweak.
  { intros a [?|?]; [by left|]. right. apply elem_of_app. by left. }
  assert (∀ out, written (step rate llm st row).2 = [out] →
                 out_address out = address row →
                 address row ∈ processedAddresses st0
                 ∨ address row
                     ∈ map out_address (written evs)
                       ++ map out_address (written (step rate llm st row).2))
    as Hrow.
  { intros out -> <-. right. apply elem_of_app. right. simpl.
    by apply list_elem_of_singleton. }
  pose proof (cstep_summary rate llm st row) as Hs. simpl in Hs.
  destruct (branch st row) eqn:Hb.
  - destruct Hs as [Hst Hw]. rewrite Hst. split.
    + intros a Ha. by apply Hweak, Hset.
    + intros r [Hr| ->%list_elem_of_singleton]%elem_of_app.
      * by apply Hweak, Hdone.
      * apply branch_skipped in Hb. by apply Hweak, Hset.
  - destruct Hs as (Hw & Hp & _). rewrite Hp. split.
    + intros a Ha. by apply Hweak, Hset.
    + intros r [Hr| ->%list_elem_of_singleton]%elem_of_app.
      * by apply Hweak, Hdone.
      * by apply (Hrow _ Hw).
  - destruct Hs as (Hw & Hp & _). rewrite Hp. split.
    + intros a Ha. by apply Hweak, Hset.
    + intros r [Hr| ->%list_elem_of_singleton]%elem_of_app.
      * by apply Hweak, Hdone.
      * by apply (Hrow _ Hw).
  - destruct Hs as (Hw & Hp & _). rewrite Hp. split.
    + intros a [->%elem_of_singleton|Ha]%elem_of_union.
      * by apply (Hrow _ Hw).
      * by apply Hweak, Hset.
    + intros r [Hr| ->%list_elem_of_singleton]%elem_of_app.
      * by apply Hweak, Hdone.
      * by apply (Hrow _ Hw).
Qed.

Lemma cloop_all_skipped rate llm st records :
  Forall (λ r, address r ∈ processedAddresses st) records →
  loop rate llm st records = (st, map (λ r, LogSkipAddr (address r)) records).
Proof.
  induction 1 as [|row records Hrow _ IH]; [done|].
  simpl. rewrite cstep_skip by done. by rewrite IH.
Qed.

(** Every address of the input of a run is read off the file the run
    leaves. *)
Lemma cloop_input_in_ledger rate f rows0 records t0 llm r :
  holds f rows0 →
  Forall well_formed_key records →
  r ∈ records →
  address r ∈ loadProcessed (file (main rate f records t0 llm).1).
Proof.
  intros Hholds Hkeys Hr. unfold main.
  set (st0 := {| now := t0; file := f; append := bool_decide (is_Some f);
                 processedAddresses := loadProcessed f; processedCodes := ∅;
                 lastRequestTime := 0; calls := 0; count := 0 |}).
  destruct (cloop_covers rate llm st0 records r Hr) as [Hold|Hnew].
  - by apply (cloop_ledger_grows rate llm st0 rows0 records Hholds eq_refl).
  - apply list_elem_of_fmap in Hnew as (out & Haddr & Hout).
    destruct (cloop_file rate llm st0 rows0 records Hholds eq_refl)
      as [Hfile Hfrom].
    rewrite Haddr.
    apply (loadProcessed_holds _
             (rows0 ++ written (loop rate llm st0 records).2));
      [done|apply elem_of_app; by right|].
    destruct (Hfrom out Hout) as (row & Hrow & Ha & Hb).
    unfold scannable. rewrite Ha, Hb.
    by apply (proj1 (Forall_forall _ _) Hkeys).
Qed.

(** X15 (a second run has nothing to do).  Take an output file as the
    writer left it, or none, and an input whose block numbers and
    addresses hold no comma, double quote or line feed, no address being
    empty.
    After a run over that input, a run over the same records, in any order
    and any number of them, on the file the first run left skips every
    record: it makes no request, writes no row and leaves the file as it
    is. *)
Theorem classify_rerun_is_noop
    rate rate' f rows0 records records' t0 t1 llm llm' :
  holds f rows0 →
  Forall well_formed_key records →
  Forall (λ r', r' ∈ records) records' →
  (main rate' (file (main rate f records t0 llm).1) records' t1 llm').2
    = map (λ r, LogSkipAddr (address r)) records'
  ∧ file (main rate' (file (main rate f records t0 llm).1) records' t1 llm').1
    = file (main rate f records t0 llm).1.
Proof.
  intros Hholds Hkeys Hsame.
  unfold main at 1 3.
  rewrite cloop_all_skipped; [done|]. simpl.
  eapply Forall_impl; [exact Hsame|]. simpl.
  intros r' Hr'. by eapply cloop_input_in_ledger.
Qed.

Lemma classify_rerun_is_noop_witness :
  (main 1
     (file (main 1 None
              [Ex.code_row "0xA" Ex.poem; Ex.code_row "0xB" "short";
               Ex.code_row "0xC" Ex.poem] 5000 Ex.critic).1)
     [Ex.code_row "0xC" Ex.poem; Ex.code_row "0xA" Ex.poem;
      Ex.code_row "0xB" "short"] 9000 Ex.down).2
  = [LogSkipAddr "0xC"; LogSkipAddr "0xA"; LogSkipAddr "0xB"]
  ∧ file
      (main 1
         (file (main 1 None
                  [Ex.code_row "0xA" Ex.poem; Ex.code_row "0xB" "short";
                   Ex.code_row "0xC" Ex.poem] 5000 Ex.critic).1)
         [Ex.code_row "0xC" Ex.poem; Ex.code_row "0xA" Ex.poem;
          Ex.code_row "0xB" "short"] 9000 Ex.down).1
    = file (main 1 None
              [Ex.code_row "0xA" Ex.poem; Ex.code_row "0xB" "short";
               Ex.code_row "0xC" Ex.poem] 5000 Ex.critic).1.
Proof.
  apply (classify_rerun_is_noop 1 1 None []
           [Ex.code_row "0xA" Ex.poem; Ex.code_row "0xB" "short";
            Ex.code_row "0xC" Ex.poem]
           [Ex.code_row "0xC" Ex.poem; Ex.code_row "0xA" Ex.poem;
            Ex.code_row "0xB" "short"] 5000 9000 Ex.critic Ex.down).
  - right. split; reflexivity.
  - repeat (constructor;
            [split_and!; [reflexivity|reflexivity|discriminate]|]).
    constructor.
  - repeat (constructor; [apply list_elem_of_In; vm_compute; tauto|]).
    constructor.
Defined.

Lemma cloop_file_text rate llm st0 text records :
  file st0 = Some text →
  append st0 = true →
  file (loop rate llm st0 records).1
  = Some (text +:+ text_of (written (loop rate llm st0 records).2)).
Proof.
  intros Hfile Happ.
  cut (file (loop rate llm st0 records).1
       = Some (text +:+ text_of (written (loop rate llm st0 records).2))
       ∧ append (loop rate llm st0 records).1 = true).
  { tauto. }
  apply (cloop_invariant rate llm (λ done st evs,
    file st = Some (text +:+ text_of (written evs)) ∧ append st = true)).
  { simpl. by rewrite append_nil_r. }
  intros done st evs row [Hf Ha]. rewrite cwritten_app.
  destruct (cstep_file rate llm st row)
    as [(-> & -> & ->)|(out & -> & _ & _ & -> & ->)].
  - by rewrite app_nil_r.
  - split; [|done]. rewrite Hf, Ha. simpl.
    rewrite text_of_app, append_assoc. simpl text_of.
    by rewrite append_nil_r.
Qed.

Lemma first_line_passed_over C T :
  lacks Js.LF C = true →
  loadProcessed (Some (C +:+ String Js.LF T))
  = foldl scanLine ∅ (Js.split Js.LF T).
Proof.
  intros HC. unfold loadProcessed. simpl.
  by rewrite scan_tail, split_lacks.
Qed.

(** X16 (an output file without header).  On an output file that exists
    and is empty, a run of the classify stage writes its rows without a
    header before them.  The scan at the start of a run passes over the
    first line of the file, whatever it holds: when that line is a row that
    takes one line of text, the scan reads the file as if the row were the
    header, and the address of the row is processed only when another line
    gives it. *)
Theorem classify_file_without_header :
  (∀ rate records t0 llm,
     file (main rate (Some ""%string) records t0 llm).1
     = Some (text_of (written (main rate (Some ""%string) records t0 llm).2)))
  ∧ (∀ row rows,
       one_line row →
       loadProcessed (Some (text_of (row :: rows)))
       = loadProcessed (Some (file_of rows))).
Proof.
  split.
  - intros rate records t0 llm. unfold main.
    rewrite (cloop_file_text rate llm _ ""%string); [|done|done].
    by rewrite append_nil_l.
  - intros row rows Hone. unfold one_line in Hone.
    unfold file_of, Csv.header. simpl text_of.
    rewrite line_body in *.
    set (C := String.concat "," _) in *.
    rewrite occurrences_app in Hone.
    change (occurrences Js.LF (String Js.LF "")) with 1%nat in Hone.
    rewrite !append_assoc, !append_cons, !append_nil_l.
    rewrite !first_line_passed_over; [done|done|].
    apply lacks_occurrences. lia.
Qed.

Lemma classify_file_without_header_witness :
  loadProcessed
    (Some (text_of
             [enriched (Ex.code_row "0xA" Ex.poem)
                {| score := Some 3; reason := "a poem" |}]))
  = loadProcessed (Some (file_of [])).
Proof.
  apply (proj2 classify_file_without_header
           (enriched (Ex.code_row "0xA" Ex.poem)
              {| score := Some 3; reason := "a poem" |}) []).
  vm_compute. reflexivity.
Defined.

End MoreClassify.

(** ** Escaped line breaks *)

(** X17 (escaped line breaks).  The code both stages write into a row,
    [s.replace(/\r?\n/g, "\\n")], holds no line feed, whatever the source
    holds; escaping it once more changes nothing, and it is empty only
    when the source is. *)
Theorem escapeNewlines_leaves_no_line_feed s :
  lacks Js.LF (Js.escapeNewlines s) = true
  ∧ Js.escapeNewlines (Js.escapeNewlines s) = Js.escapeNewlines s
  ∧ (Js.escapeNewlines s = ""%string ↔ s = ""%string).
Proof.
  split_and!.
  - apply escapeNewlines_no_LF.
  - apply escapeNewlines_lacks, escapeNewlines_no_LF.
  - split; [|by intros ->].
    intros He. destruct s as [|c s]; [done|].
    by destruct (escapeNewlines_nonempty (String c s)).
Qed.

(** ** The counting script *)

Section MoreCount.
Import CountNonErc20.

Ltac each_code_unit c :=
  destruct c as [[] [] [] [] [] [] [] []]; vm_compute;
  (split; [intros H; first [discriminate H | tauto]
          |intros [H|H]; first [discriminate H | reflexivity]]).

Lemma lower_t c : Js.lower c = "t"%char ↔ either_case "t" "T" c.
Proof. unfold either_case. each_code_unit c. Qed.

Lemma lower_r c : Js.lower c = "r"%char ↔ either_case "r" "R" c.
Proof. unfold either_case. each_code_unit c. Qed.

Lemma lower_u c : Js.lower c = "u"%char ↔ either_case "u" "U" c.
Proof. unfold either_case. each_code_unit c. Qed.

Lemma lower_e c : Js.lower c = "e"%char ↔ either_case "e" "E" c.
Proof. unfold either_case. each_code_unit c. Qed.

Lemma toLowerCase_true s :
  Js.toLowerCase s = "true"%string ↔ reads_true s.
Proof.
  unfold reads_true. split.
  - destruct s as [|c1 [|c2 [|c3 [|c4 [|c5 s]]]]]; try done.
    simpl. intros [= H1 H2 H3 H4]. exists c1, c2, c3, c4.
    split; [done|].
    by rewrite <- lower_t, <- lower_r, <- lower_u, <- lower_e.
  - intros (c1 & c2 & c3 & c4 & -> & H1 & H2 & H3 & H4). simpl.
    apply lower_t in H1. apply lower_r in H2.
    apply lower_u in H3. apply lower_e in H4.
    by rewrite H1, H2, H3, H4.
Qed.

Lemma handle_rows n rows after :
  handle n (map Data rows ++ End :: after)
  = Some (Resolved
            (n + length (filter (λ row, non_erc20 row = true) rows))).
Proof.
  revert n. induction rows as [|row rows IH]; intros n; simpl.
  { by rewrite Nat.add_0_r. }
  rewrite IH, filter_cons. destruct (non_erc20 row) eqn:Hrow.
  - rewrite decide_True by done. simpl. f_equal. f_equal. lia.
  - by rewrite decide_False by done.
Qed.

(** X18 (what counts as ERC-20).  The handler counts a row unless its
    [is_erc20] column is the word true in some mix of capital and small
    letters, and nothing else: a row without the column is counted, and so
    is a row whose column holds the word with a space beside it. *)
Theorem non_erc20_unless_reads_true row :
  non_erc20 row = false ↔ ∃ s, is_erc20 row = Some s ∧ reads_true s.
Proof.
  unfold non_erc20. rewrite negb_false_iff, String.eqb_eq.
  destruct (is_erc20 row) as [s|]; simpl.
  - rewrite toLowerCase_true. split; [by exists s|].
    by intros (s' & [= <-] & Hs).
  - split; [done|]. by intros (s' & ? & _).
Qed.

(** X19 (the count).  When the parser delivers its rows and ends, the
    promise of [countNonErc20] is resolved with the number of the rows
    whose column does not read true, whatever the parser emits after its
    end; that number is the number of all the rows when none has the
    column.  Without a path on the command line, or with an empty one, the
    script stops at its usage message and reads no stream. *)
Theorem countNonErc20_counts :
  (∀ rows after,
     countNonErc20 (map Data rows ++ End :: after)
     = Some (Resolved (length (filter (λ row, non_erc20 row = true) rows))))
  ∧ (∀ rows after,
       Forall (λ row, is_erc20 row = None) rows →
       countNonErc20 (map Data rows ++ End :: after)
       = Some (Resolved (length rows)))
  ∧ (∀ stream,
       script None stream = Usage ∧ script (Some ""%string) stream = Usage).
Proof.
  split_and!; [| |done].
  - intros rows after. unfold countNonErc20. by rewrite handle_rows.
  - intros rows after Hnone. unfold countNonErc20. rewrite handle_rows.
    simpl. do 2 f_equal.
    induction Hnone as [|row rows Hrow _ IH]; [done|].
    rewrite filter_cons, decide_True; [simpl; by rewrite IH|].
    unfold non_erc20. by rewrite Hrow.
Qed.

Lemma countNonErc20_counts_witness :
  countNonErc20
    (map Data [{| is_erc20 := None |}; {| is_erc20 := None |}] ++ [End])
  = Some (Resolved 2).
Proof.
  apply (proj1 (proj2 countNonErc20_counts)
           [{| is_erc20 := None |}; {| is_erc20 := None |}] []).
  by repeat constructor.
Defined.

End MoreCount.

(** ** The two stages together *)

(** X21 (a code goes through the second stage as it is).  The code of a
    row the fetch stage wrote holds no line break left to escape: when the
    classify stage enriches that row, the code it writes is the code it
    read, and the row keeps its block number, its address and its flags. *)
Theorem fetched_code_passes_through rate f records t0 replies st evs out a :
  GetCode.main rate f records t0 replies = Some (st, evs) →
  out ∈ GetCode.written evs →
  Classify.out_code (Classify.enriched (as_input out) a)
    = GetCode.out_code out
  ∧ Classify.out_block_number (Classify.enriched (as_input out) a)
    = GetCode.out_block_number out
  ∧ Classify.out_address (Classify.enriched (as_input out) a)
    = GetCode.out_address out
  ∧ Classify.out_is_erc20 (Classify.enriched (as_input out) a)
    = GetCode.out_is_erc20 out
  ∧ Classify.out_is_erc721 (Classify.enriched (as_input out) a)
    = GetCode.out_is_erc721 out.
Proof.
  intros Hmain Hout. split; [|done]. simpl.
  destruct (loop_rows _ _ _ _ _ Hmain) as [_ Hrows].
  destruct (proj1 (Forall_forall _ _) Hrows out Hout)
    as (row & src & _ & _ & ->).
  simpl. apply escapeNewlines_lacks, escapeNewlines_no_LF.
Qed.

Lemma fetched_code_passes_through_witness :
  Classify.out_code
    (Classify.enriched
       (as_input
          (fetched_row (Ex.addr_row "0xA1")
             (String "a" (String Js.LF (String "b" "")))))
       {| Classify.score := Some 1; Classify.reason := "plain" |})
  = String "a" (String Js.BACKSLASH (String "n" (String "b" ""))).
Proof.
  assert (∃ st evs,
            GetCode.main 3 None [Ex.addr_row "0xA1"] 0
              [{| GetCode.latency := 70;
                  GetCode.body :=
                    GetCode.Json "OK"
                      (Some [Some (String "a" (String Js.LF (String "b" "")))])
                |}] = Some (st, evs)
            ∧ fetched_row (Ex.addr_row "0xA1")
                (String "a" (String Js.LF (String "b" "")))
                ∈ GetCode.written evs) as (st & evs & Hmain & Hout).
  { eexists _, _. split; [vm_compute; reflexivity|].
    apply list_elem_of_In. vm_compute. tauto. }
  exact (proj1 (fetched_code_passes_through _ _ _ _ _ _ _ _
                  {| Classify.score := Some 1; Classify.reason := "plain" |}
                  Hmain Hout)).
Defined.
